(** * Dependency scanner: resolvers, version classifier and scan pipelines

    A shallow embedding of [src/checkDeps.ts] (resolvers, [checkVersion],
    the three scan entry points) together with the facts the specification
    states about them.

    Conventions of the embedding:
    - a JavaScript value of type [string | null] is an [option string]
      ([None] is [null]; an [undefined] array slot is [None] as well, both
      are falsy and neither is a string);
    - a [Map<string, string | null>] is a [gmap string (option string)], so a
      lookup yields [None] for an absent key, [Some None] for a cached
      [null] and [Some (Some v)] for a cached string;
    - an object used as a record ([Record<string, string>]) is the list of
      its own entries in the order [Object.keys] enumerates them, and
      [parsedRecord] gives that list for the members of a JSON object as
      they are written;
    - asynchronous code runs sequentially ([await] at every call), so it is
      written in a state-and-exception monad over the process-wide caches and
      the log of outbound requests;
    - [console.log] output is not part of any returned value and is left out. *)

From Stdlib Require Import String Ascii ZArith NArith List Bool Lia Sorted.
From stdpp Require Import base option list gmap strings pretty.

Local Open Scope string_scope.
Local Open Scope Z_scope.

(** ** Completions: a JavaScript evaluation returns or throws *)

Inductive Exn : Type :=
  | TypeError (msg : string)
  | RequestError (status : Z)
  | TransportFault (what : string).

Inductive Completion (A : Type) : Type :=
  | Normal (a : A)
  | Throw (e : Exn).
Arguments Normal {A} a.
Arguments Throw {A} e.

(** ** JavaScript strings *)

Module JS.

(** [!x] for [x : string | null]: [null] and the empty string are falsy. *)
Definition truthy (x : option string) : option string :=
  match x with
  | Some "" => None
  | Some s => Some s
  | None => None
  end.

Definition falsy (x : option string) : bool :=
  match truthy x with Some _ => false | None => true end.

(** [s.startsWith(p)] *)
Definition startsWith (s p : string) : bool := String.prefix p s.

(** [s.slice(n)] for [0 <= n]. *)
Fixpoint slice_from (n : nat) (s : string) : string :=
  match n, s with
  | O, _ => s
  | S n', String _ s' => slice_from n' s'
  | S _, EmptyString => EmptyString
  end.

(** [s.slice(0, n)] for [0 <= n]. *)
Fixpoint slice_to (n : nat) (s : string) : string :=
  match n, s with
  | O, _ => EmptyString
  | S n', String c s' => String c (slice_to n' s')
  | S _, EmptyString => EmptyString
  end.

(** [s.slice(1, -1)] *)
Definition slice_1_m1 (s : string) : string :=
  slice_to (String.length s - 2) (slice_from 1 s).

(** [s.lastIndexOf(c)], counting from [i] for the first character;
    [-1] when [c] does not occur. *)
Fixpoint lastIndexOf_from (c : ascii) (s : string) (i : Z) : Z :=
  match s with
  | EmptyString => -1
  | String a s' =>
      let r := lastIndexOf_from c s' (i + 1) in
      if 0 <=? r then r else if Ascii.eqb a c then i else -1
  end.

Definition lastIndexOf (c : ascii) (s : string) : Z := lastIndexOf_from c s 0.

(** [s.split(sep)] for a one-character separator: always at least one
    piece, and [n] separators give [n + 1] pieces. *)
Fixpoint split (sep : ascii) (s : string) : list string :=
  match s with
  | EmptyString => [EmptyString]
  | String c s' =>
      if Ascii.eqb c sep then EmptyString :: split sep s'
      else match split sep s' with
           | h :: t => String c h :: t
           | [] => [String c EmptyString]
           end
  end.

(** [xs.join(sep)] *)
Fixpoint join (sep : string) (xs : list string) : string :=
  match xs with
  | [] => EmptyString
  | [x] => x
  | x :: rest => x +:+ sep +:+ join sep rest
  end.

(** White space as [String.prototype.trim] sees it, within ASCII. *)
Definition is_space (c : ascii) : bool :=
  let n := N_of_ascii c in
  ((9 <=? n) && (n <=? 13))%N || (n =? 32)%N.

Fixpoint trimStart (s : string) : string :=
  match s with
  | String c s' => if is_space c then trimStart s' else s
  | EmptyString => EmptyString
  end.

Fixpoint trimEnd (s : string) : string :=
  match s with
  | EmptyString => EmptyString
  | String c s' =>
      match trimEnd s' with
      | EmptyString => if is_space c then EmptyString else String c EmptyString
      | t => String c t
      end
  end.

Definition trim (s : string) : string := trimEnd (trimStart s).

(** The pieces of [s.trim().split(/\s+/)] that are not empty. *)
Fixpoint words_go (cur : string) (s : string) : list string :=
  match s with
  | EmptyString => match cur with EmptyString => [] | _ => [String.rev cur] end
  | String c s' =>
      if is_space c
      then match cur with
           | EmptyString => words_go EmptyString s'
           | _ => String.rev cur :: words_go EmptyString s'
           end
      else words_go (String c cur) s'
  end.

Definition words (s : string) : list string := words_go EmptyString s.

(** [`${x}`] for a possibly undefined [x]. *)
Definition template (x : option string) : string :=
  match x with Some s => s | None => "undefined" end.

End JS.

(** ** The semantic-versioning library

    [checkDeps.ts] imports [valid], [gtr] and [clean] from the external
    package [semver]; that package is not part of the repository. The
    embedding of [checkDeps.ts] is written against this interface, and the
    facts about [checkVersion] are proved for every implementation of it:
    - [valid v] is the canonical form of [v] when [v] is a syntactically
      valid semantic version, and [null] otherwise (it never throws);
    - [gtr v range] is the library's test that [v] lies above [range], and
      throws when [range] (or [v]) cannot be parsed;
    - [clean v] strips decoration such as a leading [v] and gives the
      canonical form, or [null]. *)

Class SemverLib : Type := {
  valid : string -> option string;
  gtr : string -> string -> Completion bool;
  clean : string -> option string
}.

(** Modelled from the spec: the package [semver] itself, which the
    repository only imports. The spec asks for "the range-aware greater-than
    check used by mainstream semantic-versioning libraries" over range
    expressions such as [^1.0.0], [~2.3.0] and [1.x]; the model follows
    node-semver 7 in strict mode (no [loose], no [includePrerelease]) on
    versions [v?M.m.p(-pre)?(+build)?] and on ranges built from [||],
    white-space separated comparators, the operators [< <= > >= =], caret,
    tilde, x-ranges and hyphen ranges. A version is at most [MAX_LENGTH]
    characters long and its numbers are at most [MAX_SAFE_INTEGER]; numeric
    prerelease identifiers are compared as JavaScript numbers. At most one
    leading [v] is accepted in front of a version, also inside a range, and
    the length limits the library puts on the parts of a range are left
    out. *)
Module NodeSemver.

Inductive Identifier : Type :=
  | Numeric (n : N)
  | Alphanumeric (s : string).

Record SemVer : Type := mkSemVer {
  major : N;
  minor : N;
  patch : N;
  prerelease : list Identifier;
  build : list string
}.

Definition is_digit (c : ascii) : bool :=
  let n := N_of_ascii c in ((48 <=? n) && (n <=? 57))%N.

Definition is_letter (c : ascii) : bool :=
  let n := N_of_ascii c in
  (((65 <=? n) && (n <=? 90)) || ((97 <=? n) && (n <=? 122)))%N.

Definition is_idchar (c : ascii) : bool :=
  is_digit c || is_letter c || Ascii.eqb c "-".

Fixpoint all_chars (f : ascii -> bool) (s : string) : bool :=
  match s with
  | EmptyString => true
  | String c s' => f c && all_chars f s'
  end.

Fixpoint digits_value (acc : N) (s : string) : N :=
  match s with
  | EmptyString => acc
  | String c s' => digits_value (10 * acc + (N_of_ascii c - 48))%N s'
  end.

(** [0|[1-9]\d*] *)
Definition numeric_identifier (s : string) : option N :=
  match s with
  | EmptyString => None
  | String "0" EmptyString => Some 0%N
  | String "0" _ => None
  | _ => if all_chars is_digit s then Some (digits_value 0 s) else None
  end.

(** [0|[1-9]\d*|\d*[a-zA-Z-][a-zA-Z0-9-]*] *)
Definition prerelease_identifier (s : string) : option Identifier :=
  match s with
  | EmptyString => None
  | _ =>
      if all_chars is_digit s then Numeric <$> numeric_identifier s
      else if all_chars is_idchar s then Some (Alphanumeric s)
      else None
  end.

(** [[0-9A-Za-z-]+] *)
Definition build_identifier (s : string) : bool :=
  match s with
  | EmptyString => false
  | _ => all_chars is_idchar s
  end.

(** [s] up to the first [c], and what follows that [c] if there is one. *)
Fixpoint cut (c : ascii) (s : string) : string * option string :=
  match s with
  | EmptyString => (EmptyString, None)
  | String a s' =>
      if Ascii.eqb a c then (EmptyString, Some s')
      else let '(h, t) := cut c s' in (String a h, t)
  end.

(** The optional [-prerelease] and [+build] tails of a version. *)
Definition tails (s : string)
  : option (string * list Identifier * list string) :=
  let '(s1, b) := cut "+" s in
  let '(main, p) := cut "-" s1 in
  pre ← match p with
        | None => Some []
        | Some p => mapM prerelease_identifier (JS.split "." p)
        end;
  bld ← match b with
        | None => Some []
        | Some b =>
            if forallb build_identifier (JS.split "." b)
            then Some (JS.split "." b) else None
        end;
  Some (main, pre, bld).

Definition strip_v (s : string) : string :=
  match s with
  | String "v" s' => s'
  | _ => s
  end.

Definition MAX_LENGTH : nat := 256.

(** [Number.MAX_SAFE_INTEGER], [2^53 - 1] *)
Definition MAX_SAFE_INTEGER : N := 9007199254740991.

(** [major], [minor] and [patch] are at most [MAX_SAFE_INTEGER]. *)
Definition safe (v : SemVer) : bool :=
  ((major v <=? MAX_SAFE_INTEGER) && (minor v <=? MAX_SAFE_INTEGER)
   && (patch v <=? MAX_SAFE_INTEGER))%N.

(** [new SemVer(version)], [None] where the constructor throws. *)
Definition parse (version : string) : option SemVer :=
  if (MAX_LENGTH <? String.length version)%nat then None
  else
    '(main, pre, bld) ← tails (strip_v (JS.trim version));
    match JS.split "." main with
    | [a; b; c] =>
        M ← numeric_identifier a;
        m ← numeric_identifier b;
        p ← numeric_identifier c;
        let v := mkSemVer M m p pre bld in
        if safe v then Some v else None
    | _ => None
    end.

Definition format_identifier (i : Identifier) : string :=
  match i with
  | Numeric n => pretty n
  | Alphanumeric s => s
  end.

(** The [version] field: the build metadata is not part of it. *)
Definition format (v : SemVer) : string :=
  pretty (major v) +:+ "." +:+ pretty (minor v) +:+ "." +:+ pretty (patch v)
  +:+ match prerelease v with
      | [] => ""
      | ids => "-" +:+ JS.join "." (format_identifier <$> ids)
      end.

(** [+id] for a run of digits [id]: the double nearest to [n], a tie going
    to the even one; [Infinity] is [2^1024]. *)
Definition toNumber (n : N) : N :=
  let e := (N.size n - 53)%N in
  let q := N.shiftr n e in
  let r := N.land n (N.ones e) in
  let half := N.shiftl 1 (e - 1) in
  let q' := if (e =? 0)%N then q
            else if (half <? r)%N || ((r =? half)%N && N.odd q) then (q + 1)%N
            else q in
  N.min (N.shiftl q' e) (2 ^ 1024)%N.

Definition compareIdentifiers (a b : Identifier) : comparison :=
  match a, b with
  | Numeric x, Numeric y => (toNumber x ?= toNumber y)%N
  | Numeric _, Alphanumeric _ => Lt
  | Alphanumeric _, Numeric _ => Gt
  | Alphanumeric x, Alphanumeric y => String.compare x y
  end.

Fixpoint comparePreLists (a b : list Identifier) : comparison :=
  match a, b with
  | [], [] => Eq
  | _ :: _, [] => Gt
  | [], _ :: _ => Lt
  | x :: a', y :: b' =>
      match compareIdentifiers x y with
      | Eq => comparePreLists a' b'
      | c => c
      end
  end.

Definition comparePre (a b : SemVer) : comparison :=
  match prerelease a, prerelease b with
  | _ :: _, [] => Lt
  | [], _ :: _ => Gt
  | [], [] => Eq
  | pa, pb => comparePreLists pa pb
  end.

Definition compareMain (a b : SemVer) : comparison :=
  match (major a ?= major b)%N with
  | Eq => match (minor a ?= minor b)%N with
          | Eq => (patch a ?= patch b)%N
          | c => c
          end
  | c => c
  end.

Definition compare (a b : SemVer) : comparison :=
  match compareMain a b with
  | Eq => comparePre a b
  | c => c
  end.

Definition gt (a b : SemVer) : bool :=
  match compare a b with Gt => true | _ => false end.
Definition lt (a b : SemVer) : bool :=
  match compare a b with Lt => true | _ => false end.
Definition eq (a b : SemVer) : bool :=
  match compare a b with Eq => true | _ => false end.
Definition gte (a b : SemVer) : bool := negb (lt a b).
Definition lte (a b : SemVer) : bool := negb (gt a b).

(** *** Ranges *)

(** The operator of a comparator; [=] is stored as the empty operator. *)
Inductive Operator : Type := OpNone | OpLt | OpLte | OpGt | OpGte.

(** A comparator; [semver = None] is the comparator [ANY]. *)
Record Comparator : Type := mkComparator {
  operator : Operator;
  semver : option SemVer
}.

Definition ANY : Comparator := mkComparator OpNone None.

Definition ver (M m p : N) (pre : list Identifier) : SemVer :=
  mkSemVer M m p pre [].

(** The prerelease [-0], the least version of its [M.m.p]. *)
Definition pre0 : list Identifier := [Numeric 0].

Definition GE (v : SemVer) : Comparator := mkComparator OpGte (Some v).
Definition LT (v : SemVer) : Comparator := mkComparator OpLt (Some v).

(** One component of a partial version: a number, or [x], [X], [*]. *)
Inductive XId : Type := X | Num (n : N).

Definition xrange_identifier (s : string) : option XId :=
  match s with
  | "x" | "X" | "*" => Some X
  | _ => Num <$> numeric_identifier s
  end.

(** A partial version [M(.m(.p(-pre)?(+build)?)?)?]; a component that is
    left out counts as [x]. *)
Record Partial : Type := mkPartial {
  pM : XId;
  pm : XId;
  pp : XId;
  ppre : list Identifier;
  pbuild : list string
}.

Definition parse_partial (s : string) : option Partial :=
  '(main, pre, bld) ← tails (strip_v s);
  match JS.split "." main, pre, bld with
  | [a], [], [] => M ← xrange_identifier a; Some (mkPartial M X X [] [])
  | [a; b], [], [] =>
      M ← xrange_identifier a;
      m ← xrange_identifier b;
      Some (mkPartial M m X [] [])
  | [a; b; c], _, _ =>
      M ← xrange_identifier a;
      m ← xrange_identifier b;
      p ← xrange_identifier c;
      Some (mkPartial M m p pre bld)
  | _, _, _ => None
  end.

(** [~1.2.3], [~1.2], [~1] *)
Definition replaceTilde (q : Partial) : list Comparator :=
  match pM q, pm q, pp q with
  | X, _, _ => [ANY]
  | Num M, X, _ => [GE (ver M 0 0 []); LT (ver (M + 1) 0 0 pre0)]
  | Num M, Num m, X => [GE (ver M m 0 []); LT (ver M (m + 1) 0 pre0)]
  | Num M, Num m, Num p =>
      [GE (ver M m p (ppre q)); LT (ver M (m + 1) 0 pre0)]
  end%N.

(** [^1.2.3], [^0.2.3], [^0.0.3], [^1.2], [^1] *)
Definition replaceCaret (q : Partial) : list Comparator :=
  match pM q, pm q, pp q with
  | X, _, _ => [ANY]
  | Num M, X, _ => [GE (ver M 0 0 []); LT (ver (M + 1) 0 0 pre0)]
  | Num M, Num m, X =>
      if (M =? 0)%N
      then [GE (ver M m 0 []); LT (ver M (m + 1) 0 pre0)]
      else [GE (ver M m 0 []); LT (ver (M + 1) 0 0 pre0)]
  | Num M, Num m, Num p =>
      if (M =? 0)%N
      then if (m =? 0)%N
           then [GE (ver M m p (ppre q)); LT (ver M m (p + 1) pre0)]
           else [GE (ver M m p (ppre q)); LT (ver M (m + 1) 0 pre0)]
      else [GE (ver M m p (ppre q)); LT (ver (M + 1) 0 0 pre0)]
  end%N.

(** The operator in front of a primitive or x-range comparator. *)
Inductive Gtlt : Type := GNone | GEq | GLt | GLte | GGt | GGte.

Definition operator_of (g : Gtlt) : Operator :=
  match g with
  | GNone | GEq => OpNone
  | GLt => OpLt
  | GLte => OpLte
  | GGt => OpGt
  | GGte => OpGte
  end.

Definition isX (x : XId) : bool := match x with X => true | Num _ => false end.
Definition num_or_0 (x : XId) : N := match x with X => 0%N | Num n => n end.

(** [1.2.x], [>1.2], [<=1], [*], and a full version with its operator. *)
Definition replaceXRange (g : Gtlt) (q : Partial) : list Comparator :=
  let xM := isX (pM q) in
  let xm := xM || isX (pm q) in
  let xp := xm || isX (pp q) in
  let g := match g with GEq => if xp then GNone else GEq | _ => g end in
  let M := num_or_0 (pM q) in
  let m := if xm then 0%N else num_or_0 (pm q) in
  if xM then
    match g with
    | GGt | GLt => [LT (ver 0 0 0 pre0)]
    | _ => [ANY]
    end
  else if xp then
    match g with
    | GGt => if xm then [GE (ver (M + 1) 0 0 [])] else [GE (ver M (m + 1) 0 [])]
    | GLte => if xm then [LT (ver (M + 1) 0 0 pre0)] else [LT (ver M (m + 1) 0 pre0)]
    | GLt => [LT (ver M m 0 pre0)]
    | GGte => [GE (ver M m 0 [])]
    | GNone | GEq =>
        if xm then [GE (ver M 0 0 []); LT (ver (M + 1) 0 0 pre0)]
        else [GE (ver M m 0 []); LT (ver M (m + 1) 0 pre0)]
    end%N
  else
    [mkComparator (operator_of g)
       (Some (mkSemVer M m (num_or_0 (pp q)) (ppre q) (pbuild q)))].

(** [>=0.0.0] accepts everything: it becomes [ANY]. *)
Definition replaceGTE0 (c : Comparator) : Comparator :=
  match c with
  | mkComparator OpGte (Some (mkSemVer 0%N 0%N 0%N [] [])) => ANY
  | _ => c
  end.

(** [from - to] *)
Definition hyphenReplace (from to : Partial) : list Comparator :=
  match pM from, pm from, pp from with
  | X, _, _ => []
  | Num M, X, _ => [GE (ver M 0 0 [])]
  | Num M, Num m, X => [GE (ver M m 0 [])]
  | Num M, Num m, Num p => [GE (mkSemVer M m p (ppre from) (pbuild from))]
  end ++
  match pM to, pm to, pp to with
  | X, _, _ => []
  | Num M, X, _ => [LT (ver (M + 1) 0 0 pre0)]
  | Num M, Num m, X => [LT (ver M (m + 1) 0 pre0)]
  | Num M, Num m, Num p =>
      [mkComparator OpLte (Some (mkSemVer M m p (ppre to) (pbuild to)))]
  end%N.

(** The sigil a comparator starts with, and the rest of it. *)
Inductive Sigil : Type := SCaret | STilde | SOp (g : Gtlt).

Definition sigil (tok : string) : Sigil * string :=
  match tok with
  | String "^" r => (SCaret, r)
  | String "~" (String ">" r) => (STilde, r)
  | String "~" r => (STilde, r)
  | String ">" (String "=" r) => (SOp GGte, r)
  | String "<" (String "=" r) => (SOp GLte, r)
  | String ">" r => (SOp GGt, r)
  | String "<" r => (SOp GLt, r)
  | String "=" r => (SOp GEq, r)
  | _ => (SOp GNone, tok)
  end.

(** The plain comparators a comparator with its sigil stands for. *)
Definition desugar (sg : Sigil) (q : Partial) : list Comparator :=
  replaceGTE0 <$>
    match sg with
    | SCaret => replaceCaret q
    | STilde => replaceTilde q
    | SOp g => replaceXRange g q
    end.

Definition parseComparator (tok : string) : option (list Comparator) :=
  let '(sg, rest) := sigil tok in
  q ← parse_partial rest;
  Some (desugar sg q).

(** An operator separated from its version by white space is joined to it
    ([> 1.2.3] is [>1.2.3]). *)
Fixpoint joinOperators (toks : list string) : list string :=
  match toks with
  | t :: ((u :: rest') as rest) =>
      match sigil t with
      | (_, EmptyString) =>
          match t with
          | EmptyString => t :: joinOperators rest
          | _ => (t +:+ u) :: joinOperators rest'
          end
      | _ => t :: joinOperators rest
      end
  | _ => toks
  end.

(** [comp.value]: the operator followed by the version. *)
Definition value (c : Comparator) : string :=
  match semver c with
  | None => ""
  | Some v =>
      match operator c with
      | OpNone => ""
      | OpLt => "<"
      | OpLte => "<="
      | OpGt => ">"
      | OpGte => ">="
      end +:+ format v
  end.

(** [comp.value === '<0.0.0-0'] *)
Definition isNullSet (c : Comparator) : bool :=
  bool_decide (value c = "<0.0.0-0").

(** [rangeMap.set(key, comp)]: a key that is there keeps its place. *)
Fixpoint rangeMapSet (key : string) (comp : Comparator)
    (rangeMap : list (string * Comparator)) : list (string * Comparator) :=
  match rangeMap with
  | [] => [(key, comp)]
  | (k, c) :: rest =>
      if decide (k = key) then (key, comp) :: rest
      else (k, c) :: rangeMapSet key comp rest
  end.

(** The comparators of one alternative as [new Comparator] takes them, each
    with a version within bounds: a null set stands alone, a comparator is
    kept once, and [ANY] is dropped beside other comparators. *)
Definition comparatorSet (comparators : list Comparator)
  : option (list Comparator) :=
  if forallb (fun c => from_option safe true (semver c)) comparators then
    match List.find isNullSet comparators with
    | Some comp => Some [comp]
    | None =>
        let rangeMap :=
          fold_left (fun m comp => rangeMapSet (value comp) comp m)
            comparators [] in
        let rangeMap :=
          if (1 <? length rangeMap)%nat
          then List.filter (fun kc => negb (bool_decide (fst kc = ""))) rangeMap
          else rangeMap in
        Some (snd <$> rangeMap)
    end
  else None.

(** One alternative of a range: a hyphen range, or a conjunction of
    comparators; the empty string accepts everything. *)
Definition parseRange (r : string) : option (list Comparator) :=
  match JS.words r with
  | [] => Some [ANY]
  | [a; "-"; b] =>
      from ← parse_partial a;
      to ← parse_partial b;
      match replaceGTE0 <$> hyphenReplace from to with
      | [] => Some [ANY]
      | cs => comparatorSet cs
      end
  | toks =>
      mapM parseComparator (joinOperators toks)
      ≫= fun cs => comparatorSet (@concat Comparator cs)
  end.

(** [s.split('||')] *)
Fixpoint splitBars (s : string) : list string :=
  match s with
  | EmptyString => [EmptyString]
  | String "|" (String "|" s') => EmptyString :: splitBars s'
  | String c s' =>
      match splitBars s' with
      | h :: t => String c h :: t
      | [] => [String c EmptyString]
      end
  end.

(** [c.length === 1 && isAny(c[0])] *)
Definition isAnySet (c : list Comparator) : bool :=
  match c with
  | [comp] => bool_decide (value comp = "")
  | _ => false
  end.

(** [new Range(range)], [None] where the constructor throws. Of several
    alternatives the null sets are thrown out (the first one is kept if all
    are), and if an alternative is [*] the range is just [*]. *)
Definition parseRangeSet (range : string) : option (list (list Comparator)) :=
  set ← mapM parseRange (splitBars (JS.trim range));
  match set with
  | first :: _ :: _ =>
      match List.filter (fun c => negb (from_option isNullSet false (head c))) set with
      | [] => Some [first]
      | [c] => Some [c]
      | set' =>
          match List.find isAnySet set' with
          | Some c => Some [c]
          | None => Some set'
          end
      end
  | _ => Some set
  end.

(** [comparator.test(version)] *)
Definition test (c : Comparator) (v : SemVer) : bool :=
  match semver c with
  | None => true
  | Some s =>
      match operator c with
      | OpNone => eq v s
      | OpLt => lt v s
      | OpLte => lte v s
      | OpGt => gt v s
      | OpGte => gte v s
      end
  end.

(** A prerelease version is accepted only if some comparator names a
    prerelease of the same [M.m.p]. *)
Definition allowsPrerelease (v : SemVer) (c : Comparator) : bool :=
  match semver c with
  | Some s =>
      match prerelease s with
      | [] => false
      | _ => (major s =? major v)%N && (minor s =? minor v)%N
             && (patch s =? patch v)%N
      end
  | None => false
  end.

Definition testSet (set : list Comparator) (v : SemVer) : bool :=
  forallb (fun c => test c v) set
  && match prerelease v with
     | [] => true
     | _ => existsb (allowsPrerelease v) set
     end.

(** [range.test(version)] *)
Definition satisfiesSets (v : SemVer) (sets : list (list Comparator)) : bool :=
  existsb (fun set => testSet set v) sets.

(** In [outside], [ANY] stands for [>=0.0.0]. *)
Definition anyAsGTE0 (c : Comparator) : Comparator * SemVer :=
  match semver c with
  | None => (GE (ver 0 0 0 []), ver 0 0 0 [])
  | Some s => (c, s)
  end.

(** The comparators of a set with the greatest and the least version. *)
Definition highLow (set : list Comparator)
  : option ((Comparator * SemVer) * (Comparator * SemVer)) :=
  match anyAsGTE0 <$> set with
  | [] => None
  | c :: cs =>
      Some (fold_left
              (fun '(high, low) c =>
                 if gt (snd c) (snd high) then (c, low)
                 else if lt (snd c) (snd low) then (high, c)
                 else (high, low))
              cs (c, c))
  end.

(** Whether [v] may still lie within or below the comparator set. *)
Definition notAbove (v : SemVer) (set : list Comparator) : bool :=
  match highLow set with
  | None => false
  | Some (high, low) =>
      match operator (fst high) with
      | OpGt | OpGte => true
      | _ =>
          match operator (fst low) with
          | OpNone | OpGt => lte v (snd low)
          | OpGte => lt v (snd low)
          | _ => false
          end
      end
  end.

(** [outside(version, range, '>')] on parsed arguments. *)
Definition outsideGt (v : SemVer) (sets : list (list Comparator)) : bool :=
  if satisfiesSets v sets then false
  else negb (existsb (notAbove v) sets).

#[export] Instance lib : SemverLib := {
  valid v := format <$> parse v;
  gtr v range :=
    match parse v with
    | None => Throw (TypeError ("Invalid Version: " +:+ v))
    | Some sv =>
        match parseRangeSet range with
        | None => Throw (TypeError ("Invalid SemVer Range: " +:+ range))
        | Some sets => Normal (outsideGt sv sets)
        end
    end;
  clean v :=
    let fix strip (s : string) : string :=
      match s with
      | String "=" s' | String "v" s' => strip s'
      | _ => s
      end in
    format <$> parse (strip (JS.trim v))
}.

End NodeSemver.

(** ** The version classifier *)

Inductive VersionCheckResult : Type :=
  | latest
  | outdated
  | not_found
  | invalid_version
  | not_fixed.

Record VersionCheckSummaryItem : Type := mkItem {
  packageName : string;
  currentVersion : option string;
  latestVersion : option string;
  checkResult : VersionCheckResult
}.

(** [checkVersion(pkgName, curVer, latestVer)]. The only call that can throw
    is [semver.gtr], and it sits in the [try] block. *)
Definition checkVersion `{SemverLib} (pkgName : string)
    (curVer latestVer : option string) : Completion VersionCheckResult :=
  match JS.truthy curVer with
  | None => Normal invalid_version
  | Some curVer =>
      match JS.truthy latestVer with
      | None => Normal not_found
      | Some latestVer =>
          match JS.truthy (valid latestVer) with
          | None => Normal invalid_version
          | Some latestVerValid =>
              match gtr latestVerValid curVer with
              | Throw _ => Normal invalid_version
              | Normal greater =>
                  if greater then Normal outdated
                  else if JS.falsy (valid curVer) then Normal not_fixed
                  else Normal latest
              end
          end
      end
  end.

(** [decomposePackageNameVersion(pkgStr)]: name and version around the last
    [@], unless that [@] is missing or is the first character. *)
Definition decomposePackageNameVersion (pkgStr : string) : string * string :=
  let index := JS.lastIndexOf "@" pkgStr in
  if index <=? 0 then (pkgStr, "")
  else (JS.slice_to (Z.to_nat index) pkgStr,
        JS.slice_from (Z.to_nat (index + 1)) pkgStr).

(** ** The world the resolvers run in *)

(** An outbound network call. *)
Inductive Request : Type :=
  | Fetch (url : string)
  | GetLatestRelease (owner repo : option string).

(** What [fetch] resolves to: [res.ok] together with the metadata field the
    resolver reads from the JSON body (reading may throw, and the field may
    be [undefined]), or a response that is not [ok]. *)
Inductive HttpResponse : Type :=
  | ResOk (field : Completion (option string))
  | ResNotOk (status : Z).

(** The network is outside the program: an answer may depend on the address
    and on the calls made so far. [fetch] throws on a transport fault only;
    the Octokit client throws a [RequestError] on every status that is not a
    success, and otherwise yields the release's [tag_name]. *)
Class Network : Type := {
  fetch : list Request -> string -> Completion HttpResponse;
  getLatestRelease :
    list Request -> option string -> option string -> Completion (option string)
}.

(** The fields of a [URL] object the resolvers read. *)
Record URL : Type := mkURL {
  hostname : string;
  pathname : string
}.

(** [new URL(s)]: [None] where the constructor throws. *)
Class URLLib : Type := {
  parseURL : string -> option URL
}.

Inductive CacheId : Type := npmDepsCache | denoLandDepsCache | gitHubDepsCache.

Record World : Type := mkWorld {
  npmCache : gmap string (option string);
  denoLandCache : gmap string (option string);
  gitHubCache : gmap string (option string);
  requests : list Request
}.

Definition initialWorld : World := mkWorld ∅ ∅ ∅ [].

Definition cacheOf (c : CacheId) (w : World) : gmap string (option string) :=
  match c with
  | npmDepsCache => npmCache w
  | denoLandDepsCache => denoLandCache w
  | gitHubDepsCache => gitHubCache w
  end.

Definition withCache (c : CacheId) (m : gmap string (option string))
    (w : World) : World :=
  match c with
  | npmDepsCache => mkWorld m (denoLandCache w) (gitHubCache w) (requests w)
  | denoLandDepsCache => mkWorld (npmCache w) m (gitHubCache w) (requests w)
  | gitHubDepsCache => mkWorld (npmCache w) (denoLandCache w) m (requests w)
  end.

Definition withRequest (r : Request) (w : World) : World :=
  mkWorld (npmCache w) (denoLandCache w) (gitHubCache w) (requests w ++ [r]).

(** Computations: they read and write the world and return or throw. What
    was written before a throw stays written. *)
Definition M (A : Type) : Type := World -> Completion A * World.

#[export] Instance M_ret : MRet M := fun A a w => (Normal a, w).

#[export] Instance M_bind : MBind M := fun A B f m w =>
  match m w with
  | (Normal a, w') => f a w'
  | (Throw e, w') => (Throw e, w')
  end.

Definition throw {A : Type} (e : Exn) : M A := fun w => (Throw e, w).

Definition liftC {A : Type} (c : Completion A) : M A := fun w => (c, w).

(** [cache.get(key)] *)
Definition cacheGet (c : CacheId) (key : string) : M (option (option string)) :=
  fun w => (Normal (cacheOf c w !! key), w).

(** [cache.set(key, value)] *)
Definition cacheSet (c : CacheId) (key : string) (value : option string) : M unit :=
  fun w => (Normal tt, withCache c (<[key := value]> (cacheOf c w)) w).

(** [await fetch(url)] *)
Definition doFetch `{Network} (url : string) : M HttpResponse :=
  fun w => (fetch (requests w) url, withRequest (Fetch url) w).

(** [await octokit.rest.repos.getLatestRelease({owner, repo})], giving
    [data.tag_name]. *)
Definition doGetLatestRelease `{Network} (owner repo : option string)
  : M (option string) :=
  fun w => (getLatestRelease (requests w) owner repo,
            withRequest (GetLatestRelease owner repo) w).

(** ** Resolvers *)

Definition VersionPair : Type := option string * option string.

Definition Resolver : Type := string -> M VersionPair.

(** [typeof cachedVersion === 'string'] *)
Definition cachedString (cachedVersion : option (option string)) : option string :=
  match cachedVersion with
  | Some (Some v) => Some v
  | _ => None
  end.

Definition createNpmResolver `{Network} : Resolver := fun pkgName =>
  cachedVersion ← cacheGet npmDepsCache pkgName;
  match cachedString cachedVersion with
  | Some cachedVersion => mret (None, Some cachedVersion)
  | None =>
      res ← doFetch ("https://registry.npmjs.org/" +:+ pkgName);
      match res with
      | ResNotOk _ =>
          _ ← cacheSet npmDepsCache pkgName None;
          mret (None, None)
      | ResOk field =>
          version ← liftC field;
          _ ← cacheSet npmDepsCache pkgName version;
          mret (None, version)
      end
  end.

Definition npmResolver `{Network} : Resolver := createNpmResolver.

(** [url.pathname.split('/').slice(1)] *)
Definition pathOf (url : URL) : list string :=
  drop 1 (JS.split "/" (pathname url)).

Definition resolveDenoLand `{Network} (url : URL) : M VersionPair :=
  let path := pathOf url in
  let pkgStr := if decide (path !! 0%nat = Some "x") then path !! 1%nat
                else path !! 0%nat in
  match pkgStr with
  | None => throw (TypeError "Cannot read properties of undefined")
  | Some pkgStr =>
      let '(pkgName, pkgVersion) := decomposePackageNameVersion pkgStr in
      cachedVersion ← cacheGet denoLandDepsCache pkgName;
      match cachedString cachedVersion with
      | Some cachedVersion => mret (Some pkgVersion, Some cachedVersion)
      | None =>
          res ← doFetch ("https://apiland.deno.dev/v2/modules/" +:+ pkgName);
          match res with
          | ResNotOk _ =>
              _ ← cacheSet denoLandDepsCache pkgName None;
              mret (Some pkgVersion, None)
          | ResOk field =>
              latestVersion ← liftC field;
              _ ← cacheSet denoLandDepsCache pkgName latestVersion;
              mret (Some pkgVersion, latestVersion)
          end
      end
  end.

Definition resolveGitHub `{SemverLib} `{Network} (url : URL) : M VersionPair :=
  let path := pathOf url in
  let pkgName := JS.template (path !! 0%nat) +:+ "/" +:+ JS.template (path !! 1%nat) in
  let pkgVersion := path !! 2%nat in
  cachedVersion ← cacheGet gitHubDepsCache pkgName;
  match cachedString cachedVersion with
  | Some cachedVersion => mret (pkgVersion, Some cachedVersion)
  | None =>
      tag_name ← doGetLatestRelease (path !! 0%nat) (path !! 1%nat);
      let latestVersion := clean (default "" tag_name) in
      _ ← cacheSet gitHubDepsCache pkgName latestVersion;
      mret (pkgVersion, latestVersion)
  end.

Definition createDenoURLResolver `{SemverLib} `{Network} `{URLLib} : Resolver :=
  fun url_ =>
  if JS.startsWith url_ "npm:" then
    let '(pkgName, pkgVersion) := decomposePackageNameVersion (JS.slice_from 4 url_) in
    '(_, latestVersion) ← npmResolver pkgName;
    mret (Some pkgVersion, latestVersion)
  else
    match parseURL url_ with
    | None => mret (None, None)
    | Some url =>
        if decide (hostname url = "deno.land") then resolveDenoLand url
        else if decide (hostname url = "raw.githubusercontent.com")
             then resolveGitHub url
        else mret (None, None)
    end.

(** ** Scan entry points *)

(** A [Record<string, string>]: its own entries as [Object.keys] lists them. *)
Definition JSRecord : Type := list (string * string).

Definition keys (r : JSRecord) : list string := fst <$> r.

(** [r[key]] *)
Fixpoint get (key : string) (r : JSRecord) : option string :=
  match r with
  | [] => None
  | (k, v) :: r' => if decide (k = key) then Some v else get key r'
  end.

(** [for (const x of xs) { summary.push(await body(x)) }  return summary] *)
Fixpoint forEachPush {A B : Type} (body : A -> M B) (xs : list A)
    (summary : list B) : M (list B) :=
  match xs with
  | [] => mret summary
  | x :: xs' =>
      item ← body x;
      forEachPush body xs' (summary ++ [item])
  end.

Definition checkDepsRecord `{SemverLib} (packages : JSRecord)
    (resolver : Resolver) : M (list VersionCheckSummaryItem) :=
  forEachPush
    (fun pkgName =>
       let curVer := get pkgName packages in
       '(_, latestVer) ← resolver pkgName;
       checkResult ← liftC (checkVersion pkgName curVer latestVer);
       mret (mkItem pkgName curVer latestVer checkResult))
    (keys packages) [].

(** An import map: only its [imports] field is read. *)
Record ImportMap : Type := mkImportMap {
  imports : JSRecord
}.

(** Every key that [Object.keys] lists has a value, so the first branch of
    the [match] is never taken. *)
Definition checkDepsImportMap `{SemverLib} (packages : ImportMap)
    (resolver : Resolver) : M (list VersionCheckSummaryItem) :=
  forEachPush
    (fun pkgName =>
       match get pkgName (imports packages) with
       | None => throw (TypeError "resource is undefined")
       | Some url =>
           '(curVer, latestVer) ← resolver url;
           checkResult ← liftC (checkVersion pkgName curVer latestVer);
           mret (mkItem pkgName curVer latestVer checkResult)
       end)
    (keys (imports packages)) [].

(** *** The order of the keys

    [Object.keys] lists the own keys of an object in the order the language
    fixes: first the keys that are array indices, in ascending numeric
    order, then the other keys in the order in which they were created. *)

(** An array index: the canonical decimal form of an integer below
    [2^32 - 1]. *)
Definition arrayIndex (key : string) : option N :=
  n ← NodeSemver.numeric_identifier key;
  if (n <? 2 ^ 32 - 1)%N then Some n else None.

(** [o[key] = value] on the properties of [o] in the order of their
    creation: a key that is there keeps its place. *)
Fixpoint defineProperty (key value : string) (props : list (string * string))
  : list (string * string) :=
  match props with
  | [] => [(key, value)]
  | (k, v) :: rest =>
      if decide (k = key) then (key, value) :: rest
      else (k, v) :: defineProperty key value rest
  end.

(** The properties, in the order of their creation, of the object that
    [JSON.parse] builds from the members of a JSON object as they are
    written. *)
Definition created (members : list (string * string)) : list (string * string) :=
  fold_left (fun props m => defineProperty (fst m) (snd m) props) members [].

(** A property with its array index, put in its place among properties in
    ascending order of index. *)
Fixpoint insertByIndex (e : N * (string * string))
    (sorted : list (N * (string * string))) : list (N * (string * string)) :=
  match sorted with
  | [] => [e]
  | e' :: rest =>
      if (fst e <=? fst e')%N then e :: sorted
      else e' :: insertByIndex e rest
  end.

Definition indexed (e : string * string) : option (N * (string * string)) :=
  n ← arrayIndex (fst e); Some (n, e).

(** The record of the object that [JSON.parse] builds from [members]. *)
Definition parsedRecord (members : list (string * string)) : JSRecord :=
  let props := created members in
  ((snd <$> foldr insertByIndex [] (omap indexed props))
   ++ filter (fun e => arrayIndex (fst e) = None) props)%list.

(** *** Quoted URLs in free text

    The text is a sequence of 8-bit characters; the patterns only name ASCII
    characters, and no other character belongs to their class. *)

(** [\w] *)
Definition word_char (c : ascii) : bool :=
  NodeSemver.is_digit c || NodeSemver.is_letter c || Ascii.eqb c "_".

(** The class [[\w/:%#\$&\?\(\)~\.=\+\-@]]. *)
Definition url_char (c : ascii) : bool :=
  word_char c
  || existsb (Ascii.eqb c)
       ["/"; ":"; "%"; "#"; "$"; "&"; "?"; "("; ")"; "~"; "."; "="; "+"; "-"; "@"]%char.

(** The longest prefix of [s] made of characters of the class. *)
Fixpoint url_chars (s : string) : string :=
  match s with
  | String c s' => if url_char c then String c (url_chars s') else EmptyString
  | EmptyString => EmptyString
  end.

(** [s] without the prefix [p], if it starts with [p]. *)
Fixpoint after (p s : string) : option string :=
  match p, s with
  | EmptyString, _ => Some s
  | String a p', String b s' => if Ascii.eqb a b then after p' s' else None
  | String _ _, EmptyString => None
  end.

(** The text [q https?:// [class]+ q] matched at the start of [s]. No quote
    is in the class and the optional letter is not a colon, so the greedy
    [?] and [+] never have to give anything back. *)
Definition matchHere (q : ascii) (s : string) : option string :=
  r0 ← after (String q "http") s;
  let r1 := match r0 with String "s" r => r | _ => r0 end in
  r2 ← after "://" r1;
  let body := url_chars r2 in
  match body, after body r2 with
  | String _ _, Some (String c _) =>
      if Ascii.eqb c q
      then Some (JS.slice_to (String.length s - String.length r2
                              + String.length body + 1) s)
      else None
  | _, _ => None
  end.

(** [text.matchAll(re)] for a global [re]: matches are searched from left to
    right and the search resumes behind each match. [skip] characters are
    still covered by the last match; each match comes with its [index]. *)
Fixpoint matchAllFrom (q : ascii) (skip index : nat) (s : string)
  : list (nat * string) :=
  match s with
  | EmptyString => []
  | String _ s' =>
      match skip with
      | S k => matchAllFrom q k (S index) s'
      | O =>
          match matchHere q s with
          | Some m => (index, m) :: matchAllFrom q (String.length m - 1) (S index) s'
          | None => matchAllFrom q O (S index) s'
          end
      end
  end.

Definition matchAll (q : ascii) (text : string) : list (nat * string) :=
  matchAllFrom q 0 0 text.

(** [[...text.matchAll(urlRegExp1), ...text.matchAll(urlRegExp2),
      ...text.matchAll(urlRegExp3)]] *)
Definition urlMatches (text : string) : list (nat * string) :=
  matchAll "034" text ++ matchAll "'" text ++ matchAll "`" text.

(** The URLs handed to the resolver: [match[0].slice(1, -1)]. *)
Definition extractURLs (text : string) : list string :=
  (fun m => JS.slice_1_m1 (snd m)) <$> urlMatches text.

Definition checkURLStringsEsInText `{SemverLib} (text : string)
    (resolver : Resolver) : M (list VersionCheckSummaryItem) :=
  forEachPush
    (fun url =>
       '(curVer, latestVer) ← resolver url;
       checkResult ← liftC (checkVersion url curVer latestVer);
       mret (mkItem url curVer latestVer checkResult))
    (extractURLs text) [].

(** ** [util.ts] *)

(** A [Map<K, V>]: its entries in insertion order, no key twice. *)
Definition JSMap (K V : Type) : Type := list (K * V).

(** [map.get(key)] *)
Fixpoint mapGet {K V : Type} `{EqDecision K} (key : K) (m : JSMap K V)
  : option V :=
  match m with
  | [] => None
  | (k, v) :: m' => if decide (k = key) then Some v else mapGet key m'
  end.

(** [map.set(key, value)]: a key that is in the map keeps its place, a new
    key goes to the end. *)
Fixpoint mapSet {K V : Type} `{EqDecision K} (key : K) (value : V)
    (m : JSMap K V) : JSMap K V :=
  match m with
  | [] => [(key, value)]
  | (k, v) :: m' =>
      if decide (k = key) then (k, value) :: m' else (k, v) :: mapSet key value m'
  end.

(** [classifyBy(items, classifyFunc)]. The array that [map.get] returns is
    the one held by the map, so [arr.push(item)] makes the entry of the map
    grow. *)
Definition classifyBy {T S : Type} `{EqDecision S} (items : list T)
    (classifyFunc : T -> S) : JSMap S (list T) :=
  fold_left
    (fun map item =>
       let _class := classifyFunc item in
       match mapGet _class map with
       | Some arr => mapSet _class (arr ++ [item])%list map
       | None => mapSet _class [item] map
       end)
    items [].

(** The escape character [\x1b]. *)
Definition esc : ascii := "027"%char.

(** The longest prefix of [s] made of digits, and what follows it. *)
Fixpoint spanDigits (s : string) : string * string :=
  match s with
  | String c s' =>
      if NodeSemver.is_digit c
      then let '(d, r) := spanDigits s' in (String c d, r)
      else (EmptyString, s)
  | EmptyString => (EmptyString, EmptyString)
  end.

(** The length of the text that [\x1b\[\d+(;\d+)?m] matches at the start of
    [s]. A run of digits is followed by [;] or [m] or the match fails, so
    the greedy [+] and [?] never have to give anything back. *)
Definition matchAnsi (s : string) : option nat :=
  r0 ← after (String esc "[") s;
  let '(d1, r1) := spanDigits r0 in
  match d1, r1 with
  | String _ _, String "m" _ => Some (2 + String.length d1 + 1)%nat
  | String _ _, String ";" r2 =>
      let '(d2, r3) := spanDigits r2 in
      match d2, r3 with
      | String _ _, String "m" _ =>
          Some (2 + String.length d1 + 1 + String.length d2 + 1)%nat
      | _, _ => None
      end
  | _, _ => None
  end.

(** [text.replace(ansiControlSeqRegExp, '')]: matches are searched from left
    to right, the search resumes behind each match, and [skip] characters
    are still covered by the last match. *)
Fixpoint stripAnsiFrom (skip : nat) (s : string) : string :=
  match s with
  | EmptyString => EmptyString
  | String c s' =>
      match skip with
      | S k => stripAnsiFrom k s'
      | O =>
          match matchAnsi s with
          | Some n => stripAnsiFrom (n - 1) s'
          | None => String c (stripAnsiFrom 0 s')
          end
      end
  end.

Definition stripAnsi (text : string) : string := stripAnsiFrom 0 text.

Definition printableLength (text : string) : nat :=
  String.length (stripAnsi text).

(** [' '.repeat(n)] *)
Fixpoint spaces (n : nat) : string :=
  match n with
  | O => EmptyString
  | S n' => String " " (spaces n')
  end.

(** [padToLength(text, length)] for a length that is not negative. *)
Definition padToLength (text : string) (length : nat) : string :=
  JS.slice_to length (text +:+ spaces length).

(** [prev > cur ? prev : cur] *)
Definition keepGreater (prev cur : nat) : nat :=
  if (cur <? prev)%nat then prev else cur.

(** The locals of [renderTable(cells)], one definition each. *)
Definition columnsOf (cells : list (list string)) : nat :=
  fold_left keepGreater (length <$> cells) 0%nat.

(** Each row filled up with empty cells: [row[i] ?? ''] for every column. *)
Definition tableCellsOf (cells : list (list string)) : list (list string) :=
  (fun row : list string =>
     (fun i => default EmptyString (row !! i)) <$> seq 0 (columnsOf cells))
    <$> cells.

Definition cellLengthsOf (cells : list (list string)) : list (list nat) :=
  (fun row : list string => printableLength <$> row) <$> tableCellsOf cells.

(** Every row of [cellLengths] has an entry for every column, so [row[i]]
    is always a number. *)
Definition maxCellWidthsOf (cells : list (list string)) : list nat :=
  (fun i => fold_left (fun prev (row : list nat) => keepGreater prev (nth i row 0%nat))
              (cellLengthsOf cells) 0%nat)
    <$> seq 0 (columnsOf cells).

(** The rows of padded cells, before they are joined. *)
Definition paddedRows (cells : list (list string)) : list (list string) :=
  (fun row : list string =>
     imap (fun i cell => padToLength cell (nth i (maxCellWidthsOf cells) 0%nat)) row)
    <$> tableCellsOf cells.

(** The lines of the table, before they are joined. *)
Definition renderLines (cells : list (list string)) : list string :=
  JS.join " " <$> paddedRows cells.

Definition renderTable (cells : list (list string)) : string :=
  JS.join (String "010" EmptyString) (renderLines cells).

(** ** [main.ts]: the summary of a run

    What is printed is modelled by the values that go into it: the counts of
    the line of totals, the table and its rendering, and whether the warning
    about versions that are not fixed follows. *)

#[export] Instance VersionCheckResult_eq_dec : EqDecision VersionCheckResult.
Proof. solve_decision. Defined.

(** [summary.some((item) => item.checkResult !== 'latest')] *)
Definition needsFix (summary : list VersionCheckSummaryItem) : bool :=
  existsb (fun item => negb (bool_decide (checkResult item = latest))) summary.

Definition repoNumNeedFix
    (summaries : list (string * list VersionCheckSummaryItem)) : nat :=
  length (List.filter (fun s => needsFix (snd s)) summaries).

(** [`\x1b[${params}m${text}\x1b[0m`] *)
Definition sgr (params text : string) : string :=
  String esc ("[" +:+ params +:+ "m" +:+ text +:+ String esc "[0m").

(** A row of the table: the label and the three fields of the item. *)
Definition depRow (label : string) (dep : VersionCheckSummaryItem) : list string :=
  [label; packageName dep;
   default "null" (currentVersion dep); default "null" (latestVersion dep)].

Record RepoReport : Type := mkRepoReport {
  totalCount : nat;
  latestCount : nat;
  outdatedCount : nat;
  notFoundCount : nat;
  invalidVersionCount : nat;
  notFixedCount : nat;
  table : list (list string);
  renderedTable : string;
  notFixedWarning : bool
}.

(** One turn of the loop over [summaries]: [None] where the loop goes on to
    the next repository without printing. *)
Definition reportRepo (summary : list VersionCheckSummaryItem)
  : option RepoReport :=
  let classified := classifyBy summary checkResult in
  let latestDeps := default [] (mapGet latest classified) in
  let outdatedDeps := default [] (mapGet outdated classified) in
  let notFoundDeps := default [] (mapGet not_found classified) in
  let invalidVersionDeps := default [] (mapGet invalid_version classified) in
  let notFixedDeps := default [] (mapGet not_fixed classified) in
  if (length latestDeps =? length summary)%nat then None
  else
    let table :=
      ([sgr "30;41" EmptyString; "Package"; "Current"; "Latest"]
       :: (depRow (sgr "30;41" " Outdated ") <$> outdatedDeps)
       ++ (depRow (sgr "30;41" " Not found ") <$> notFoundDeps)
       ++ (depRow (sgr "30;43" " Invalid Version ") <$> invalidVersionDeps)
       ++ (depRow (sgr "30;43" " Not Fixed ") <$> notFixedDeps))%list in
    Some (mkRepoReport (length summary) (length latestDeps) (length outdatedDeps)
            (length notFoundDeps) (length invalidVersionDeps) (length notFixedDeps)
            table (renderTable table) (0 <? length notFixedDeps)%nat).

(** ** What the classifier needs from the library

    Three facts about [semver] that the statements below rely on: a canonical
    version is never the empty string, the empty string is not a version,
    and the empty range is [*], so that no version lies above it. *)
Class SemverLaws (lib : SemverLib) : Prop := {
  valid_nonempty : forall s v, valid s = Some v -> v <> EmptyString;
  valid_empty : valid EmptyString = None;
  gtr_empty_range : forall v, gtr v EmptyString <> Normal true
}.

(** ** Specification vocabulary *)

(** [m] is a URL between two quotes [q]: [q], [http] or [https], [://], one
    or more characters of the class, [q]. *)
Definition quotedURL (q : ascii) (m : string) : Prop :=
  exists scheme body,
    m = String q (scheme +:+ "://" +:+ body +:+ String q EmptyString)
    /\ (scheme = "http" \/ scheme = "https")
    /\ body <> EmptyString
    /\ NodeSemver.all_chars url_char body = true.

(** [m] occurs in [text] at [index]. *)
Definition occursAt (text : string) (index : nat) (m : string) : Prop :=
  exists pre post, text = pre +:+ m +:+ post /\ String.length pre = index.

(** [c] occurs in [s]. *)
Fixpoint occurs (c : ascii) (s : string) : bool :=
  match s with
  | EmptyString => false
  | String a s' => Ascii.eqb a c || occurs c s'
  end.

(** [v] is greater than every version the range accepts. *)
Definition aboveAll (v : NodeSemver.SemVer)
    (sets : list (list NodeSemver.Comparator)) : Prop :=
  forall w, NodeSemver.satisfiesSets w sets = true -> NodeSemver.gt v w = true.

(** [M.m.p] of [x] comes before [M.m.p] of [y]. *)
Definition mainLt (x y : NodeSemver.SemVer) : Prop :=
  (NodeSemver.major x < NodeSemver.major y
   \/ (NodeSemver.major x = NodeSemver.major y
       /\ (NodeSemver.minor x < NodeSemver.minor y
           \/ (NodeSemver.minor x = NodeSemver.minor y
               /\ NodeSemver.patch x < NodeSemver.patch y))))%N.

(** A caret or tilde range, an x-range, or a version, with no prerelease
    tag: a sigil [^], [~] or none (or [=]) in front of a partial version
    whose major component is a number. *)
Definition plainRange (sg : NodeSemver.Sigil) (q : NodeSemver.Partial) : Prop :=
  (sg = NodeSemver.SCaret \/ sg = NodeSemver.STilde
   \/ sg = NodeSemver.SOp NodeSemver.GNone \/ sg = NodeSemver.SOp NodeSemver.GEq)
  /\ NodeSemver.isX (NodeSemver.pM q) = false
  /\ NodeSemver.ppre q = [].

(** From [w] to [w']: at most one request went out, and every string that
    a cache held is still there. *)
Definition oneLookup (w w' : World) : Prop :=
  (requests w' = requests w \/ exists r, requests w' = (requests w ++ [r])%list)
  /\ forall c k v,
       cacheOf c w !! k = Some (Some v) -> cacheOf c w' !! k = Some (Some v).

(** The path [/x/<name>@<version><tail>] of a file of a module of
    [deno.land/x]. *)
Definition denoLandPath (name version tail : string) : string :=
  "/x/" +:+ name +:+ String "@" version +:+ tail.

(** A path segment followed by nothing or by a [/]. *)
Definition segmentEnd (tail : string) : Prop :=
  tail = EmptyString \/ exists t, tail = String "/" t.

(** A resolver that sends at most one request per call. *)
Definition atMostOneRequest (resolver : Resolver) : Prop :=
  forall x w r w',
    resolver x w = (r, w') ->
    (length (requests w') <= S (length (requests w)))%nat.

(** A run of one or more digits. *)
Definition digitRun (d : string) : Prop :=
  d <> EmptyString /\ NodeSemver.all_chars NodeSemver.is_digit d = true.

(** The parameters of a colour sequence as the pattern of [printableLength]
    knows them: one number, or two with a [;] between them. *)
Definition sgrParams (params : string) : Prop :=
  exists d1, digitRun d1
             /\ (params = d1 \/ exists d2, digitRun d2 /\ params = d1 +:+ ";" +:+ d2).

(** A resolver that never throws. *)
Definition neverThrows (resolver : Resolver) : Prop :=
  forall x w, exists p w', resolver x w = (Normal p, w').

(** ** Stand-ins for the outside world, to run the code on examples *)

(** A registry and a release feed that know no package. *)
Definition network404 : Network := {|
  fetch := fun _ _ => Normal (ResNotOk 404);
  getLatestRelease := fun _ _ _ => Throw (RequestError 404)
|}.

(** A registry whose every package is at version [v], released as [v] with
    a leading letter v. *)
Definition networkAt (v : string) : Network := {|
  fetch := fun _ _ => Normal (ResOk (Normal (Some v)));
  getLatestRelease := fun _ _ _ => Normal (Some (String "v" v))
|}.

(** A URL parser for addresses of the form [http(s)://host/path]; everything
    else is refused. Host and path are taken as they are written: the host is
    not put in lower case and no port, query or fragment is split off. *)
Definition simpleURL : URLLib := {|
  parseURL := fun s =>
    rest ← match after "https://" s with
           | Some r => Some r
           | None => after "http://" s
           end;
    let '(host, path) := NodeSemver.cut "/" rest in
    match host with
    | EmptyString => None
    | _ => Some (mkURL host (String "/" (default EmptyString path)))
    end
|}.

(** A resolver that answers every reference with the same pair and touches
    nothing. *)
Definition constResolver (p : VersionPair) : Resolver := fun _ => mret p.

(** Source texts to scan. [dq s] is [s] between two double quotes. *)
Definition dq (s : string) : string := String "034" (s +:+ String "034" EmptyString).

(** A double-quoted URL followed by a single-quoted one. *)
Definition importsText : string :=
  "import a from " +:+ dq "https://example.com/a/b"
  +:+ "; import c from 'https://example.com/c';".

(** The same two imports, the single-quoted one first. *)
Definition reversedText : string :=
  "import c from 'https://example.com/c'; import a from "
  +:+ dq "https://example.com/a/b" +:+ ";".

(** One URL imported twice. *)
Definition repeatedText : string :=
  "import " +:+ dq "https://example.com/a/b" +:+ "; import "
  +:+ dq "https://example.com/a/b" +:+ ";".

(** Two URLs that share a quote: the closing quote of the first opens the
    second. *)
Definition abuttingText : string :=
  dq "https://a.example/x" +:+ "https://b.example/y" +:+ String "034" EmptyString.

(** * Facts *)

(** ** JavaScript truthiness *)

Lemma truthy_nonempty (s : string) :
  s <> EmptyString -> JS.truthy (Some s) = Some s.
Proof. destruct s; [congruence | reflexivity]. Qed.

Lemma truthy_inv (x : option string) (s : string) :
  JS.truthy x = Some s -> x = Some s /\ s <> EmptyString.
Proof.
  destruct x as [[|c t]|]; simpl; intros E; try discriminate.
  injection E as <-. split; [reflexivity | discriminate].
Qed.

Lemma truthy_None (x : option string) :
  JS.truthy x = None <-> x = None \/ x = Some EmptyString.
Proof.
  destruct x as [[|c t]|]; simpl; split; intros E; auto; try discriminate.
  destruct E as [E|E]; discriminate.
Qed.

(** ** The model of the library obeys the three laws *)

Lemma format_nonempty (v : NodeSemver.SemVer) : NodeSemver.format v <> EmptyString.
Proof.
  unfold NodeSemver.format.
  destruct (pretty (NodeSemver.major v)); simpl; discriminate.
Qed.

#[export] Instance NodeSemver_laws : SemverLaws NodeSemver.lib.
Proof.
  split.
  - intros s v. simpl. destruct (NodeSemver.parse s) as [sv|]; simpl; [|discriminate].
    intros E. injection E as <-. apply format_nonempty.
  - reflexivity.
  - intros v. simpl. destruct (NodeSemver.parse v) as [sv|]; [|discriminate].
    change (NodeSemver.parseRangeSet EmptyString) with (Some [[NodeSemver.ANY]]).
    unfold NodeSemver.outsideGt.
    destruct (NodeSemver.satisfiesSets sv [[NodeSemver.ANY]]); [discriminate|].
    simpl. discriminate.
Qed.

(** ** The classifier *)

Section Classifier.

Context {lib : SemverLib}.

(** The decision of [checkVersion], path by path, for every library;
    the conditions are the ones the code tests. *)
Lemma checkVersion_cases (name : string) (cur lat : option string) :
  checkVersion name cur lat =
  Normal
    match JS.truthy cur, JS.truthy lat with
    | None, _ => invalid_version
    | Some _, None => not_found
    | Some c, Some l =>
        match JS.truthy (valid l) with
        | None => invalid_version
        | Some v =>
            match gtr v c with
            | Throw _ => invalid_version
            | Normal true => outdated
            | Normal false => if JS.falsy (valid c) then not_fixed else latest
            end
        end
    end.
Proof.
  unfold checkVersion.
  destruct (JS.truthy cur) as [c|]; [|reflexivity].
  destruct (JS.truthy lat) as [l|]; [|reflexivity].
  destruct (JS.truthy (valid l)) as [v|]; [|reflexivity].
  destruct (gtr v c) as [[|]|e]; try reflexivity.
  destruct (JS.falsy (valid c)); reflexivity.
Qed.

Lemma checkVersion_never_throws (name : string) (cur lat : option string) :
  exists r, checkVersion name cur lat = Normal r.
Proof. rewrite checkVersion_cases. eauto. Qed.

Lemma checkVersion_missing_current (name : string) (lat : option string) :
  checkVersion name None lat = Normal invalid_version.
Proof. reflexivity. Qed.

Lemma checkVersion_empty_current (name : string) (lat : option string) :
  checkVersion name (Some EmptyString) lat = Normal invalid_version.
Proof. reflexivity. Qed.

Lemma checkVersion_missing_latest (name cur : string) :
  cur <> EmptyString -> checkVersion name (Some cur) None = Normal not_found.
Proof.
  intros Hc. rewrite checkVersion_cases, (truthy_nonempty cur Hc). reflexivity.
Qed.

Context {laws : SemverLaws lib}.

Lemma truthy_valid (l v : string) :
  valid l = Some v -> JS.truthy (valid l) = Some v.
Proof.
  intros E. rewrite E. apply truthy_nonempty. eapply valid_nonempty, E.
Qed.

Lemma valid_some_nonempty (l v : string) : valid l = Some v -> l <> EmptyString.
Proof. intros E ->. rewrite valid_empty in E. discriminate. Qed.

Lemma falsy_valid (c : string) :
  JS.falsy (valid c) = match valid c with None => true | Some _ => false end.
Proof.
  unfold JS.falsy. destruct (valid c) as [v|] eqn:E; [|reflexivity].
  rewrite <- E, (truthy_valid c v E). reflexivity.
Qed.

(** The comparison is reached with a parsed latest version [v]. *)
Lemma checkVersion_compared (name c l v : string) :
  c <> EmptyString -> valid l = Some v ->
  checkVersion name (Some c) (Some l) =
  Normal match gtr v c with
         | Throw _ => invalid_version
         | Normal true => outdated
         | Normal false =>
             match valid c with None => not_fixed | Some _ => latest end
         end.
Proof.
  intros Hc Hv. rewrite checkVersion_cases.
  rewrite (truthy_nonempty c Hc), (truthy_nonempty l (valid_some_nonempty l v Hv)).
  rewrite (truthy_valid l v Hv), falsy_valid.
  destruct (gtr v c) as [[|]|]; try reflexivity.
  destruct (valid c); reflexivity.
Qed.

Lemma checkVersion_outdated_iff (name : string) (cur lat : option string) :
  checkVersion name cur lat = Normal outdated <->
  exists c l v,
    cur = Some c /\ lat = Some l /\ valid l = Some v /\ gtr v c = Normal true.
Proof.
  split.
  - rewrite checkVersion_cases.
    destruct (JS.truthy cur) as [c|] eqn:Ec; [|discriminate].
    destruct (JS.truthy lat) as [l|] eqn:El; [|discriminate].
    destruct (JS.truthy (valid l)) as [v|] eqn:Ev; [|discriminate].
    destruct (gtr v c) as [[|]|] eqn:Eg; try discriminate.
    + intros _. exists c, l, v.
      apply truthy_inv in Ec as [-> _]. apply truthy_inv in El as [-> _].
      apply truthy_inv in Ev as [-> _]. auto.
    + destruct (JS.falsy (valid c)); discriminate.
  - intros (c & l & v & -> & -> & Hv & Hg).
    assert (c <> EmptyString) as Hc.
    { intros ->. exact (gtr_empty_range v Hg). }
    rewrite (checkVersion_compared name c l v Hc Hv), Hg. reflexivity.
Qed.

End Classifier.

(** ** The model of the library: what [gtr] means on plain ranges *)

Module NodeSemverFacts.
Import NodeSemver.

Lemma compareMain_Lt (x y : SemVer) : compareMain x y = Lt <-> mainLt x y.
Proof.
  unfold compareMain, mainLt.
  destruct (N.compare_spec (major x) (major y));
    destruct (N.compare_spec (minor x) (minor y));
    destruct (N.compare_spec (patch x) (patch y));
    split; intros; try discriminate; try reflexivity; lia.
Qed.

Lemma compareMain_Gt (x y : SemVer) : compareMain x y = Gt <-> mainLt y x.
Proof.
  unfold compareMain, mainLt.
  destruct (N.compare_spec (major x) (major y));
    destruct (N.compare_spec (minor x) (minor y));
    destruct (N.compare_spec (patch x) (patch y));
    split; intros; try discriminate; try reflexivity; lia.
Qed.

Lemma compareMain_Eq (x y : SemVer) :
  compareMain x y = Eq <->
  major x = major y /\ minor x = minor y /\ patch x = patch y.
Proof.
  unfold compareMain.
  destruct (N.compare_spec (major x) (major y));
    destruct (N.compare_spec (minor x) (minor y));
    destruct (N.compare_spec (patch x) (patch y));
    split; intros; try discriminate; try reflexivity; lia.
Qed.

(** Between release versions only [M.m.p] counts. *)
Lemma compare_release (x y : SemVer) :
  prerelease x = [] -> prerelease y = [] -> compare x y = compareMain x y.
Proof.
  intros Hx Hy. unfold compare, comparePre. rewrite Hx, Hy.
  destruct (compareMain x y); reflexivity.
Qed.

Lemma gt_release (x y : SemVer) :
  prerelease x = [] -> prerelease y = [] -> gt x y = true <-> mainLt y x.
Proof.
  intros Hx Hy. unfold gt. rewrite (compare_release x y Hx Hy), <- compareMain_Gt.
  destruct (compareMain x y); split; congruence.
Qed.

Lemma lt_release (x y : SemVer) :
  prerelease x = [] -> prerelease y = [] -> lt x y = true <-> mainLt x y.
Proof.
  intros Hx Hy. unfold lt. rewrite (compare_release x y Hx Hy), <- compareMain_Lt.
  destruct (compareMain x y); split; congruence.
Qed.

(** Against the least prerelease [-0] of [b], a release version is below
    exactly when its [M.m.p] is, and a prerelease of the same [M.m.p] never
    is. *)
Lemma lt_release_pre0 (w b : SemVer) :
  prerelease w = [] -> prerelease b = pre0 -> lt w b = true <-> mainLt w b.
Proof.
  intros Hw Hb. unfold lt, compare, comparePre. rewrite Hw, Hb. unfold pre0.
  rewrite <- compareMain_Lt. destruct (compareMain w b); cbn; split; congruence.
Qed.

Lemma lt_pre0_same_main (w b : SemVer) :
  prerelease w <> [] -> prerelease b = pre0 ->
  compareMain w b = Eq -> lt w b = false.
Proof.
  intros Hw Hb Hm. unfold lt, compare, comparePre. rewrite Hm, Hb.
  destruct (prerelease w) as [|i pw]; [congruence|].
  unfold pre0. cbn [comparePreLists].
  destruct i as [n|s]; cbn [compareIdentifiers]; [|reflexivity].
  change (toNumber 0) with 0%N.
  destruct (N.compare_spec (toNumber n) 0) as [_| |]; [|lia|reflexivity].
  destruct pw; reflexivity.
Qed.

Lemma gt_pre0_release (b a : SemVer) :
  prerelease b = pre0 -> prerelease a = [] -> mainLt a b -> gt b a = true.
Proof.
  intros Hb Ha Hab. apply compareMain_Gt in Hab.
  unfold gt, compare. now rewrite Hab.
Qed.

(** [>=0.0.0] and the comparator [ANY] that replaces it. *)
Lemma replaceGTE0_GE (a : SemVer) :
  prerelease a = [] -> build a = [] ->
  (replaceGTE0 (GE a) = ANY /\ a = ver 0 0 0 [])
  \/ (replaceGTE0 (GE a) = GE a /\ a <> ver 0 0 0 []).
Proof.
  destruct a as [M m p pre bld]. cbn [prerelease build]. intros -> ->.
  destruct M, m, p; cbn; (left; split; reflexivity) || (right; split; [reflexivity | discriminate]).
Qed.

Lemma replaceGTE0_LT (b : SemVer) : replaceGTE0 (LT b) = LT b.
Proof. reflexivity. Qed.

Section Interval.

Variables a b : SemVer.
Hypothesis a_release : prerelease a = [].
Hypothesis a_build : build a = [].
Hypothesis b_pre0 : prerelease b = pre0.
Hypothesis a_below_b : mainLt a b.

(** The comparator set of the interval from [a], included, to [b]. *)
Local Abbreviation S := (replaceGTE0 <$> [GE a; LT b]).

Lemma interval_test_low (w : SemVer) :
  prerelease w = [] ->
  test (replaceGTE0 (GE a)) w = true <-> ~ mainLt w a.
Proof.
  intros Hw. destruct (replaceGTE0_GE a a_release a_build) as [[-> ->]|[-> _]].
  - cbn. unfold mainLt. cbn. split; [lia | reflexivity].
  - unfold test. cbn [semver operator GE]. unfold gte.
    rewrite negb_true_iff, <- not_true_iff_false, (lt_release w a Hw a_release).
    reflexivity.
Qed.

Lemma interval_no_prerelease (w : SemVer) :
  prerelease w <> [] -> testSet S w = false.
Proof.
  intros Hw. unfold testSet. cbn [fmap list_fmap forallb existsb].
  rewrite replaceGTE0_LT.
  destruct (prerelease w) as [|i pw] eqn:Epw; [congruence|].
  assert (allowsPrerelease w (replaceGTE0 (GE a)) = false) as ->.
  { destruct (replaceGTE0_GE a a_release a_build) as [[-> _]|[-> _]];
      [reflexivity|]. unfold allowsPrerelease. cbn. now rewrite a_release. }
  unfold allowsPrerelease at 1. cbn [semver LT]. rewrite b_pre0. unfold pre0 at 1.
  destruct ((major b =? major w)%N && (minor b =? minor w)%N
            && (patch b =? patch w)%N) eqn:Em.
  - apply andb_prop in Em as [Em Ep]. apply andb_prop in Em as [EM Em].
    apply N.eqb_eq in EM, Em, Ep.
    assert (test (LT b) w = false) as ->.
    { unfold test. cbn [semver operator LT].
      apply lt_pre0_same_main; [congruence | exact b_pre0 |].
      apply compareMain_Eq. auto. }
    now rewrite !andb_false_r.
  - cbn. now rewrite !andb_false_r.
Qed.

Lemma interval_accepts (w : SemVer) :
  testSet S w = true <-> prerelease w = [] /\ ~ mainLt w a /\ mainLt w b.
Proof.
  destruct (prerelease w) as [|i pw] eqn:Epw.
  - unfold testSet. cbn [fmap list_fmap forallb]. rewrite Epw, replaceGTE0_LT.
    rewrite !andb_true_r, andb_true_iff, (interval_test_low w Epw).
    unfold test at 1. cbn [semver operator LT].
    rewrite (lt_release_pre0 w b Epw b_pre0). tauto.
  - rewrite interval_no_prerelease by congruence. split; [discriminate|].
    intros [E _]. discriminate.
Qed.

Lemma interval_highLow :
  highLow S = Some ((LT b, b), (GE a, a)).
Proof.
  unfold highLow. cbn [fmap list_fmap]. rewrite replaceGTE0_LT.
  assert (anyAsGTE0 (replaceGTE0 (GE a)) = (GE a, a)) as ->.
  { destruct (replaceGTE0_GE a a_release a_build) as [[-> ->]|[-> _]]; reflexivity. }
  cbn [anyAsGTE0 semver LT fold_left snd].
  now rewrite (gt_pre0_release b a b_pre0 a_release a_below_b).
Qed.

Lemma interval_outside (v : SemVer) :
  prerelease v = [] ->
  outsideGt v [S] = true <-> ~ mainLt v a /\ ~ mainLt v b.
Proof.
  intros Hv. unfold outsideGt, satisfiesSets. cbn [existsb].
  unfold notAbove. rewrite interval_highLow. cbn [fst snd operator LT GE].
  rewrite !orb_false_r.
  destruct (testSet S v) eqn:Et.
  - apply interval_accepts in Et. split; [discriminate | tauto].
  - rewrite negb_true_iff, <- not_true_iff_false, (lt_release v a Hv a_release).
    assert (~ (prerelease v = [] /\ ~ mainLt v a /\ mainLt v b)) as Hn.
    { rewrite <- interval_accepts. congruence. }
    tauto.
Qed.

Lemma interval_aboveAll (v : SemVer) :
  prerelease v = [] ->
  aboveAll v [S] <-> ~ mainLt v a /\ ~ mainLt v b.
Proof.
  intros Hv. unfold aboveAll, satisfiesSets. cbn [existsb]. split.
  - intros Hall.
    assert (~ mainLt v a) as Hva.
    { assert (testSet S a = true) as Ha.
      { apply interval_accepts. repeat split; auto.
        unfold mainLt. lia. }
      pose proof (Hall a) as H1. rewrite Ha in H1. specialize (H1 eq_refl).
      apply (gt_release v a Hv a_release) in H1.
      unfold mainLt in *. lia. }
    split; [exact Hva|]. intros Hvb.
    assert (testSet S v = true) as Hin by (apply interval_accepts; auto).
    pose proof (Hall v) as H2. rewrite Hin in H2. specialize (H2 eq_refl).
    apply (gt_release v v Hv Hv) in H2. unfold mainLt in H2. lia.
  - intros [Hva Hvb] w Hw. rewrite orb_false_r in Hw.
    apply interval_accepts in Hw as (Hrel & Hwa & Hwb).
    apply (gt_release v w Hv Hrel). unfold mainLt in *. lia.
Qed.

End Interval.

(** An exact release version [a] as a range. *)
Lemma exact_semantics (a v : SemVer) :
  prerelease a = [] -> prerelease v = [] ->
  outsideGt v [[mkComparator OpNone (Some a)]] = true
  <-> aboveAll v [[mkComparator OpNone (Some a)]].
Proof.
  intros Ha Hv.
  assert (forall w, testSet [mkComparator OpNone (Some a)] w = true
                    <-> prerelease w = [] /\ compareMain w a = Eq) as Acc.
  { intros w. unfold testSet, test, allowsPrerelease, eq, compare, comparePre.
    cbn [forallb existsb semver operator]. rewrite Ha.
    destruct (compareMain w a), (prerelease w); cbn; split;
      intros; try discriminate; try tauto; destruct H; discriminate. }
  assert (outsideGt v [[mkComparator OpNone (Some a)]] = true <-> mainLt a v) as ->.
  { unfold outsideGt, satisfiesSets, notAbove, highLow. cbn.
    unfold testSet, test, allowsPrerelease, eq, lte, gt.
    cbn [forallb existsb semver operator]. rewrite Hv, (compare_release v a Hv Ha).
    rewrite <- compareMain_Gt.
    destruct (compareMain v a); cbn; split; congruence. }
  unfold aboveAll, satisfiesSets. cbn [existsb]. split.
  - intros Hav w Hw. rewrite orb_false_r in Hw. apply Acc in Hw as [Hrel Hm].
    apply (gt_release v w Hv Hrel). apply compareMain_Eq in Hm.
    unfold mainLt in *. lia.
  - intros Hall. specialize (Hall a).
    assert (testSet [mkComparator OpNone (Some a)] a = true) as Hin.
    { apply Acc. split; [exact Ha|]. apply compareMain_Eq. auto. }
    rewrite Hin in Hall. apply (gt_release v a Hv Ha). now apply Hall.
Qed.

(** A plain range is the interval from a release version up to the least
    prerelease of a later [M.m.p], or an exact release version. *)
Lemma plainRange_shape (sg : Sigil) (q : Partial) :
  plainRange sg q ->
  (exists a b,
     desugar sg q = replaceGTE0 <$> [GE a; LT b]
     /\ prerelease a = [] /\ build a = [] /\ prerelease b = pre0 /\ mainLt a b)
  \/ (exists a,
        desugar sg q = [mkComparator OpNone (Some a)] /\ prerelease a = []).
Proof.
  intros (Hsg & HM & Hpre).
  destruct q as [pM pm pp ppre pbuild]. cbn [NodeSemver.pM NodeSemver.ppre] in *.
  subst ppre. destruct pM as [|M]; [discriminate|].
  assert (forall a b : SemVer,
            prerelease a = [] -> build a = [] -> prerelease b = pre0 -> mainLt a b ->
            exists a' b',
              replaceGTE0 <$> [GE a; LT b] = replaceGTE0 <$> [GE a'; LT b']
              /\ prerelease a' = [] /\ build a' = [] /\ prerelease b' = pre0
              /\ mainLt a' b') as Itv.
  { intros a b ? ? ? ?. exists a, b. auto. }
  unfold desugar.
  destruct Hsg as [-> | [-> | [-> | ->]]];
    destruct pm as [|m]; destruct pp as [|p];
    cbn [replaceCaret replaceTilde replaceXRange isX num_or_0 orb operator_of
         NodeSemver.pM NodeSemver.pm NodeSemver.pp NodeSemver.ppre NodeSemver.pbuild];
    repeat match goal with
           | |- context [(?x =? 0)%N] => destruct (N.eqb_spec x 0)
           end;
    try (left; apply Itv; cbn; try reflexivity; unfold mainLt; cbn; lia);
    right; eexists; split; reflexivity.
Qed.

(** The comparator set that [new Range] keeps of an interval is the
    interval, or its upper bound alone when the lower bound is [>=0.0.0]. *)
Lemma value_LT (b : SemVer) : value (LT b) = String "<" (format b).
Proof. reflexivity. Qed.

Lemma value_GE (a : SemVer) : value (GE a) = String ">" (String "=" (format a)).
Proof. reflexivity. Qed.

Lemma comparatorSet_interval (a b : SemVer) (set : list Comparator) :
  prerelease a = [] -> build a = [] ->
  comparatorSet (replaceGTE0 <$> [GE a; LT b]) = Some set ->
  set = [LT b] \/ set = replaceGTE0 <$> [GE a; LT b].
Proof.
  intros Ha Hb. cbn [fmap list_fmap]. rewrite replaceGTE0_LT.
  unfold comparatorSet.
  destruct (forallb _ _); [|discriminate].
  destruct (replaceGTE0_GE a Ha Hb) as [[-> _]|[-> _]].
  - cbn [List.find]. change (isNullSet ANY) with false. cbv iota.
    destruct (isNullSet (LT b)); [intros [= <-]; now left|].
    cbn [fold_left rangeMapSet]. change (value ANY) with EmptyString.
    rewrite value_LT. rewrite decide_False by discriminate.
    cbn. intros [= <-]. now left.
  - cbn [List.find].
    assert (isNullSet (GE a) = false) as ->.
    { unfold isNullSet. rewrite value_GE. apply bool_decide_eq_false. discriminate. }
    destruct (isNullSet (LT b)); [intros [= <-]; now left|].
    cbn [fold_left rangeMapSet]. rewrite value_LT, value_GE.
    rewrite decide_False by discriminate.
    cbn. intros [= <-]. now right.
Qed.

Lemma comparatorSet_exact (c : Comparator) (set : list Comparator) :
  comparatorSet [c] = Some set -> set = [c].
Proof.
  unfold comparatorSet. destruct (forallb _ _); [|discriminate].
  cbn [List.find]. destruct (isNullSet c); [now intros [= <-]|].
  cbn. now intros [= <-].
Qed.

(** Below the least prerelease of [b] lie the release versions of a lesser
    [M.m.p]. *)
Lemma below_accepts (b w : SemVer) :
  prerelease b = pre0 ->
  testSet [LT b] w = true <-> prerelease w = [] /\ mainLt w b.
Proof.
  intros Hb. unfold testSet. cbn [forallb existsb]. rewrite !andb_true_r, orb_false_r.
  unfold test at 1. cbn [semver operator LT].
  destruct (prerelease w) as [|i pw] eqn:Epw.
  - rewrite andb_true_r, (lt_release_pre0 w b Epw Hb). tauto.
  - split; [|intros [E _]; discriminate].
    intros H. apply andb_prop in H as [Hlt Hal].
    unfold allowsPrerelease in Hal. cbn [semver LT] in Hal. rewrite Hb in Hal.
    unfold pre0 in Hal at 1.
    apply andb_prop in Hal as [Hal Ep]. apply andb_prop in Hal as [EM Em].
    apply N.eqb_eq in EM, Em, Ep.
    rewrite lt_pre0_same_main in Hlt; [discriminate | congruence | exact Hb |].
    apply compareMain_Eq. auto.
Qed.

Lemma below_semantics (b v : SemVer) :
  prerelease b = pre0 -> prerelease v = [] ->
  outsideGt v [[LT b]] = true <-> aboveAll v [[LT b]].
Proof.
  intros Hb Hv.
  assert (outsideGt v [[LT b]] = true <-> ~ mainLt v b) as ->.
  { unfold outsideGt, satisfiesSets. cbn [existsb]. rewrite !orb_false_r.
    destruct (testSet [LT b] v) eqn:Et.
    - apply (below_accepts b v Hb) in Et. split; [discriminate | tauto].
    - split; [|reflexivity]. intros _ Hlt.
      assert (testSet [LT b] v = true) by (apply (below_accepts b v Hb); auto).
      congruence. }
  unfold aboveAll, satisfiesSets. cbn [existsb]. split.
  - intros Hvb w Hw. rewrite orb_false_r in Hw.
    apply (below_accepts b w Hb) in Hw as [Hrel Hwb].
    apply (gt_release v w Hv Hrel). unfold mainLt in *. lia.
  - intros Hall Hvb.
    assert (testSet [LT b] v = true) as Hin by (apply (below_accepts b v Hb); auto).
    pose proof (Hall v) as H2. rewrite Hin in H2. specialize (H2 eq_refl).
    apply (gt_release v v Hv Hv) in H2. unfold mainLt in H2. lia.
Qed.

(** On the comparator set of a plain range and a release version, [outside]
    in the direction [>] says that the version is greater than everything
    the range accepts. *)
Lemma plainRange_semantics (sg : Sigil) (q : Partial) (set : list Comparator)
    (v : SemVer) :
  plainRange sg q -> comparatorSet (desugar sg q) = Some set ->
  prerelease v = [] ->
  outsideGt v [set] = true <-> aboveAll v [set].
Proof.
  intros Hq Hs Hv.
  destruct (plainRange_shape sg q Hq)
    as [(a & b & E & Ha & Hb & Hpre & Hab) | (a & E & Ha)]; rewrite E in Hs.
  - destruct (comparatorSet_interval a b set Ha Hb Hs) as [-> | ->].
    + now apply below_semantics.
    + rewrite (interval_outside a b Ha Hb Hpre Hab v Hv).
      rewrite (interval_aboveAll a b Ha Hb Hpre Hab v Hv). reflexivity.
  - apply comparatorSet_exact in Hs as ->. now apply exact_semantics.
Qed.

(** A plain range is not the range that accepts everything. *)
Lemma plainRange_not_any (sg : Sigil) (q : Partial) (set : list Comparator) :
  plainRange sg q -> comparatorSet (desugar sg q) = Some set -> set <> [ANY].
Proof.
  intros Hq Hs.
  destruct (plainRange_shape sg q Hq)
    as [(a & b & E & Ha & Hb & Hpre & Hab) | (a & E & Ha)]; rewrite E in Hs.
  - destruct (comparatorSet_interval a b set Ha Hb Hs) as [-> | ->];
      [discriminate|]. cbn [fmap list_fmap]. discriminate.
  - apply comparatorSet_exact in Hs as ->. discriminate.
Qed.

(** The same for [gtr] on strings. *)
Lemma gtr_plainRange (version range : string) (v : SemVer)
    (sg : Sigil) (q : Partial) (set : list Comparator) :
  parse version = Some v -> prerelease v = [] ->
  plainRange sg q -> comparatorSet (desugar sg q) = Some set ->
  parseRangeSet range = Some [set] ->
  @gtr lib version range = Normal (outsideGt v [set])
  /\ (outsideGt v [set] = true <-> aboveAll v [set])
  /\ range <> EmptyString.
Proof.
  intros Hp Hv Hq Hs Hr. split; [|split].
  - cbn [gtr lib]. now rewrite Hp, Hr.
  - exact (plainRange_semantics sg q set v Hq Hs Hv).
  - intros ->. injection Hr as <-. exact (plainRange_not_any sg q _ Hq Hs eq_refl).
Qed.

End NodeSemverFacts.

(** ** The classifier: what the specification states *)




(** C2, as stated, fails: the empty string is a current version that is not
    [null], and with no latest version the answer is [invalid_version]. *)
Lemma missing_latest_counterexample :
  ~ (forall (name cur : string),
       @checkVersion NodeSemver.lib name (Some cur) None = Normal not_found).
Proof. intros H. specialize (H "left-pad" EmptyString). discriminate H. Qed.

(** C2, amended. With no current version the answer is [invalid_version]
    whatever the latest version is; with a current version that is neither
    [null] nor empty and no latest version the answer is [not_found]; an
    empty current version counts as missing. *)
Theorem missing_current_precedes_missing_latest :
  forall (lib : SemverLib) (name : string),
    (forall lat : option string, checkVersion name None lat = Normal invalid_version)
    /\ (forall cur : string,
          cur <> EmptyString -> checkVersion name (Some cur) None = Normal not_found)
    /\ (forall lat : option string,
          checkVersion name (Some EmptyString) lat = Normal invalid_version).
Proof.
  intros lib name. split; [|split].
  - apply checkVersion_missing_current.
  - apply checkVersion_missing_latest.
  - apply checkVersion_empty_current.
Qed.

Lemma missing_current_precedes_missing_latest_witness :
  @checkVersion NodeSemver.lib "left-pad" (Some "1.2.3") None = Normal not_found.
Proof.
  apply (proj1 (proj2 (missing_current_precedes_missing_latest
                         NodeSemver.lib "left-pad")) "1.2.3").
  discriminate.
Defined.

(** C3, as stated, fails. The empty string is a current version that is
    present and is not an exact version, the latest version [1.0.0] is valid
    and [gtr] says that it does not exceed the range the empty string
    denotes, and the answer is [invalid_version] instead of [not_fixed]. The
    tag [latest] is a current version that is not an exact version, [gtr]
    does not say that [1.0.0] exceeds it (it throws), and the answer is
    [invalid_version] as well. *)
Lemma not_fixed_or_latest_counterexample :
  ~ (forall (name c l v : string),
       @valid NodeSemver.lib l = Some v ->
       @gtr NodeSemver.lib v c = Normal false ->
       @checkVersion NodeSemver.lib name (Some c) (Some l)
       = Normal match @valid NodeSemver.lib c with
                | None => not_fixed
                | Some _ => latest
                end)
  /\ ~ (forall (name c l v : string),
          c <> EmptyString ->
          @valid NodeSemver.lib l = Some v ->
          @gtr NodeSemver.lib v c <> Normal true ->
          @checkVersion NodeSemver.lib name (Some c) (Some l)
          = Normal match @valid NodeSemver.lib c with
                   | None => not_fixed
                   | Some _ => latest
                   end).
Proof.
  split; intros H.
  - specialize (H "left-pad" EmptyString "1.0.0" "1.0.0" eq_refl eq_refl).
    vm_compute in H. discriminate H.
  - assert (@checkVersion NodeSemver.lib "left-pad" (Some "latest") (Some "1.0.0")
            = Normal not_fixed) as E.
    { apply (H "left-pad" "latest" "1.0.0" "1.0.0");
        [discriminate | reflexivity | vm_compute; discriminate]. }
    vm_compute in E. discriminate E.
Qed.

(** C3, amended. When the current version is neither [null] nor empty, the
    latest version is valid and [gtr] returns [false] for the two, the
    answer is [not_fixed] if the current version is not an exact valid
    version and [latest] otherwise, and [not_fixed] is the answer in no other
    case; when [gtr] throws instead, as it does on a current version that is
    not a range, the answer is [invalid_version]. With the model of the
    library, [1.2.3] against [1.2.3] is [latest], the range [~1.2.0] against
    [1.2.3] is [not_fixed], and the tags [latest] and [next] and the locator
    [workspace:*] give [invalid_version]. *)
Theorem not_outdated_is_not_fixed_or_latest :
  (forall (lib : SemverLib), SemverLaws lib ->
   forall (name c l v : string),
     c <> EmptyString ->
     valid l = Some v ->
     (gtr v c = Normal false ->
      checkVersion name (Some c) (Some l)
      = Normal match valid c with None => not_fixed | Some _ => latest end)
     /\ (forall e : Exn,
           gtr v c = Throw e ->
           checkVersion name (Some c) (Some l) = Normal invalid_version))
  /\ (forall (lib : SemverLib), SemverLaws lib ->
      forall (name : string) (cur lat : option string),
        checkVersion name cur lat = Normal not_fixed <->
        exists c l v,
          cur = Some c /\ c <> EmptyString /\ lat = Some l /\ valid l = Some v
          /\ gtr v c = Normal false /\ valid c = None)
  /\ (forall name : string,
        @checkVersion NodeSemver.lib name (Some "1.2.3") (Some "1.2.3")
        = Normal latest
        /\ @checkVersion NodeSemver.lib name (Some "~1.2.0") (Some "1.2.3")
           = Normal not_fixed)
  /\ (forall (name c : string),
        In c ["latest"; "next"; "workspace:*"] ->
        (exists e, @gtr NodeSemver.lib "1.0.0" c = Throw e)
        /\ @checkVersion NodeSemver.lib name (Some c) (Some "1.0.0")
           = Normal invalid_version).
Proof.
  split; [|split; [|split]].
  - intros lib laws name c l v Hc Hv. split.
    + intros Hg. rewrite (checkVersion_compared name c l v Hc Hv), Hg. reflexivity.
    + intros e Hg. rewrite (checkVersion_compared name c l v Hc Hv), Hg. reflexivity.
  - intros lib laws name cur lat. split.
    + rewrite checkVersion_cases.
      destruct (JS.truthy cur) as [c|] eqn:Ec; [|discriminate].
      destruct (JS.truthy lat) as [l|] eqn:El; [|discriminate].
      destruct (JS.truthy (valid l)) as [v|] eqn:Ev; [|discriminate].
      destruct (gtr v c) as [[|]|] eqn:Eg; try discriminate.
      rewrite falsy_valid. destruct (valid c) eqn:Evc; [discriminate|].
      intros _. exists c, l, v.
      apply truthy_inv in Ec as [-> Hc]. apply truthy_inv in El as [-> _].
      apply truthy_inv in Ev as [-> _]. repeat split; auto.
    + intros (c & l & v & -> & Hne & -> & Hv & Hg & Hc).
      rewrite (checkVersion_compared name c l v Hne Hv), Hg, Hc. reflexivity.
  - intros name. split; reflexivity.
  - intros name c [<- | [<- | [<- | []]]]; (split; [eexists|]; reflexivity).
Qed.

Lemma not_outdated_is_not_fixed_or_latest_witness :
  @checkVersion NodeSemver.lib "left-pad" (Some "~1.2.0") (Some "1.2.3")
  = Normal match @valid NodeSemver.lib "~1.2.0" with
           | None => not_fixed
           | Some _ => latest
           end
  /\ @checkVersion NodeSemver.lib "left-pad" (Some "latest") (Some "1.2.3")
     = Normal invalid_version.
Proof.
  split.
  - apply (proj1 (proj1 not_outdated_is_not_fixed_or_latest
                    NodeSemver.lib NodeSemver_laws
                    "left-pad" "~1.2.0" "1.2.3" "1.2.3"
                    ltac:(discriminate) eq_refl)).
    reflexivity.
  - apply (proj2 (proj1 not_outdated_is_not_fixed_or_latest
                    NodeSemver.lib NodeSemver_laws
                    "left-pad" "latest" "1.2.3" "1.2.3"
                    ltac:(discriminate) eq_refl)
             (TypeError "Invalid SemVer Range: latest")).
    reflexivity.
Defined.

(** C4, as stated, fails: the empty string is a latest version that is not
    [null] and is not a valid semantic version, and with a current version
    present the answer is [not_found], not [invalid_version]. *)
Lemma malformed_latest_counterexample :
  ~ (forall (name : string) (cur : option string) (l : string),
       @valid NodeSemver.lib l = None ->
       @checkVersion NodeSemver.lib name cur (Some l) = Normal invalid_version).
Proof.
  intros H. specialize (H "left-pad" (Some "1.0.0") EmptyString eq_refl).
  vm_compute in H. discriminate H.
Qed.

(** C4, amended. [checkVersion] never throws; a latest version that is not
    empty and is not a valid semantic version gives [invalid_version]; when
    the latest version is valid and [gtr] throws on the current version, the
    answer is [invalid_version]; with the model of the library,
    [not-a-version] against [1.0.0] is [invalid_version]. (An empty latest
    version with a current version present gives [not_found].) *)
Theorem malformed_versions_are_invalid_not_thrown :
  (forall (lib : SemverLib), SemverLaws lib ->
   forall name : string,
     (forall cur lat : option string, exists r, checkVersion name cur lat = Normal r)
     /\ (forall (cur : option string) (l : string),
           l <> EmptyString -> valid l = None ->
           checkVersion name cur (Some l) = Normal invalid_version)
     /\ (forall (c l v : string) (e : Exn),
           valid l = Some v -> gtr v c = Throw e ->
           checkVersion name (Some c) (Some l) = Normal invalid_version)
     /\ (forall c : string,
           c <> EmptyString ->
           checkVersion name (Some c) (Some EmptyString) = Normal not_found))
  /\ (forall name : string,
        @checkVersion NodeSemver.lib name (Some "not-a-version") (Some "1.0.0")
        = Normal invalid_version).
Proof.
  split; [|intros name; reflexivity].
  intros lib laws name. split; [|split; [|split]].
  - intros cur lat. apply checkVersion_never_throws.
  - intros cur l Hl Hv. rewrite checkVersion_cases, (truthy_nonempty l Hl), Hv.
    destruct (JS.truthy cur); reflexivity.
  - intros c l v e Hv Hg. destruct c as [|a c'].
    + apply checkVersion_empty_current.
    + rewrite (checkVersion_compared name (String a c') l v ltac:(discriminate) Hv), Hg.
      reflexivity.
  - intros c Hc. rewrite checkVersion_cases, (truthy_nonempty c Hc). reflexivity.
Qed.

Lemma malformed_versions_are_invalid_not_thrown_witness :
  @checkVersion NodeSemver.lib "left-pad" (Some "1.0.0") (Some "1.0.0.0")
  = Normal invalid_version
  /\ @checkVersion NodeSemver.lib "left-pad" (Some "latest") (Some "1.0.0")
     = Normal invalid_version.
Proof.
  pose proof (proj1 malformed_versions_are_invalid_not_thrown
                NodeSemver.lib NodeSemver_laws "left-pad") as (_ & Hb & Hc & _).
  split.
  - apply Hb; [discriminate | reflexivity].
  - apply (Hc "latest" "1.0.0" "1.0.0"
              (TypeError "Invalid SemVer Range: latest")); reflexivity.
Defined.

(** ** Resolvers *)

Section Resolvers.

Context {lib : SemverLib} {net : Network} {urls : URLLib}.

(** A string in the cache answers the lookup and leaves the world alone. *)
Lemma npm_cache_hit (pkgName v : string) (w : World) :
  npmCache w !! pkgName = Some (Some v) ->
  createNpmResolver pkgName w = (Normal (None, Some v), w).
Proof.
  intros Hc. unfold createNpmResolver, mbind, M_bind, cacheGet. simpl.
  rewrite Hc. reflexivity.
Qed.

(** Anything else in the cache, a cached [null] included, is followed by
    a request to the registry. *)
Lemma npm_cache_no_string (pkgName : string) (w : World) :
  cachedString (npmCache w !! pkgName) = None ->
  exists r w',
    createNpmResolver pkgName w = (r, w')
    /\ requests w' = (requests w ++ [Fetch ("https://registry.npmjs.org/" +:+ pkgName)])%list.
Proof.
  intros Hc. unfold createNpmResolver, mbind, M_bind, cacheGet. simpl.
  rewrite Hc. unfold doFetch.
  destruct (fetch (requests w) _) as [[[field|e]|status]|e]; simpl; eauto.
Qed.

(** After a lookup that the registry answered with a version string, the
    next lookup of the same name is served from the cache. *)
Lemma npm_second_lookup_after_success (pkgName v : string) (w : World) :
  cachedString (npmCache w !! pkgName) = None ->
  fetch (requests w) ("https://registry.npmjs.org/" +:+ pkgName)
  = Normal (ResOk (Normal (Some v))) ->
  exists w1,
    createNpmResolver pkgName w = (Normal (None, Some v), w1)
    /\ createNpmResolver pkgName w1 = (Normal (None, Some v), w1)
    /\ requests w1 = (requests w ++ [Fetch ("https://registry.npmjs.org/" +:+ pkgName)])%list.
Proof.
  intros Hc Hf. eexists. split; [|split].
  - unfold createNpmResolver, mbind, M_bind, cacheGet. simpl.
    rewrite Hc. unfold doFetch. rewrite Hf. simpl. reflexivity.
  - apply npm_cache_hit. simpl. apply lookup_insert_eq.
  - reflexivity.
Qed.

(** A status that is not a success is cached as [null] ... *)
Lemma npm_failure_caches_null (pkgName : string) (status : Z) (w : World) :
  cachedString (npmCache w !! pkgName) = None ->
  fetch (requests w) ("https://registry.npmjs.org/" +:+ pkgName)
  = Normal (ResNotOk status) ->
  exists w1,
    createNpmResolver pkgName w = (Normal (None, None), w1)
    /\ npmCache w1 !! pkgName = Some None.
Proof.
  intros Hc Hf. eexists. split.
  - unfold createNpmResolver, mbind, M_bind, cacheGet. simpl.
    rewrite Hc. unfold doFetch. rewrite Hf. simpl. reflexivity.
  - simpl. apply lookup_insert_eq.
Qed.

(** ... and a cached [null] does not stop the next lookup from going out. *)
Lemma npm_cached_null_fetches (pkgName : string) (w : World) :
  npmCache w !! pkgName = Some None ->
  exists r w',
    createNpmResolver pkgName w = (r, w')
    /\ requests w' = (requests w ++ [Fetch ("https://registry.npmjs.org/" +:+ pkgName)])%list.
Proof. intros Hc. apply npm_cache_no_string. rewrite Hc. reflexivity. Qed.

(** The release feed: a throw of the client leaves [resolveGitHub] through
    the [await], before anything is cached. *)
Lemma github_throw_propagates (url : URL) (e : Exn) (w : World) :
  let path := pathOf url in
  let pkgName := JS.template (path !! 0%nat) +:+ "/" +:+ JS.template (path !! 1%nat) in
  cachedString (gitHubCache w !! pkgName) = None ->
  getLatestRelease (requests w) (path !! 0%nat) (path !! 1%nat) = Throw e ->
  resolveGitHub url w
  = (Throw e, withRequest (GetLatestRelease (path !! 0%nat) (path !! 1%nat)) w).
Proof.
  intros path pkgName Hc Hr.
  unfold resolveGitHub, mbind, M_bind, cacheGet. simpl.
  fold path. fold pkgName. rewrite Hc. unfold doGetLatestRelease.
  rewrite Hr. reflexivity.
Qed.

End Resolvers.

(** ** Name and version of a package reference *)

Lemma append_cons (x : ascii) (a b : string) :
  String x a +:+ b = String x (a +:+ b).
Proof. reflexivity. Qed.

Lemma append_nil (b : string) : EmptyString +:+ b = b.
Proof. reflexivity. Qed.

Lemma append_assoc (a b c : string) : (a +:+ b) +:+ c = a +:+ (b +:+ c).
Proof.
  induction a as [|x a IH]; [reflexivity|].
  rewrite !append_cons, IH. reflexivity.
Qed.

Lemma length_append (a b : string) :
  String.length (a +:+ b) = (String.length a + String.length b)%nat.
Proof.
  induction a as [|x a IH]; [reflexivity|].
  rewrite append_cons. simpl. now rewrite IH.
Qed.

Lemma lastIndexOf_from_absent (c : ascii) (s : string) (i : Z) :
  occurs c s = false -> JS.lastIndexOf_from c s i = -1.
Proof.
  revert i. induction s as [|a s IH]; intros i; simpl; [reflexivity|].
  intros H. apply orb_false_elim in H as [Ha Hs].
  rewrite (IH (i + 1) Hs), Ha. reflexivity.
Qed.

Lemma lastIndexOf_from_last (c : ascii) (n v : string) (i : Z) :
  0 <= i -> occurs c v = false ->
  JS.lastIndexOf_from c (n +:+ String c v) i = i + Z.of_nat (String.length n).
Proof.
  revert i. induction n as [|a n IH]; intros i Hi Hv.
  - rewrite append_nil. simpl.
    rewrite (lastIndexOf_from_absent c v (i + 1) Hv), Ascii.eqb_refl.
    simpl. lia.
  - change (JS.lastIndexOf_from c (String a n +:+ String c v) i)
      with (let r := JS.lastIndexOf_from c (n +:+ String c v) (i + 1) in
            if 0 <=? r then r else if Ascii.eqb a c then i else -1).
    rewrite (IH (i + 1)) by (lia || assumption).
    cbn zeta. cbn [String.length].
    destruct (Z.leb_spec 0 (i + 1 + Z.of_nat (String.length n))); lia.
Qed.

Lemma slice_to_app (n t : string) : JS.slice_to (String.length n) (n +:+ t) = n.
Proof.
  induction n as [|a n IH]; [destruct t; reflexivity|].
  rewrite append_cons. simpl. now rewrite IH.
Qed.

Lemma slice_from_app (n t : string) : JS.slice_from (String.length n) (n +:+ t) = t.
Proof.
  induction n as [|a n IH]; [reflexivity|].
  rewrite append_cons. simpl. exact IH.
Qed.

(** With a name in front of the last [@], the reference splits there. *)
Lemma decompose_versioned (n v : string) :
  n <> EmptyString -> occurs "@" v = false ->
  decomposePackageNameVersion (n +:+ String "@" v) = (n, v).
Proof.
  intros Hn Hv. unfold decomposePackageNameVersion, JS.lastIndexOf.
  rewrite (lastIndexOf_from_last "@" n v 0) by (lia || assumption).
  assert (0 < Z.of_nat (String.length n)) as Hlen.
  { destruct n; [congruence | simpl; lia]. }
  destruct (Z.leb_spec (0 + Z.of_nat (String.length n)) 0); [lia|].
  rewrite Z.add_0_l, Nat2Z.id, slice_to_app.
  replace (Z.to_nat (Z.of_nat (String.length n) + 1))
    with (String.length (n +:+ "@")).
  - change (n +:+ String "@" v) with (n +:+ ("@" +:+ v)).
    rewrite <- append_assoc. apply f_equal, slice_from_app.
  - rewrite length_append. simpl. lia.
Qed.

(** With no [@] behind the first character, the reference is a bare name. *)
Lemma decompose_bare (s : string) :
  occurs "@" (JS.slice_from 1 s) = false ->
  decomposePackageNameVersion s = (s, EmptyString).
Proof.
  intros H. unfold decomposePackageNameVersion, JS.lastIndexOf.
  destruct s as [|a t]; [reflexivity|].
  simpl in H.
  change (JS.lastIndexOf_from "@" (String a t) 0)
    with (let r := JS.lastIndexOf_from "@" t (0 + 1) in
          if 0 <=? r then r else if Ascii.eqb a "@" then 0 else -1).
  rewrite (lastIndexOf_from_absent "@" t (0 + 1) H).
  cbn zeta. destruct (Ascii.eqb a "@"); reflexivity.
Qed.

(** A character that occurs in [t] has a last occurrence. *)
Lemma last_occurrence (c : ascii) (t : string) :
  occurs c t = true ->
  exists a b, t = a +:+ String c b /\ occurs c b = false.
Proof.
  induction t as [|x t IH]; simpl; [discriminate|].
  destruct (occurs c t) eqn:Et.
  - intros _. destruct (IH eq_refl) as (a & b & -> & Hb).
    exists (String x a), b. split; [reflexivity | exact Hb].
  - rewrite orb_false_r. intros Hx. apply Ascii.eqb_eq in Hx as ->.
    exists EmptyString, t. split; [reflexivity | exact Et].
Qed.

(** What [decomposePackageNameVersion] returns, for every reference: the
    parts around the last [@] when a name stands in front of it, and the
    reference itself with an empty version otherwise. *)
Lemma decompose_spec (s : string) :
  exists n v,
    decomposePackageNameVersion s = (n, v)
    /\ ((s = n +:+ String "@" v /\ n <> EmptyString /\ occurs "@" v = false)
        \/ (n = s /\ v = EmptyString /\ occurs "@" (JS.slice_from 1 s) = false)).
Proof.
  destruct (occurs "@" (JS.slice_from 1 s)) eqn:E.
  - destruct s as [|x t]; [discriminate|]. simpl in E.
    destruct (last_occurrence "@" t E) as (a & b & -> & Hb).
    exists (String x a), b. split.
    + apply (decompose_versioned (String x a) b); [discriminate | exact Hb].
    + left. repeat split; [discriminate | exact Hb].
  - exists s, EmptyString. split; [now apply decompose_bare | right; auto].
Qed.

Example decompose_scoped_versioned :
  decomposePackageNameVersion "@scope/pkg@1.2.3" = ("@scope/pkg", "1.2.3").
Proof. reflexivity. Qed.

Example decompose_scoped_bare :
  decomposePackageNameVersion "@scope/pkg" = ("@scope/pkg", EmptyString).
Proof. reflexivity. Qed.

Lemma startsWith_append (p s : string) : JS.startsWith (p +:+ s) p = true.
Proof.
  unfold JS.startsWith. induction p as [|a p IH].
  - destruct s; reflexivity.
  - rewrite append_cons. simpl. destruct (ascii_dec a a); [exact IH | congruence].
Qed.

(** ** The resolvers: what the specification states *)

(** C5 does not hold of the code: the registry resolver stores [null] for a
    package whose lookup failed, but only a cached string answers a later
    call. Against a registry that knows no package, two calls for the same
    name both return [(null, null)], the cache holds [null] for the name
    after the first, and two requests have gone out after the second. *)
Theorem failed_npm_lookup_is_fetched_again :
  exists w1 w2 : World,
    @createNpmResolver network404 "no-such-package" initialWorld
    = (Normal (None, None), w1)
    /\ npmCache w1 !! "no-such-package" = Some None
    /\ @createNpmResolver network404 "no-such-package" w1
       = (Normal (None, None), w2)
    /\ requests w2 = [Fetch "https://registry.npmjs.org/no-such-package";
                      Fetch "https://registry.npmjs.org/no-such-package"].
Proof.
  destruct (@npm_failure_caches_null network404 "no-such-package" 404 initialWorld)
    as (w1 & E1 & C1); [reflexivity | reflexivity |].
  destruct (@npm_cached_null_fetches network404 "no-such-package" w1 C1)
    as (r2 & w2 & E2 & R2).
  exists w1, w2. split; [exact E1 | split; [exact C1 |]].
  assert (requests w1 = [Fetch "https://registry.npmjs.org/no-such-package"]) as R1.
  { unfold createNpmResolver, mbind, M_bind, cacheGet in E1. simpl in E1.
    injection E1 as <-. reflexivity. }
  assert (r2 = Normal (None, None)) as ->.
  { unfold createNpmResolver, mbind, M_bind, cacheGet in E2. simpl in E2.
    rewrite C1 in E2. simpl in E2. injection E2 as <- _. reflexivity. }
  split; [exact E2 | rewrite R2, R1; reflexivity].
Qed.

(** C7. The URL-dispatch resolver hands a reference that starts with [npm:]
    to the registry resolver: the prefix is removed, the rest is split at its
    last [@] when a name stands in front of that [@] (and is taken whole, with
    an empty version, otherwise), the name is looked up and the version is
    returned as current. A reference that is not a URL, and a URL on a host
    other than [deno.land] and [raw.githubusercontent.com], resolve to
    [(null, null)] and leave the world as it was, so that no request goes
    out. *)
Theorem url_dispatch :
  forall (lib : SemverLib) (net : Network) (urls : URLLib) (w : World),
    (forall s : string,
       JS.startsWith s "npm:" = true ->
       exists n v : string,
         let rest := JS.slice_from 4 s in
         ((rest = n +:+ String "@" v /\ n <> EmptyString /\ occurs "@" v = false)
          \/ (n = rest /\ v = EmptyString
              /\ occurs "@" (JS.slice_from 1 rest) = false))
         /\ createDenoURLResolver s w
            = match npmResolver n w with
              | (Normal (_, latestVersion), w') =>
                  (Normal (Some v, latestVersion), w')
              | (Throw e, w') => (Throw e, w')
              end)
    /\ (forall s : string,
          JS.startsWith s "npm:" = false -> parseURL s = None ->
          createDenoURLResolver s w = (Normal (None, None), w))
    /\ (forall (s : string) (url : URL),
          JS.startsWith s "npm:" = false -> parseURL s = Some url ->
          hostname url <> "deno.land" ->
          hostname url <> "raw.githubusercontent.com" ->
          createDenoURLResolver s w = (Normal (None, None), w)).
Proof.
  intros lib net urls w. split; [|split].
  - intros s Hs.
    destruct (decompose_spec (JS.slice_from 4 s)) as (n & v & Hd & Hshape).
    exists n, v. cbv zeta. split; [exact Hshape|].
    unfold createDenoURLResolver. rewrite Hs, Hd.
    unfold mbind, M_bind.
    destruct (npmResolver n w) as [[[c l]|e] w']; reflexivity.
  - intros s Hs Hp. unfold createDenoURLResolver. rewrite Hs, Hp. reflexivity.
  - intros s url Hs Hp Hd Hg. unfold createDenoURLResolver. rewrite Hs, Hp.
    destruct (decide (hostname url = "deno.land")) as [E|_]; [contradiction|].
    destruct (decide (hostname url = "raw.githubusercontent.com")) as [E|_];
      [contradiction | reflexivity].
Qed.

Lemma url_dispatch_witness :
  @createDenoURLResolver NodeSemver.lib network404 simpleURL
    "https://example.com/a/b" initialWorld
  = (Normal (None, None), initialWorld)
  /\ @createDenoURLResolver NodeSemver.lib network404 simpleURL
       "example.com/a/b" initialWorld
     = (Normal (None, None), initialWorld)
  /\ exists n v : string,
       (("@scope/pkg@1.2.3" = n +:+ String "@" v /\ n <> EmptyString
         /\ occurs "@" v = false)
        \/ (n = "@scope/pkg@1.2.3" /\ v = EmptyString
            /\ occurs "@" (JS.slice_from 1 "@scope/pkg@1.2.3") = false))
       /\ @createDenoURLResolver NodeSemver.lib network404 simpleURL
            "npm:@scope/pkg@1.2.3" initialWorld
          = match @npmResolver network404 n initialWorld with
            | (Normal (_, latestVersion), w') =>
                (Normal (Some v, latestVersion), w')
            | (Throw e, w') => (Throw e, w')
            end.
Proof.
  pose proof (url_dispatch NodeSemver.lib network404 simpleURL initialWorld)
    as (Hnpm & Hbad & Hhost).
  split; [|split].
  - apply (Hhost _ (mkURL "example.com" "/a/b")); [reflexivity | reflexivity | |];
      discriminate.
  - apply Hbad; reflexivity.
  - apply (Hnpm "npm:@scope/pkg@1.2.3"). reflexivity.
Defined.

(** C8 does not hold of the code: [resolveGitHub] has no handler around the
    call of the release feed. When the feed answers with a status that is
    not a success the client throws, the throw leaves the resolver, and
    nothing is cached; the registry resolver, given the same kind of answer,
    caches [null] and returns. *)
Theorem github_http_failure_is_thrown :
  exists w' : World,
    @createDenoURLResolver NodeSemver.lib network404 simpleURL
      "https://raw.githubusercontent.com/denoland/deno_std/main/version.ts"
      initialWorld
    = (Throw (RequestError 404), w')
    /\ gitHubCache w' = ∅
    /\ requests w' = [GetLatestRelease (Some "denoland") (Some "deno_std")].
Proof.
  eexists. split; [|split].
  - unfold createDenoURLResolver.
    change (JS.startsWith _ "npm:") with false. cbv iota.
    change (@parseURL simpleURL
              "https://raw.githubusercontent.com/denoland/deno_std/main/version.ts")
      with (Some (mkURL "raw.githubusercontent.com"
                    "/denoland/deno_std/main/version.ts")).
    cbv iota.
    destruct (decide _) as [E|_]; [discriminate E|].
    destruct (decide _) as [_|N]; [|contradiction N; reflexivity].
    apply (@github_throw_propagates NodeSemver.lib network404); reflexivity.
  - reflexivity.
  - reflexivity.
Qed.

(** ** The scan loop *)

Section Scans.

Context {lib : SemverLib}.

(** What the loop returns is what it started with, followed by one item
    per element, each produced by the body on that element. *)
Lemma forEachPush_items {A B : Type} (body : A -> M B) (xs : list A) :
  forall (acc : list B) (w : World) (summary : list B) (w' : World),
    forEachPush body xs acc w = (Normal summary, w') ->
    exists items,
      summary = (acc ++ items)%list
      /\ Forall2 (fun x item => exists w1 w2, body x w1 = (Normal item, w2))
           xs items.
Proof.
  induction xs as [|x xs IH]; intros acc w summary w' E.
  - injection E as <- <-. exists []. split; [now rewrite app_nil_r | constructor].
  - cbn [forEachPush] in E. unfold mbind, M_bind in E.
    destruct (body x w) as [[item|e] w1] eqn:Eb; [|discriminate].
    apply IH in E as (items & -> & HF).
    exists (item :: items). split.
    + now rewrite <- app_assoc.
    + constructor; [eauto | exact HF].
Qed.

(** The loop returns if its body does on every element. *)
Lemma forEachPush_returns {A B : Type} (body : A -> M B) (xs : list A) :
  (forall x w, In x xs -> exists item w', body x w = (Normal item, w')) ->
  forall (acc : list B) (w : World),
    exists summary w', forEachPush body xs acc w = (Normal summary, w').
Proof.
  induction xs as [|x xs IH]; intros Hb acc w.
  - exists acc, w. reflexivity.
  - cbn [forEachPush]. unfold mbind, M_bind.
    destruct (Hb x w (or_introl eq_refl)) as (item & w1 & ->).
    apply IH. intros y w2 Hy. apply Hb. right. exact Hy.
Qed.

(** The item the loops build from a resolved pair. *)
Lemma item_of_pair (name : string) (cur lat : option string)
    (w : World) (item : VersionCheckSummaryItem) (w' : World) :
  (checkResult ← liftC (checkVersion name cur lat);
   mret (mkItem name cur lat checkResult)) w = (Normal item, w') ->
  w' = w /\ packageName item = name /\ currentVersion item = cur
  /\ latestVersion item = lat
  /\ checkVersion name cur lat = Normal (checkResult item).
Proof.
  unfold mbind, M_bind, liftC, mret, M_ret.
  destruct (checkVersion name cur lat) as [r|e]; [|discriminate].
  intros E. injection E as <- <-. auto.
Qed.

Lemma item_of_pair_returns (name : string) (cur lat : option string) (w : World) :
  exists item,
    (checkResult ← liftC (checkVersion name cur lat);
     mret (mkItem name cur lat checkResult)) w = (Normal item, w).
Proof.
  unfold mbind, M_bind, liftC, mret, M_ret.
  destruct (checkVersion_never_throws name cur lat) as (r & ->). eauto.
Qed.

Lemma get_of_key (k : string) (r : JSRecord) :
  In k (keys r) -> exists v, get k r = Some v.
Proof.
  induction r as [|[k0 v0] r IH]; simpl; [tauto|].
  destruct (decide (k0 = k)) as [_|N]; [eauto|].
  intros [E|H]; [congruence | eauto].
Qed.

Lemma get_of_entry (k v : string) (r : JSRecord) :
  NoDup (keys r) -> In (k, v) r -> get k r = Some v.
Proof.
  induction r as [|[k0 v0] r IH]; simpl; [tauto|].
  intros ND [E|H].
  - injection E as -> ->. destruct (decide (k = k)); congruence.
  - apply NoDup_cons in ND as [Hnotin ND].
    destruct (decide (k0 = k)) as [->|_].
    + exfalso. apply Hnotin. apply list_elem_of_In.
      change k with (fst (k, v)). apply in_map. exact H.
    + apply IH; assumption.
Qed.

(** The manifest scan, item by item. *)
Lemma checkDepsRecord_items (packages : JSRecord) (resolver : Resolver)
    (w : World) (summary : list VersionCheckSummaryItem) (w' : World) :
  checkDepsRecord packages resolver w = (Normal summary, w') ->
  Forall2
    (fun k item =>
       packageName item = k
       /\ currentVersion item = get k packages
       /\ checkVersion k (get k packages) (latestVersion item)
          = Normal (checkResult item)
       /\ exists cur' w1 w2,
            resolver k w1 = (Normal (cur', latestVersion item), w2))
    (keys packages) summary.
Proof.
  intros E. apply forEachPush_items in E as (items & -> & HF).
  rewrite app_nil_l. eapply Forall2_impl; [exact HF|].
  intros k item (w1 & w2 & Eb). cbv beta in Eb.
  unfold mbind at 1, M_bind at 1 in Eb.
  destruct (resolver k w1) as [[[cur' lat]|e] w3] eqn:Er; [|discriminate].
  apply item_of_pair in Eb as (-> & Hn & Hc & Hl & Hr).
  rewrite Hl. repeat split; try assumption. eauto.
Qed.

Lemma checkDepsRecord_returns (packages : JSRecord) (resolver : Resolver)
    (w : World) :
  neverThrows resolver ->
  exists summary w', checkDepsRecord packages resolver w = (Normal summary, w').
Proof.
  intros Hr. apply forEachPush_returns. intros k w1 _.
  unfold mbind at 1, M_bind at 1.
  destruct (Hr k w1) as ([cur' lat] & w2 & ->).
  destruct (item_of_pair_returns k (get k packages) lat w2) as (item & ->).
  eauto.
Qed.

(** The import-map scan, item by item. *)
Lemma checkDepsImportMap_items (packages : ImportMap) (resolver : Resolver)
    (w : World) (summary : list VersionCheckSummaryItem) (w' : World) :
  checkDepsImportMap packages resolver w = (Normal summary, w') ->
  Forall2
    (fun k item =>
       packageName item = k
       /\ exists url w1 w2,
            get k (imports packages) = Some url
            /\ resolver url w1
               = (Normal (currentVersion item, latestVersion item), w2))
    (keys (imports packages)) summary.
Proof.
  intros E. apply forEachPush_items in E as (items & -> & HF).
  rewrite app_nil_l. eapply Forall2_impl; [exact HF|].
  intros k item (w1 & w2 & Eb). cbv beta in Eb.
  destruct (get k (imports packages)) as [url|]; [|discriminate].
  unfold mbind at 1, M_bind at 1 in Eb.
  destruct (resolver url w1) as [[[cur lat]|e] w3] eqn:Er; [|discriminate].
  apply item_of_pair in Eb as (-> & Hn & Hc & Hl & Hr).
  rewrite Hc, Hl. split; [assumption | eauto].
Qed.

Lemma checkDepsImportMap_returns (packages : ImportMap) (resolver : Resolver)
    (w : World) :
  neverThrows resolver ->
  exists summary w', checkDepsImportMap packages resolver w = (Normal summary, w').
Proof.
  intros Hr. apply forEachPush_returns. intros k w1 Hk.
  destruct (get_of_key k _ Hk) as (url & ->).
  unfold mbind at 1, M_bind at 1.
  destruct (Hr url w1) as ([cur lat] & w2 & ->).
  destruct (item_of_pair_returns k cur lat w2) as (item & ->).
  eauto.
Qed.

(** The free-text scan, item by item. *)
Lemma checkURLStringsEsInText_items (text : string) (resolver : Resolver)
    (w : World) (summary : list VersionCheckSummaryItem) (w' : World) :
  checkURLStringsEsInText text resolver w = (Normal summary, w') ->
  Forall2
    (fun url item =>
       packageName item = url
       /\ exists w1 w2,
            resolver url w1
            = (Normal (currentVersion item, latestVersion item), w2))
    (extractURLs text) summary.
Proof.
  intros E. apply forEachPush_items in E as (items & -> & HF).
  rewrite app_nil_l. eapply Forall2_impl; [exact HF|].
  intros url item (w1 & w2 & Eb). cbv beta in Eb.
  unfold mbind at 1, M_bind at 1 in Eb.
  destruct (resolver url w1) as [[[cur lat]|e] w3] eqn:Er; [|discriminate].
  apply item_of_pair in Eb as (-> & Hn & Hc & Hl & Hr).
  rewrite Hc, Hl. split; [assumption | eauto].
Qed.

Lemma checkURLStringsEsInText_returns (text : string) (resolver : Resolver)
    (w : World) :
  neverThrows resolver ->
  exists summary w',
    checkURLStringsEsInText text resolver w = (Normal summary, w').
Proof.
  intros Hr. apply forEachPush_returns. intros url w1 _.
  unfold mbind at 1, M_bind at 1.
  destruct (Hr url w1) as ([cur lat] & w2 & ->).
  destruct (item_of_pair_returns url cur lat w2) as (item & ->).
  eauto.
Qed.

(** One item per reference, in the order of the references. *)
Lemma names_of_items {A : Type} (P : A -> VersionCheckSummaryItem -> Prop)
    (name : A -> string) (xs : list A) (summary : list VersionCheckSummaryItem) :
  Forall2 (fun x item => packageName item = name x /\ P x item) xs summary ->
  packageName <$> summary = name <$> xs.
Proof.
  induction 1 as [|x item xs summary [Hn _] _ IH]; [reflexivity|].
  cbn. now rewrite Hn, IH.
Qed.

End Scans.

(** ** Quoted URLs in free text *)

(** Push [+:+] inwards until it meets a variable. *)
Ltac push_append :=
  repeat (rewrite append_cons || rewrite append_nil || rewrite append_assoc).

Lemma after_Some (p s r : string) : after p s = Some r <-> s = p +:+ r.
Proof.
  revert s. induction p as [|a p IH]; intros s.
  - rewrite append_nil. simpl. split; congruence.
  - rewrite append_cons. destruct s as [|b s]; simpl; [split; discriminate|].
    destruct (Ascii.eqb_spec a b) as [->|N].
    + rewrite IH. split; congruence.
    + split; [discriminate | congruence].
Qed.

Lemma after_append (p r : string) : after p (p +:+ r) = Some r.
Proof. now apply after_Some. Qed.

Lemma url_chars_all (s : string) :
  NodeSemver.all_chars url_char (url_chars s) = true.
Proof.
  induction s as [|c s IH]; simpl; [reflexivity|].
  destruct (url_char c) eqn:E; simpl; [now rewrite E | reflexivity].
Qed.

Lemma url_chars_append (body : string) (c : ascii) (t : string) :
  NodeSemver.all_chars url_char body = true -> url_char c = false ->
  url_chars (body +:+ String c t) = body.
Proof.
  intros Hb Hc. induction body as [|b body IH].
  - rewrite append_nil. simpl. now rewrite Hc.
  - rewrite append_cons. simpl in *. apply andb_prop in Hb as [-> Hb].
    now rewrite (IH Hb).
Qed.

Lemma slice_to_prefix (a t : string) (n : nat) :
  n = String.length a -> JS.slice_to n (a +:+ t) = a.
Proof. intros ->. apply slice_to_app. Qed.

(** A match at the start of [s] is a quoted URL and a prefix of [s]. *)
Lemma matchHere_sound (q : ascii) (s m : string) :
  matchHere q s = Some m -> quotedURL q m /\ exists post, s = m +:+ post.
Proof.
  unfold matchHere.
  destruct (after (String q "http") s) as [r0|] eqn:E0; [|discriminate].
  apply after_Some in E0. cbn [mbind option_bind].
  set (r1 := match r0 with String "s" r => r | _ => r0 end).
  assert (exists scheme, (scheme = "http" \/ scheme = "https")
                         /\ s = String q scheme +:+ r1) as (scheme & Hs & Es).
  { destruct r0 as [|c r]; [exists "http"; auto|].
    destruct (Ascii.eqb_spec c "s") as [->|N].
    - exists "https". split; [auto|]. subst s r1. now push_append.
    - exists "http". split; [auto|]. subst s.
      replace r1 with (String c r); [reflexivity|].
      subst r1. destruct c as [[] [] [] [] [] [] [] []]; try reflexivity.
      contradiction N. reflexivity. }
  clearbody r1. clear E0 r0.
  destruct (after "://" r1) as [r2|] eqn:E2; [|discriminate].
  apply after_Some in E2. cbn [mbind option_bind].
  destruct (url_chars r2) as [|b body'] eqn:Eb; [discriminate|].
  destruct (after (String b body') r2) as [[|c t]|] eqn:E3; try discriminate.
  apply after_Some in E3.
  destruct (Ascii.eqb_spec c q) as [->|N]; [|discriminate].
  intros E. injection E as <-.
  assert (s = String q (scheme +:+ "://" +:+ String b body' +:+ String q EmptyString)
              +:+ t) as Hdec.
  { rewrite Es, E2, E3. now push_append. }
  assert (String.length s - String.length r2 + String.length (String b body') + 1
          = String.length
              (String q (scheme +:+ "://" +:+ String b body' +:+ String q EmptyString)))%nat
    as Hlen.
  { rewrite Es, E2. push_append. cbn [String.length].
    rewrite !length_append. cbn [String.length].
    rewrite !length_append. cbn [String.length]. lia. }
  cbn [String.length] in Hlen |- *. rewrite Hlen.
  assert (JS.slice_to
            (S (String.length
                  (scheme +:+ "://" +:+ String b body' +:+ String q EmptyString))) s
          = String q (scheme +:+ "://" +:+ String b body' +:+ String q EmptyString))
    as ->.
  { rewrite Hdec at 1. now apply slice_to_prefix. }
  split; [|eauto].
  exists scheme, (String b body'). repeat split; try assumption; [discriminate|].
  rewrite <- Eb. apply url_chars_all.
Qed.

(** A quoted URL at the start of [s] is matched, and matched whole. *)
Lemma matchHere_complete (q : ascii) (m post : string) :
  url_char q = false -> quotedURL q m -> matchHere q (m +:+ post) = Some m.
Proof.
  intros Hq (scheme & body & -> & Hs & Hb & Hall).
  set (m := String q (scheme +:+ "://" +:+ body +:+ String q EmptyString)).
  assert (exists r1,
            m +:+ post = String q "http" +:+ r1
            /\ match r1 with String "s" r => r | _ => r1 end
               = "://" +:+ body +:+ String q post) as (r0 & E0 & E1).
  { subst m. destruct Hs as [-> | ->].
    - exists ("://" +:+ body +:+ String q post). split; [|reflexivity].
      now push_append.
    - exists (String "s" ("://" +:+ body +:+ String q post)). split; [|reflexivity].
      now push_append. }
  unfold matchHere. rewrite E0, after_append. cbn [mbind option_bind].
  rewrite E1, after_append. cbn [mbind option_bind].
  rewrite (url_chars_append body q post Hall Hq).
  assert (String.length (String q "http" +:+ r0)
          - String.length (body +:+ String q post) + String.length body + 1
          = String.length m)%nat as ->.
  { rewrite <- E0. subst m.
    repeat (rewrite length_append || cbn [String.length]). lia. }
  rewrite <- E0, slice_to_app.
  destruct body as [|b body']; [congruence|].
  rewrite after_append, Ascii.eqb_refl. reflexivity.
Qed.

Lemma quotedURL_length (q : ascii) (m : string) :
  quotedURL q m -> (2 <= String.length m)%nat.
Proof.
  intros (scheme & body & -> & _ & _ & _). cbn [String.length].
  repeat (rewrite length_append || cbn [String.length]). lia.
Qed.

(** Every match of the scan is a quoted URL of the text, at its index. *)
Lemma matchAllFrom_sound (q : ascii) (s : string) :
  forall (skip index i : nat) (m : string),
    In (i, m) (matchAllFrom q skip index s) ->
    quotedURL q m
    /\ exists pre post, s = pre +:+ m +:+ post /\ (index + String.length pre = i)%nat.
Proof.
  induction s as [|c s IH]; intros skip index i m Hin; [contradiction|].
  assert (forall k, In (i, m) (matchAllFrom q k (S index) s) ->
                    quotedURL q m
                    /\ exists pre post, String c s = pre +:+ m +:+ post
                                        /\ (index + String.length pre = i)%nat) as Tail.
  { intros k Hk. apply IH in Hk as (Hm & pre & post & -> & <-).
    split; [exact Hm|]. exists (String c pre), post. split; [reflexivity|].
    cbn [String.length]. lia. }
  cbn [matchAllFrom] in Hin. destruct skip as [|k]; [|eauto].
  destruct (matchHere q (String c s)) as [m0|] eqn:E0; [|eauto].
  destruct Hin as [E|Hin]; [|eauto].
  injection E as <- <-. apply matchHere_sound in E0 as (Hm & post & ->).
  split; [exact Hm|]. exists EmptyString, post. split; [reflexivity|].
  cbn [String.length]. lia.
Qed.

(** Every quoted URL of the text is matched where it stands, unless its
    opening quote lies inside a match that started earlier. *)
Lemma matchAllFrom_complete (q : ascii) (s : string) :
  url_char q = false ->
  forall (skip index : nat) (pre m post : string),
    s = pre +:+ m +:+ post -> quotedURL q m ->
    (skip <= String.length pre)%nat ->
    In ((index + String.length pre)%nat, m) (matchAllFrom q skip index s)
    \/ exists j m', In (j, m') (matchAllFrom q skip index s)
                    /\ (j < index + String.length pre < j + String.length m')%nat.
Proof.
  intros Hq. induction s as [|c s IH]; intros skip index pre m post Es Hm Hskip.
  - apply quotedURL_length in Hm. apply (f_equal String.length) in Es.
    rewrite !length_append in Es. cbn [String.length] in Es. lia.
  - assert (forall k pre',
              pre = String c pre' -> (k <= String.length pre')%nat ->
              In ((index + String.length pre)%nat, m) (matchAllFrom q k (S index) s)
              \/ exists j m', In (j, m') (matchAllFrom q k (S index) s)
                              /\ (j < index + String.length pre
                                  < j + String.length m')%nat) as Tail.
    { intros k pre' -> Hk. rewrite append_cons in Es. injection Es as Es.
      replace (index + String.length (String c pre'))%nat
        with (S index + String.length pre')%nat by (cbn [String.length]; lia).
      now apply (IH k (S index) pre' m post). }
    cbn [matchAllFrom]. destruct skip as [|k].
    + destruct pre as [|c' pre'].
      * rewrite append_nil in Es. rewrite Es.
        rewrite (matchHere_complete q m post Hq Hm). left. left.
        cbn [String.length]. f_equal. lia.
      * assert (c' = c) as -> by (rewrite append_cons in Es; congruence).
        destruct (matchHere q (String c s)) as [m0|] eqn:E0.
        -- destruct (le_lt_dec (String.length m0 - 1) (String.length pre')) as [L|G].
           ++ destruct (Tail _ pre' eq_refl L) as [H|(j & m' & H & Hj)].
              ** left. right. exact H.
              ** right. exists j, m'. split; [right; exact H | exact Hj].
           ++ right. exists index, m0. split; [left; reflexivity|].
              cbn [String.length]. lia.
        -- apply (Tail 0%nat pre' eq_refl). lia.
    + destruct pre as [|c' pre']; [cbn [String.length] in Hskip; lia|].
      assert (c' = c) as -> by (rewrite append_cons in Es; congruence).
      apply (Tail k pre' eq_refl). cbn [String.length] in Hskip. lia.
Qed.

(** The matches of one scan come in the order of the text. *)
Lemma matchAllFrom_ordered (q : ascii) (s : string) :
  forall skip index : nat,
    Forall (le index) (fst <$> matchAllFrom q skip index s)
    /\ StronglySorted lt (fst <$> matchAllFrom q skip index s).
Proof.
  induction s as [|c s IH]; intros skip index; [split; constructor|].
  assert (forall k,
            Forall (le index) (fst <$> matchAllFrom q k (S index) s)
            /\ Forall (lt index) (fst <$> matchAllFrom q k (S index) s)
            /\ StronglySorted lt (fst <$> matchAllFrom q k (S index) s)) as Tail.
  { intros k. destruct (IH k (S index)) as [Hle Hs]. repeat split; [| |exact Hs].
    - eapply Forall_impl; [exact Hle|]. intros; cbv beta in *; lia.
    - eapply Forall_impl; [exact Hle|]. intros; cbv beta in *; lia. }
  cbn [matchAllFrom]. destruct skip as [|k].
  - destruct (matchHere q (String c s)) as [m0|].
    + destruct (Tail (String.length m0 - 1)%nat) as (Hle & Hlt & Hs).
      cbn [fmap list_fmap fst]. split; constructor; auto.
    + destruct (Tail 0%nat) as (Hle & _ & Hs). auto.
  - destruct (Tail k) as (Hle & _ & Hs). auto.
Qed.

(** None of the three quotes is in the character class of the URLs. *)
Lemma quotes_outside_class (q : ascii) :
  In q ["034"; "'"; "`"]%char -> url_char q = false.
Proof. intros [<-|[<-|[<-|[]]]]; reflexivity. Qed.

(** Stripping the quotes of a match leaves the URL between them. *)
Lemma slice_strips_quotes (q : ascii) (u : string) :
  JS.slice_1_m1 (String q (u +:+ String q EmptyString)) = u.
Proof.
  unfold JS.slice_1_m1. cbn [JS.slice_from String.length].
  rewrite length_append. cbn [String.length].
  replace (S (String.length u + 1) - 2)%nat with (String.length u) by lia.
  apply slice_to_app.
Qed.

(** ** The scan entry points: what the specification states *)

Lemma declared_versions (r : JSRecord) (P : string -> VersionCheckSummaryItem -> Prop) :
  NoDup (keys r) ->
  forall (l : JSRecord) (summary : list VersionCheckSummaryItem),
    (forall e, In e l -> In e r) ->
    Forall2 (fun k item => packageName item = k
                           /\ currentVersion item = get k r /\ P k item)
      (keys l) summary ->
    Forall2 (fun e item => packageName item = fst e
                           /\ currentVersion item = Some (snd e))
      l summary.
Proof.
  intros ND. induction l as [|[k v] l IH]; intros summary Hsub HF.
  - inversion HF. constructor.
  - cbn in HF. apply Forall2_cons_inv_l in HF as (item & items & (Hn & Hc & _) & HF' & ->).
    constructor.
    + split; [exact Hn|]. rewrite Hc. cbn.
      apply (get_of_entry k v r ND). apply Hsub. left. reflexivity.
    + apply IH; [|exact HF']. intros e He. apply Hsub. right. exact He.
Qed.

(** C6. In the manifest scan every summary item carries the name of its
    package and, as current version, the version the manifest declares for
    that name; the resolver contributes the latest version only, whatever it
    returns as current. The scan returns whenever the resolver does.
    Scanning [left-pad] declared at [1.0.0] with a resolver whose latest
    version is [1.3.0] gives exactly one item, and it is [outdated]. *)
Theorem manifest_scan_reports_declared_version :
  (forall (lib : SemverLib) (packages : JSRecord) (resolver : Resolver)
          (w : World) (summary : list VersionCheckSummaryItem) (w' : World),
     checkDepsRecord packages resolver w = (Normal summary, w') ->
     Forall2
       (fun k item =>
          packageName item = k
          /\ currentVersion item = get k packages
          /\ checkVersion k (get k packages) (latestVersion item)
             = Normal (checkResult item)
          /\ exists cur' w1 w2,
               resolver k w1 = (Normal (cur', latestVersion item), w2))
       (keys packages) summary
     /\ (NoDup (keys packages) ->
         Forall2 (fun entry item => packageName item = fst entry
                                    /\ currentVersion item = Some (snd entry))
           packages summary))
  /\ (forall (lib : SemverLib) (packages : JSRecord) (resolver : Resolver)
             (w : World),
        neverThrows resolver ->
        exists summary w',
          checkDepsRecord packages resolver w = (Normal summary, w'))
  /\ (forall (resolver : Resolver) (w w1 : World) (cur' : option string),
        resolver "left-pad" w = (Normal (cur', Some "1.3.0"), w1) ->
        @checkDepsRecord NodeSemver.lib [("left-pad", "1.0.0")] resolver w
        = (Normal [mkItem "left-pad" (Some "1.0.0") (Some "1.3.0") outdated], w1)).
Proof.
  split; [|split].
  - intros lib packages resolver w summary w' E.
    pose proof (checkDepsRecord_items packages resolver w summary w' E) as HF.
    split; [exact HF|]. intros ND.
    apply (declared_versions packages
             (fun k item =>
                checkVersion k (get k packages) (latestVersion item)
                = Normal (checkResult item)
                /\ exists cur' w1 w2,
                     resolver k w1 = (Normal (cur', latestVersion item), w2)) ND);
      [auto | exact HF].
  - intros lib packages resolver w Hr. now apply checkDepsRecord_returns.
  - intros resolver w w1 cur' Hr.
    unfold checkDepsRecord. cbn [keys fmap list_fmap fst forEachPush].
    unfold mbind at 1, M_bind at 1. unfold mbind at 1, M_bind at 1.
    rewrite Hr. reflexivity.
Qed.

Lemma manifest_scan_reports_declared_version_witness :
  @checkDepsRecord NodeSemver.lib [("left-pad", "1.0.0")]
    (constResolver (Some "9.9.9", Some "1.3.0")) initialWorld
  = (Normal [mkItem "left-pad" (Some "1.0.0") (Some "1.3.0") outdated],
     initialWorld).
Proof.
  apply (proj2 (proj2 manifest_scan_reports_declared_version)
           (constResolver (Some "9.9.9", Some "1.3.0"))
           initialWorld initialWorld (Some "9.9.9")).
  reflexivity.
Defined.

(** ** The order of the keys of a parsed object *)

Lemma keys_defineProperty (key value : string) (props : list (string * string)) :
  keys (defineProperty key value props)
  = if decide (key ∈ keys props) then keys props else (keys props ++ [key])%list.
Proof.
  unfold keys. induction props as [|[k v] rest IH]; [reflexivity|].
  cbn [defineProperty]. destruct (decide (k = key)) as [->|Hne].
  - cbn. rewrite decide_True by left. reflexivity.
  - cbn [fmap list_fmap fst] in *. rewrite IH.
    destruct (decide (key ∈ fst <$> rest)) as [Hin|Hin].
    + rewrite decide_True by (now right). reflexivity.
    + rewrite decide_False; [reflexivity|].
      intros [E|E]%elem_of_cons; [congruence | contradiction].
Qed.

Lemma created_snoc (members : list (string * string)) (key value : string) :
  created (members ++ [(key, value)]) = defineProperty key value (created members).
Proof. unfold created. now rewrite fold_left_app. Qed.

Lemma created_keys (members : list (string * string)) :
  NoDup (keys (created members))
  /\ forall key, key ∈ keys (created members) <-> key ∈ fst <$> members.
Proof.
  induction members as [|[k v] members [IHn IHe]] using rev_ind.
  - split; [constructor | reflexivity].
  - rewrite created_snoc, keys_defineProperty, fmap_app. cbn [fmap list_fmap fst].
    destruct (decide (k ∈ keys (created members))) as [Hin|Hin].
    + split; [exact IHn|]. intros key. rewrite elem_of_app, list_elem_of_singleton, <- IHe.
      split; [auto | intros [?| ->]; auto].
    + split.
      * apply NoDup_app. split; [exact IHn|]. split; [|apply NoDup_singleton].
        intros x Hx ->%list_elem_of_singleton. contradiction.
      * intros key. rewrite !elem_of_app, IHe. reflexivity.
Qed.

Lemma created_fresh (members : list (string * string)) :
  NoDup (fst <$> members) -> created members = members.
Proof.
  induction members as [|[k v] members IH] using rev_ind; [reflexivity|].
  rewrite fmap_app. intros (Hn & Hd & _)%NoDup_app.
  rewrite created_snoc, (IH Hn).
  assert (k ∉ fst <$> members) as Hk.
  { intros Hin. apply (Hd k Hin). now left. }
  clear -Hk. induction members as [|[k' v'] members IH]; [reflexivity|].
  cbn [defineProperty]. rewrite decide_False.
  - cbn [app]. f_equal. apply IH. intros Hin. apply Hk. now right.
  - intros ->. apply Hk. now left.
Qed.

Lemma insertByIndex_perm (e : N * (string * string)) (sorted : list (N * (string * string))) :
  insertByIndex e sorted ≡ₚ e :: sorted.
Proof.
  induction sorted as [|e' rest IH]; [reflexivity|]. cbn [insertByIndex].
  destruct (fst e <=? fst e')%N; [reflexivity|].
  rewrite IH. apply Permutation_swap.
Qed.

Lemma insertByIndex_sorted (e : N * (string * string)) (sorted : list (N * (string * string))) :
  StronglySorted N.le (fst <$> sorted) ->
  StronglySorted N.le (fst <$> insertByIndex e sorted).
Proof.
  induction sorted as [|e' rest IH]; intros Hs.
  - repeat constructor.
  - cbn [insertByIndex]. destruct (N.leb_spec (fst e) (fst e')) as [Hle|Hgt].
    + cbn [fmap list_fmap] in *. constructor; [exact Hs|].
      apply StronglySorted_inv in Hs as [_ Hall]. constructor; [exact Hle|].
      eapply Forall_impl; [exact Hall|]. cbn. intros; lia.
    + cbn [fmap list_fmap] in *. apply StronglySorted_inv in Hs as [Hs Hall].
      constructor; [now apply IH|].
      rewrite (insertByIndex_perm e rest). cbn [fmap list_fmap].
      constructor; [lia | exact Hall].
Qed.

Lemma sortByIndex (l : list (N * (string * string))) :
  foldr insertByIndex [] l ≡ₚ l
  /\ StronglySorted N.le (fst <$> foldr insertByIndex [] l).
Proof.
  induction l as [|e l [IHp IHs]]; [split; [reflexivity | constructor]|].
  cbn [foldr]. split.
  - now rewrite insertByIndex_perm, IHp.
  - now apply insertByIndex_sorted.
Qed.

Lemma indexed_keys (props : list (string * string)) :
  fst <$> (snd <$> omap indexed props)
  = filter (fun key => is_Some (arrayIndex key)) (fst <$> props)
  /\ Forall (fun ne => arrayIndex (fst (snd ne)) = Some (fst ne)) (omap indexed props).
Proof.
  induction props as [|[k v] props [IHk IHf]]; [split; [reflexivity | constructor]|].
  cbn [omap list_omap fmap list_fmap fst]. rewrite filter_cons.
  replace (indexed (k, v)) with (n ← arrayIndex k; Some (n, (k, v))) by reflexivity.
  destruct (arrayIndex k) as [n|] eqn:E; cbn.
  - rewrite decide_True by eauto. split; [now f_equal|].
    constructor; [exact E | exact IHf].
  - rewrite decide_False by (intros [? ?]; discriminate). now split.
Qed.

Lemma keys_filter (P : string -> Prop) `{forall key, Decision (P key)}
    (props : list (string * string)) :
  fst <$> filter (fun e => P (fst e)) props = filter P (fst <$> props).
Proof.
  induction props as [|[k v] props IH]; [reflexivity|].
  cbn [fmap list_fmap fst]. rewrite !filter_cons. cbn [fst].
  destruct (decide (P k)); cbn [fmap list_fmap fst]; now rewrite IH.
Qed.

Lemma parsedRecord_keys (members : list (string * string)) :
  exists indices ns,
    keys (parsedRecord members)
    = (indices ++ filter (fun key => arrayIndex key = None) (keys (created members)))%list
    /\ indices ≡ₚ filter (fun key => is_Some (arrayIndex key)) (keys (created members))
    /\ arrayIndex <$> indices = Some <$> ns
    /\ StronglySorted N.le ns.
Proof.
  unfold parsedRecord, keys. set (props := created members).
  destruct (sortByIndex (omap indexed props)) as [Hp Hs].
  destruct (indexed_keys props) as [Hk Hf].
  exists (fst <$> (snd <$> foldr insertByIndex [] (omap indexed props))),
         (fst <$> foldr insertByIndex [] (omap indexed props)).
  split; [|split; [|split]].
  - rewrite fmap_app. f_equal. exact (keys_filter (fun key => arrayIndex key = None) props).
  - rewrite <- Hk. now rewrite Hp.
  - rewrite <- Hp in Hf. clear -Hf.
    induction Hf as [|ne l E _ IH]; [reflexivity|].
    cbn [fmap list_fmap]. now rewrite E, IH.
  - exact Hs.
Qed.

Lemma parsedRecord_plain (members : list (string * string)) :
  Forall (fun key => arrayIndex key = None) (fst <$> members) ->
  parsedRecord members = created members.
Proof.
  intros Hf. unfold parsedRecord.
  assert (Forall (fun key => arrayIndex key = None) (fst <$> created members)) as Hc.
  { apply Forall_forall. intros key Hkey.
    apply (proj2 (created_keys members)) in Hkey.
    exact (proj1 (Forall_forall _ _) Hf key Hkey). }
  clear Hf.
  assert (omap indexed (created members) = []
          /\ filter (fun e => arrayIndex (fst e) = None) (created members)
             = created members) as [-> ->]; [|reflexivity].
  induction (created members) as [|[k v] props IH]; [split; reflexivity|].
  cbn [fmap list_fmap fst] in Hc. apply Forall_cons in Hc as [Hk Hc].
  destruct (IH Hc) as [IHo IHf]. split.
  - cbn [omap list_omap].
    replace (indexed (k, v)) with (n ← arrayIndex k; Some (n, (k, v))) by reflexivity.
    rewrite Hk. exact IHo.
  - rewrite filter_cons, decide_True by exact Hk. now f_equal.
Qed.

(** C9, as stated, fails. For the record scans: the keys of an object that
    are array indices are iterated first, so the record written as
    [left-pad], [7], [oak] is reported as [7], [left-pad], [oak]. For the
    free-text scan: the matches of the three patterns are concatenated
    pattern by pattern, so a double-quoted URL is reported before a
    single-quoted one that stands earlier in the text; and a URL whose
    opening quote is the closing quote of the match before it is not
    found. *)
Lemma scan_order_counterexample :
  ~ (forall (members : list (string * string))
            (summary : list VersionCheckSummaryItem) (w' : World),
       @checkDepsRecord NodeSemver.lib (parsedRecord members)
         (constResolver (None, None)) initialWorld = (Normal summary, w') ->
       packageName <$> summary = fst <$> members)
  /\ (extractURLs reversedText = ["https://example.com/a/b"; "https://example.com/c"]
      /\ fst <$> urlMatches reversedText = [53; 14]%nat
      /\ ~ StronglySorted lt (fst <$> urlMatches reversedText))
  /\ (extractURLs abuttingText = ["https://a.example/x"]
      /\ quotedURL "034" (dq "https://b.example/y")
      /\ occursAt abuttingText 20 (dq "https://b.example/y")).
Proof.
  split; [|split; [split; [reflexivity | split; [reflexivity|]]
                  | split; [reflexivity | split]]].
  - intros H.
    destruct (@checkDepsRecord NodeSemver.lib
                (parsedRecord [("left-pad", "1.0.0"); ("7", "2.0.0"); ("oak", "3.0.0")])
                (constResolver (None, None)) initialWorld)
      as [[summary|e] w'] eqn:E.
    + specialize (H _ summary w' E). vm_compute in E. injection E as <- <-.
      vm_compute in H. discriminate H.
    + vm_compute in E. discriminate E.
  - change (fst <$> urlMatches reversedText) with [53; 14]%nat.
    intros H. apply StronglySorted_inv in H as [_ H].
    apply Forall_inv in H. lia.
  - exists "https", "b.example/y". repeat split; auto; discriminate.
  - exists (String "034" "https://a.example/x"), EmptyString. split; reflexivity.
Qed.

(** C9, amended. Each scan returns exactly one summary item per reference,
    in the order in which the references are iterated, the name of the item
    being the key (record and import-map scans) or the URL (free-text scan),
    so that a reference that is iterated twice is reported twice; each scan
    returns whenever the resolver does. The keys of a parsed object are
    iterated as [Object.keys] lists them: the keys that are array indices
    first, in ascending order, then the other keys in the order of their
    creation, which is the order in which they are first written; when no
    key is an array index this is the order of creation alone, and when
    none is written twice the order of creation is the order in which the
    members are written. The free-text scan iterates over all
    double-quoted matches, then all single-quoted ones, then all back-quoted
    ones, each group from left to right. Every match is a quoted [http] or
    [https] URL over the character class standing in the text at the index of
    the match, and it is reported without its quotes; every such URL of the
    text is matched, unless its opening quote lies inside an earlier match
    of the same pattern. A text with a double-quoted and a single-quoted URL
    gives exactly these two URLs. *)
Theorem scans_report_each_reference_in_iteration_order :
  (forall (lib : SemverLib) (resolver : Resolver) (w : World)
          (summary : list VersionCheckSummaryItem) (w' : World),
     (forall packages : JSRecord,
        checkDepsRecord packages resolver w = (Normal summary, w') ->
        packageName <$> summary = keys packages)
     /\ (forall packages : ImportMap,
           checkDepsImportMap packages resolver w = (Normal summary, w') ->
           packageName <$> summary = keys (imports packages))
     /\ (forall text : string,
           checkURLStringsEsInText text resolver w = (Normal summary, w') ->
           packageName <$> summary = extractURLs text))
  /\ (forall (lib : SemverLib) (resolver : Resolver) (w : World),
        neverThrows resolver ->
        (forall packages : JSRecord,
           exists summary w',
             checkDepsRecord packages resolver w = (Normal summary, w'))
        /\ (forall packages : ImportMap,
              exists summary w',
                checkDepsImportMap packages resolver w = (Normal summary, w'))
        /\ (forall text : string,
              exists summary w',
                checkURLStringsEsInText text resolver w = (Normal summary, w')))
  /\ (forall members : list (string * string),
        (exists indices ns,
           keys (parsedRecord members)
           = (indices
              ++ filter (fun key => arrayIndex key = None) (keys (created members)))%list
           /\ indices ≡ₚ filter (fun key => is_Some (arrayIndex key))
                           (keys (created members))
           /\ arrayIndex <$> indices = Some <$> ns
           /\ StronglySorted N.le ns)
        /\ NoDup (keys (created members))
        /\ (forall key, key ∈ keys (created members) <-> key ∈ fst <$> members)
        /\ (forall key value : string,
              keys (created (members ++ [(key, value)]))
              = if decide (key ∈ keys (created members))
                then keys (created members)
                else (keys (created members) ++ [key])%list)
        /\ (Forall (fun key => arrayIndex key = None) (fst <$> members) ->
            parsedRecord members = created members)
        /\ (NoDup (fst <$> members) -> created members = members))
  /\ (forall text : string,
        extractURLs text
        = (fun m => JS.slice_1_m1 (snd m))
            <$> (matchAll "034" text ++ matchAll "'" text ++ matchAll "`" text)%list
        /\ forall q : ascii, StronglySorted lt (fst <$> matchAll q text))
  /\ (forall (text : string) (q : ascii) (i : nat) (m : string),
        In q ["034"; "'"; "`"]%char ->
        In (i, m) (matchAll q text) ->
        quotedURL q m /\ occursAt text i m
        /\ exists u, m = String q (u +:+ String q EmptyString)
                     /\ JS.slice_1_m1 m = u)
  /\ (forall (text : string) (q : ascii) (i : nat) (m : string),
        In q ["034"; "'"; "`"]%char ->
        quotedURL q m -> occursAt text i m ->
        In (i, m) (matchAll q text)
        \/ exists j m', In (j, m') (matchAll q text)
                        /\ (j < i < j + String.length m')%nat)
  /\ extractURLs importsText = ["https://example.com/a/b"; "https://example.com/c"]
  /\ extractURLs repeatedText = ["https://example.com/a/b"; "https://example.com/a/b"].
Proof.
  split; [|split; [|split; [|split; [|split; [|split; [|split]]]]]].
  - intros lib resolver w summary w'. split; [|split].
    + intros packages E. apply checkDepsRecord_items in E.
      rewrite <- (list_fmap_id (keys packages)).
      eapply (names_of_items _ id), E.
    + intros packages E. apply checkDepsImportMap_items in E.
      rewrite <- (list_fmap_id (keys (imports packages))).
      eapply (names_of_items _ id), E.
    + intros text E. apply checkURLStringsEsInText_items in E.
      rewrite <- (list_fmap_id (extractURLs text)).
      eapply (names_of_items _ id), E.
  - intros lib resolver w Hr. split; [|split]; intros x.
    + now apply checkDepsRecord_returns.
    + now apply checkDepsImportMap_returns.
    + now apply checkURLStringsEsInText_returns.
  - intros members. split; [|split; [|split; [|split; [|split]]]].
    + apply parsedRecord_keys.
    + apply created_keys.
    + apply created_keys.
    + intros key value. now rewrite created_snoc, keys_defineProperty.
    + apply parsedRecord_plain.
    + apply created_fresh.
  - intros text. split; [reflexivity|].
    intros q. apply (matchAllFrom_ordered q text 0 0).
  - intros text q i m Hq Hin.
    apply matchAllFrom_sound in Hin as (Hm & pre & post & E & Hi).
    split; [exact Hm|]. split; [exists pre, post; auto|].
    destruct Hm as (scheme & body & -> & _).
    exists (scheme +:+ "://" +:+ body). split.
    + now rewrite !append_assoc.
    + rewrite <- slice_strips_quotes with (q := q) (u := scheme +:+ "://" +:+ body).
      now rewrite !append_assoc.
  - intros text q i m Hq Hm (pre & post & E & <-).
    apply (matchAllFrom_complete q text (quotes_outside_class q Hq) 0 0 pre m post E Hm).
    lia.
  - reflexivity.
  - reflexivity.
Qed.

Lemma scans_report_each_reference_in_iteration_order_witness :
  (exists summary w',
     @checkURLStringsEsInText NodeSemver.lib importsText
       (constResolver (None, None)) initialWorld = (Normal summary, w'))
  /\ parsedRecord [("left-pad", "1.0.0"); ("oak", "3.0.0")]
     = created [("left-pad", "1.0.0"); ("oak", "3.0.0")]
  /\ created [("left-pad", "1.0.0"); ("oak", "3.0.0")]
     = [("left-pad", "1.0.0"); ("oak", "3.0.0")]
  /\ (In (14%nat, dq "https://example.com/a/b") (matchAll "034" importsText)
      \/ exists j m', In (j, m') (matchAll "034" importsText)
                      /\ (j < 14 < j + String.length m')%nat).
Proof.
  pose proof scans_report_each_reference_in_iteration_order
    as (_ & Hreturns & Hkeys & _ & _ & Hcomplete & _).
  destruct (Hkeys [("left-pad", "1.0.0"); ("oak", "3.0.0")])
    as (_ & _ & _ & _ & Hplain & Hfresh).
  split; [|split; [|split]].
  - apply (Hreturns NodeSemver.lib (constResolver (None, None)) initialWorld).
    intros x w. exists (None, None), w. reflexivity.
  - apply Hplain. repeat (constructor; [reflexivity|]). constructor.
  - apply Hfresh.
    apply NoDup_cons. split; [intros H%list_elem_of_singleton; discriminate H|].
    apply NoDup_singleton.
  - apply (Hcomplete importsText "034"%char 14%nat (dq "https://example.com/a/b")).
    + left. reflexivity.
    + exists "https", "example.com/a/b". repeat split; auto; discriminate.
    + exists "import a from ", "; import c from 'https://example.com/c';".
      split; reflexivity.
Defined.

(** ** The pipelines run on examples *)

Example tilde_range_outdated :
  @checkVersion NodeSemver.lib "left-pad" (Some "~2.3.0") (Some "2.4.0")
  = Normal outdated.
Proof. reflexivity. Qed.

Example x_range_not_fixed :
  @checkVersion NodeSemver.lib "left-pad" (Some "1.x") (Some "1.9.9")
  = Normal not_fixed.
Proof. reflexivity. Qed.

Example x_range_outdated :
  @checkVersion NodeSemver.lib "left-pad" (Some "1.x") (Some "2.0.0")
  = Normal outdated.
Proof. reflexivity. Qed.

Example tag_is_invalid :
  @checkVersion NodeSemver.lib "left-pad" (Some "latest") (Some "2.0.0")
  = Normal invalid_version.
Proof. reflexivity. Qed.

(** An import map with one [npm:] entry, against a registry at [2.1.0]: the
    item is keyed by the alias, its current version is the one the resolver
    reads off the locator, and one request goes out. *)
Example import_map_npm_entry :
  exists w' : World,
    @checkDepsImportMap NodeSemver.lib (mkImportMap [("foo", "npm:foo@2.0.0")])
      (@createDenoURLResolver NodeSemver.lib (networkAt "2.1.0") simpleURL)
      initialWorld
    = (Normal [mkItem "foo" (Some "2.0.0") (Some "2.1.0") outdated], w')
    /\ requests w' = [Fetch "https://registry.npmjs.org/foo"].
Proof. eexists. split; reflexivity. Qed.

(** A module of [deno.land/x] pinned at the latest version. *)
Example free_text_deno_land :
  exists w' : World,
    @checkURLStringsEsInText NodeSemver.lib
      ("import { a } from " +:+ dq "https://deno.land/x/oak@2.1.0/mod.ts")
      (@createDenoURLResolver NodeSemver.lib (networkAt "2.1.0") simpleURL)
      initialWorld
    = (Normal [mkItem "https://deno.land/x/oak@2.1.0/mod.ts"
                 (Some "2.1.0") (Some "2.1.0") latest], w')
    /\ requests w' = [Fetch "https://apiland.deno.dev/v2/modules/oak"].
Proof. eexists. split; reflexivity. Qed.

(** A file of a GitHub repository read at a branch: the release tag is
    cleaned into a version, and the branch name is not a version. *)
Example free_text_github :
  exists w' : World,
    @checkURLStringsEsInText NodeSemver.lib
      ("import { a } from "
       +:+ dq "https://raw.githubusercontent.com/denoland/deno_std/main/version.ts")
      (@createDenoURLResolver NodeSemver.lib (networkAt "2.1.0") simpleURL)
      initialWorld
    = (Normal [mkItem "https://raw.githubusercontent.com/denoland/deno_std/main/version.ts"
                 (Some "main") (Some "2.1.0") invalid_version], w')
    /\ gitHubCache w' !! "denoland/deno_std" = Some (Some "2.1.0").
Proof. eexists. split; reflexivity. Qed.

(** * More of [checkDeps.ts] *)

(** ** Name and version, for every reference *)

(** [decomposePackageNameVersion] cuts its argument in two without losing a
    character: the name is a prefix, and what follows it is nothing (then
    the version is empty) or an [@] and the version. The version holds no
    [@], and the name is empty only for the empty reference. *)
Theorem decompose_reassembles (s : string) :
  exists n v rest,
    decomposePackageNameVersion s = (n, v)
    /\ s = n +:+ rest
    /\ ((rest = EmptyString /\ v = EmptyString) \/ rest = String "@" v)
    /\ occurs "@" v = false
    /\ (n = EmptyString <-> s = EmptyString).
Proof.
  destruct (decompose_spec s) as (n & v & E & [(Hs & Hn & Hv) | (Hn & Hv & _)]).
  - exists n, v, (String "@" v). repeat split; auto.
    + intros ->. contradiction.
    + intros ->. destruct n; [contradiction | discriminate].
  - subst n v. exists s, EmptyString, EmptyString. repeat split; auto.
    clear. induction s as [|c s IH]; [reflexivity|].
    rewrite append_cons. now rewrite <- IH.
Qed.

(** ** One lookup at a time *)

Lemma oneLookup_refl (w : World) : oneLookup w w.
Proof. split; auto. Qed.

Lemma cachedString_None_ne (m : gmap string (option string)) (key k v : string) :
  cachedString (m !! key) = None -> m !! k = Some (Some v) -> key <> k.
Proof. intros Hc Hk ->. rewrite Hk in Hc. discriminate. Qed.

(** A request followed by a write under a key that held no string. *)
Lemma oneLookup_request_set (c : CacheId) (key : string) (value : option string)
    (r : Request) (w : World) :
  cachedString (cacheOf c w !! key) = None ->
  oneLookup w (withCache c (<[key := value]> (cacheOf c (withRequest r w)))
                 (withRequest r w)).
Proof.
  intros Hc. split.
  - right. exists r. destruct c; reflexivity.
  - intros c0 k v Hk.
    destruct c, c0; cbn in *; try exact Hk;
      (rewrite lookup_insert_ne; [exact Hk|]);
      eapply cachedString_None_ne; eassumption.
Qed.

Lemma oneLookup_request (r : Request) (w : World) : oneLookup w (withRequest r w).
Proof.
  split; [right; exists r; reflexivity|]. intros c k v H. destruct c; exact H.
Qed.

Section OneLookup.

Context {lib : SemverLib} {net : Network} {urls : URLLib}.

Lemma npm_oneLookup (pkgName : string) (w : World)
    (r : Completion VersionPair) (w' : World) :
  createNpmResolver pkgName w = (r, w') ->
  oneLookup w w'
  /\ denoLandCache w' = denoLandCache w /\ gitHubCache w' = gitHubCache w
  /\ (requests w' = requests w
      \/ requests w'
         = (requests w ++ [Fetch ("https://registry.npmjs.org/" +:+ pkgName)])%list)
  /\ forall p, r = Normal p -> fst p = None.
Proof.
  unfold createNpmResolver, mbind, M_bind, cacheGet. simpl.
  destruct (cachedString (npmCache w !! pkgName)) as [v|] eqn:Hc.
  - intros E. injection E as <- <-. repeat split; auto using oneLookup_refl.
    intros p E. injection E as <-. reflexivity.
  - unfold doFetch.
    destruct (fetch (requests w) _) as [[[field|e]|status]|e]; cbn;
      intros E; injection E as <- <-; repeat split; auto;
      try (apply (oneLookup_request_set npmDepsCache); exact Hc);
      try apply oneLookup_request;
      try (intros p E; (discriminate E || (injection E as <-; reflexivity))).
Qed.

Lemma denoLand_oneLookup (url : URL) (w : World)
    (r : Completion VersionPair) (w' : World) :
  resolveDenoLand url w = (r, w') -> oneLookup w w'.
Proof.
  unfold resolveDenoLand.
  destruct (if decide (pathOf url !! 0%nat = Some "x") then pathOf url !! 1%nat
            else pathOf url !! 0%nat) as [pkgStr|].
  - destruct (decomposePackageNameVersion pkgStr) as [pkgName pkgVersion].
    unfold mbind, M_bind, cacheGet. simpl.
    destruct (cachedString (denoLandCache w !! pkgName)) as [v|] eqn:Hc.
    + intros E. injection E as <- <-. apply oneLookup_refl.
    + unfold doFetch.
      destruct (fetch (requests w) _) as [[[field|e]|status]|e]; cbn;
        intros E; injection E as <- <-;
        try (apply (oneLookup_request_set denoLandDepsCache); exact Hc);
        apply oneLookup_request.
  - intros E. injection E as <- <-. apply oneLookup_refl.
Qed.

Lemma gitHub_oneLookup (url : URL) (w : World)
    (r : Completion VersionPair) (w' : World) :
  resolveGitHub url w = (r, w') -> oneLookup w w'.
Proof.
  unfold resolveGitHub, mbind, M_bind, cacheGet. simpl.
  destruct (cachedString (gitHubCache w !! _)) as [v|] eqn:Hc.
  - intros E. injection E as <- <-. apply oneLookup_refl.
  - unfold doGetLatestRelease.
    destruct (getLatestRelease (requests w) _ _) as [tag|e]; cbn;
      intros E; injection E as <- <-.
    + apply (oneLookup_request_set gitHubDepsCache). exact Hc.
    + apply oneLookup_request.
Qed.

Lemma dispatch_oneLookup (s : string) (w : World)
    (r : Completion VersionPair) (w' : World) :
  createDenoURLResolver s w = (r, w') -> oneLookup w w'.
Proof.
  unfold createDenoURLResolver.
  destruct (JS.startsWith s "npm:").
  - destruct (decomposePackageNameVersion _) as [pkgName pkgVersion].
    unfold mbind, M_bind.
    destruct (npmResolver pkgName w) as [[[c l]|e] w1] eqn:En;
      intros E; injection E as <- <-; now apply npm_oneLookup in En.
  - destruct (parseURL s) as [url|].
    + destruct (decide _); [apply denoLand_oneLookup|].
      destruct (decide _); [apply gitHub_oneLookup|].
      intros E. injection E as <- <-. apply oneLookup_refl.
    + intros E. injection E as <- <-. apply oneLookup_refl.
Qed.

End OneLookup.

(** The registry resolver never reports a current version, writes to no
    cache but its own, and sends at most one request, to the address of the
    package at the registry. *)
Theorem npm_resolver_footprint :
  forall (net : Network) (pkgName : string) (w : World)
         (r : Completion VersionPair) (w' : World),
    createNpmResolver pkgName w = (r, w') ->
    (forall p, r = Normal p -> fst p = None)
    /\ denoLandCache w' = denoLandCache w
    /\ gitHubCache w' = gitHubCache w
    /\ (requests w' = requests w
        \/ requests w'
           = (requests w ++ [Fetch ("https://registry.npmjs.org/" +:+ pkgName)])%list).
Proof.
  intros net pkgName w r w' E. apply npm_oneLookup in E. tauto.
Qed.

Lemma npm_resolver_footprint_witness :
  (forall p : VersionPair, Normal (None, Some "1.3.0") = Normal p -> fst p = None)
  /\ denoLandCache
       (withCache npmDepsCache {[ "left-pad" := Some "1.3.0" ]}
          (withRequest (Fetch "https://registry.npmjs.org/left-pad") initialWorld))
     = denoLandCache initialWorld
  /\ gitHubCache
       (withCache npmDepsCache {[ "left-pad" := Some "1.3.0" ]}
          (withRequest (Fetch "https://registry.npmjs.org/left-pad") initialWorld))
     = gitHubCache initialWorld
  /\ (requests
        (withCache npmDepsCache {[ "left-pad" := Some "1.3.0" ]}
           (withRequest (Fetch "https://registry.npmjs.org/left-pad") initialWorld))
      = requests initialWorld
      \/ requests
           (withCache npmDepsCache {[ "left-pad" := Some "1.3.0" ]}
              (withRequest (Fetch "https://registry.npmjs.org/left-pad") initialWorld))
         = (requests initialWorld
            ++ [Fetch ("https://registry.npmjs.org/" +:+ "left-pad")])%list).
Proof.
  apply (npm_resolver_footprint (networkAt "1.3.0") "left-pad" initialWorld).
  reflexivity.
Defined.

(** Whatever the URL-dispatch resolver is given and however the network
    answers, one call sends at most one request, and the log of requests is
    only ever extended. *)
Theorem dispatch_sends_at_most_one_request :
  forall (lib : SemverLib) (net : Network) (urls : URLLib) (s : string)
         (w : World) (r : Completion VersionPair) (w' : World),
    createDenoURLResolver s w = (r, w') ->
    requests w' = requests w
    \/ exists req, requests w' = (requests w ++ [req])%list.
Proof.
  intros lib net urls s w r w' E. apply dispatch_oneLookup in E. apply E.
Qed.

Lemma dispatch_sends_at_most_one_request_witness :
  requests (withCache denoLandDepsCache {[ "oak" := Some "2.1.0" ]}
              (withRequest (Fetch "https://apiland.deno.dev/v2/modules/oak")
                 initialWorld))
  = requests initialWorld
  \/ exists req,
       requests (withCache denoLandDepsCache {[ "oak" := Some "2.1.0" ]}
                   (withRequest (Fetch "https://apiland.deno.dev/v2/modules/oak")
                      initialWorld))
       = (requests initialWorld ++ [req])%list.
Proof.
  apply (dispatch_sends_at_most_one_request NodeSemver.lib (networkAt "2.1.0")
           simpleURL "https://deno.land/x/oak@2.0.0/mod.ts" initialWorld
           (Normal (Some "2.0.0", Some "2.1.0"))).
  reflexivity.
Defined.

(** A version string that one of the three caches holds is never removed or
    replaced by a call of the URL-dispatch resolver: the caches are not
    invalidated. *)
Theorem cached_versions_persist :
  forall (lib : SemverLib) (net : Network) (urls : URLLib) (s : string)
         (w : World) (r : Completion VersionPair) (w' : World)
         (c : CacheId) (k v : string),
    createDenoURLResolver s w = (r, w') ->
    cacheOf c w !! k = Some (Some v) ->
    cacheOf c w' !! k = Some (Some v).
Proof.
  intros lib net urls s w r w' c k v E. apply dispatch_oneLookup in E.
  apply E.
Qed.

Lemma cached_versions_persist_witness :
  cacheOf npmDepsCache
    (withCache npmDepsCache (<[ "foo" := Some "2.1.0" ]> {[ "bar" := Some "1.0.0" ]})
       (withRequest (Fetch "https://registry.npmjs.org/foo")
          (withCache npmDepsCache {[ "bar" := Some "1.0.0" ]} initialWorld)))
    !! "bar" = Some (Some "1.0.0").
Proof.
  apply (cached_versions_persist NodeSemver.lib (networkAt "2.1.0") simpleURL
           "npm:foo@2.0.0"
           (withCache npmDepsCache {[ "bar" := Some "1.0.0" ]} initialWorld)
           (Normal (Some "2.0.0", Some "2.1.0"))).
  - reflexivity.
  - reflexivity.
Defined.

(** ** Paths of module addresses *)

Lemma occurs_append (c : ascii) (a b : string) :
  occurs c (a +:+ b) = occurs c a || occurs c b.
Proof.
  induction a as [|x a IH]; [reflexivity|].
  rewrite append_cons. simpl. now rewrite IH, orb_assoc.
Qed.

Lemma split_no_sep (sep : ascii) (seg : string) :
  occurs sep seg = false -> JS.split sep seg = [seg].
Proof.
  induction seg as [|a seg IH]; [reflexivity|]. simpl.
  intros H. apply orb_false_elim in H as [-> H]. now rewrite (IH H).
Qed.

Lemma split_segment (sep : ascii) (seg rest : string) :
  occurs sep seg = false ->
  JS.split sep (seg +:+ String sep rest) = seg :: JS.split sep rest.
Proof.
  induction seg as [|a seg IH].
  - intros _. rewrite append_nil. simpl. now rewrite Ascii.eqb_refl.
  - rewrite append_cons. simpl.
    intros H. apply orb_false_elim in H as [-> H]. now rewrite (IH H).
Qed.

Lemma split_segment_end (sep : ascii) (seg tail : string) :
  occurs sep seg = false ->
  tail = EmptyString \/ (exists t, tail = String sep t) ->
  exists more, JS.split sep (seg +:+ tail) = seg :: more.
Proof.
  intros Hseg [-> | (t & ->)].
  - exists []. replace (seg +:+ EmptyString) with seg.
    + now apply split_no_sep.
    + clear. induction seg as [|a seg IH]; [reflexivity|].
      rewrite append_cons. now rewrite <- IH.
  - exists (JS.split sep t). now apply split_segment.
Qed.

(** The path of a module of [deno.land/x] starts with [x] and the segment
    that names the module and its version. *)
Lemma denoLand_path_segments (host name version tail : string) :
  occurs "/" name = false -> occurs "/" version = false -> segmentEnd tail ->
  exists more,
    pathOf (mkURL host (denoLandPath name version tail))
    = "x" :: (name +:+ String "@" version) :: more.
Proof.
  intros Hn Hv Ht. unfold pathOf, denoLandPath. cbn [pathname].
  destruct (split_segment_end "/" (name +:+ String "@" version) tail)
    as (more & Hmore); [|exact Ht|].
  { rewrite occurs_append, Hn. simpl. exact Hv. }
  exists more. push_append.
  change (String "/" (String "x" (String "/" (name +:+ String "@" (version +:+ tail)))))
    with (String "/" ("x" +:+ String "/" (name +:+ String "@" (version +:+ tail)))).
  cbn [JS.split]. rewrite Ascii.eqb_refl.
  rewrite (split_segment "/" "x") by reflexivity.
  cbn [drop]. f_equal.
  rewrite <- Hmore. f_equal. now push_append.
Qed.

Section MoreResolvers.

Context {lib : SemverLib} {net : Network}.

(** On such a path, [resolveDenoLand] is the cached lookup of the name. *)
Lemma denoLand_module_lookup (host name version tail : string) (w : World) :
  name <> EmptyString ->
  occurs "/" name = false -> occurs "/" version = false ->
  occurs "@" version = false -> segmentEnd tail ->
  resolveDenoLand (mkURL host (denoLandPath name version tail)) w
  = match cachedString (denoLandCache w !! name) with
    | Some cachedVersion => (Normal (Some version, Some cachedVersion), w)
    | None =>
        (res ← doFetch ("https://apiland.deno.dev/v2/modules/" +:+ name);
         match res with
         | ResNotOk _ =>
             _ ← cacheSet denoLandDepsCache name None;
             mret (Some version, None)
         | ResOk field =>
             latestVersion ← liftC field;
             _ ← cacheSet denoLandDepsCache name latestVersion;
             mret (Some version, latestVersion)
         end) w
    end.
Proof.
  intros Hne Hn Hv Hat Ht.
  destruct (denoLand_path_segments host name version tail Hn Hv Ht) as (more & Hp).
  unfold resolveDenoLand. rewrite Hp. cbn [lookup list_lookup].
  destruct (decide (Some "x" = Some "x")) as [_|N]; [|contradiction N; reflexivity].
  rewrite (decompose_versioned name version Hne Hat).
  unfold mbind at 1, M_bind at 1, cacheGet. cbn [cacheOf].
  destruct (cachedString (denoLandCache w !! name)); reflexivity.
Qed.

End MoreResolvers.

(** The cache of [deno.land] is keyed by the name of the module alone: once
    one version of a module has been looked up and the service has answered
    with a version string, the lookup for any other version of the module
    sends no request and reports the same latest version, next to the
    version its own address carries. *)
Theorem denoLand_versions_share_one_lookup :
  forall (net : Network) (host1 host2 name v1 v2 tail1 tail2 latestVersion : string)
         (w : World),
    name <> EmptyString -> occurs "/" name = false ->
    occurs "/" v1 = false -> occurs "@" v1 = false -> segmentEnd tail1 ->
    occurs "/" v2 = false -> occurs "@" v2 = false -> segmentEnd tail2 ->
    cachedString (denoLandCache w !! name) = None ->
    fetch (requests w) ("https://apiland.deno.dev/v2/modules/" +:+ name)
    = Normal (ResOk (Normal (Some latestVersion))) ->
    exists w1,
      resolveDenoLand (mkURL host1 (denoLandPath name v1 tail1)) w
      = (Normal (Some v1, Some latestVersion), w1)
      /\ resolveDenoLand (mkURL host2 (denoLandPath name v2 tail2)) w1
         = (Normal (Some v2, Some latestVersion), w1)
      /\ requests w1
         = (requests w ++ [Fetch ("https://apiland.deno.dev/v2/modules/" +:+ name)])%list.
Proof.
  intros net host1 host2 name v1 v2 tail1 tail2 latestVersion w
    Hne Hn Hv1 Ha1 Ht1 Hv2 Ha2 Ht2 Hc Hf.
  eexists. split; [|split].
  - rewrite (denoLand_module_lookup host1 name v1 tail1 w) by assumption.
    rewrite Hc. unfold mbind, M_bind, doFetch. rewrite Hf. cbn. reflexivity.
  - rewrite denoLand_module_lookup by assumption.
    cbn [denoLandCache withCache cacheOf]. rewrite lookup_insert_eq. reflexivity.
  - reflexivity.
Qed.

Lemma denoLand_versions_share_one_lookup_witness :
  exists w1,
    @resolveDenoLand (networkAt "2.1.0")
      (mkURL "deno.land" (denoLandPath "oak" "2.0.0" "/mod.ts")) initialWorld
    = (Normal (Some "2.0.0", Some "2.1.0"), w1)
    /\ @resolveDenoLand (networkAt "2.1.0")
         (mkURL "deno.land" (denoLandPath "oak" "1.0.0" EmptyString)) w1
       = (Normal (Some "1.0.0", Some "2.1.0"), w1)
    /\ requests w1
       = (requests initialWorld
          ++ [Fetch ("https://apiland.deno.dev/v2/modules/" +:+ "oak")])%list.
Proof.
  apply (denoLand_versions_share_one_lookup (networkAt "2.1.0")
           "deno.land" "deno.land" "oak" "2.0.0" "1.0.0" "/mod.ts" EmptyString
           "2.1.0" initialWorld);
    try reflexivity; try discriminate.
  - right. exists "mod.ts". reflexivity.
  - left. reflexivity.
Defined.

(** [resolveDenoLand] throws a [TypeError] before anything is looked up
    exactly when the path of the address, without its first piece, is empty
    or is the single segment [x]: there is then no segment to take the name
    of the module from. *)
Theorem denoLand_without_module_segment_throws :
  forall (net : Network) (url : URL) (w : World),
    (exists msg, resolveDenoLand url w = (Throw (TypeError msg), w))
    <-> pathOf url = [] \/ pathOf url = ["x"].
Proof.
  intros net url w. unfold resolveDenoLand. split.
  - intros (msg & E).
    destruct (decide (pathOf url !! 0%nat = Some "x")) as [Hx|Hx].
    + destruct (pathOf url) as [|a [|b rest]] eqn:Hp; cbn in *; auto.
      * injection Hx as ->. auto.
      * exfalso. revert E.
        destruct (decomposePackageNameVersion b) as [pkgName pkgVersion].
        unfold mbind, M_bind, cacheGet. simpl.
        destruct (cachedString (denoLandCache w !! pkgName)); [discriminate|].
        unfold doFetch.
        destruct (fetch (requests w) _) as [[[field|e]|status]|e]; cbn;
          intros E; injection E as _ E; apply (f_equal requests) in E;
          cbn in E; apply (f_equal length) in E; rewrite length_app in E;
          cbn in E; lia.
    + destruct (pathOf url) as [|a rest] eqn:Hp; cbn in *; auto.
      exfalso. revert E.
      destruct (decomposePackageNameVersion a) as [pkgName pkgVersion].
      unfold mbind, M_bind, cacheGet. simpl.
      destruct (cachedString (denoLandCache w !! pkgName)); [discriminate|].
      unfold doFetch.
      destruct (fetch (requests w) _) as [[[field|e]|status]|e]; cbn;
        intros E; injection E as _ E; apply (f_equal requests) in E;
        cbn in E; apply (f_equal length) in E; rewrite length_app in E;
        cbn in E; lia.
  - intros [-> | ->]; cbn; eexists; reflexivity.
Qed.

(** The cache of releases is keyed by owner and repository: once the latest
    release of a repository has been fetched and its tag cleans to a
    version, the lookup of any other file or ref of the repository sends no
    request and reports that version; the ref is returned as the address
    has it. *)
Theorem gitHub_refs_share_one_lookup :
  forall (lib : SemverLib) (net : Network) (url1 url2 : URL) (w : World)
         (tag_name : option string) (v : string),
    pathOf url1 !! 0%nat = pathOf url2 !! 0%nat ->
    pathOf url1 !! 1%nat = pathOf url2 !! 1%nat ->
    cachedString
      (gitHubCache w !! (JS.template (pathOf url1 !! 0%nat) +:+ "/"
                         +:+ JS.template (pathOf url1 !! 1%nat))) = None ->
    getLatestRelease (requests w) (pathOf url1 !! 0%nat) (pathOf url1 !! 1%nat)
    = Normal tag_name ->
    clean (default EmptyString tag_name) = Some v ->
    exists w1,
      resolveGitHub url1 w = (Normal (pathOf url1 !! 2%nat, Some v), w1)
      /\ resolveGitHub url2 w1 = (Normal (pathOf url2 !! 2%nat, Some v), w1)
      /\ requests w1
         = (requests w
            ++ [GetLatestRelease (pathOf url1 !! 0%nat) (pathOf url1 !! 1%nat)])%list.
Proof.
  intros lib net url1 url2 w tag_name v H0 H1 Hc Hr Hv.
  eexists. split; [|split].
  - unfold resolveGitHub, mbind, M_bind, cacheGet. simpl.
    rewrite Hc. unfold doGetLatestRelease. rewrite Hr. simpl. rewrite Hv.
    reflexivity.
  - unfold resolveGitHub, mbind, M_bind, cacheGet. simpl.
    rewrite <- H0, <- H1, lookup_insert_eq. reflexivity.
  - reflexivity.
Qed.

Lemma gitHub_refs_share_one_lookup_witness :
  exists w1,
    @resolveGitHub NodeSemver.lib (networkAt "2.1.0")
      (mkURL "raw.githubusercontent.com" "/denoland/deno_std/main/version.ts")
      initialWorld
    = (Normal (Some "main", Some "2.1.0"), w1)
    /\ @resolveGitHub NodeSemver.lib (networkAt "2.1.0")
         (mkURL "raw.githubusercontent.com" "/denoland/deno_std/0.200.0/fs/mod.ts")
         w1
       = (Normal (Some "0.200.0", Some "2.1.0"), w1)
    /\ requests w1
       = (requests initialWorld
          ++ [GetLatestRelease (Some "denoland") (Some "deno_std")])%list.
Proof.
  apply (gitHub_refs_share_one_lookup NodeSemver.lib (networkAt "2.1.0")
           (mkURL "raw.githubusercontent.com" "/denoland/deno_std/main/version.ts")
           (mkURL "raw.githubusercontent.com" "/denoland/deno_std/0.200.0/fs/mod.ts")
           initialWorld (Some "v2.1.0") "2.1.0"); reflexivity.
Defined.

(** ** The classifier, outcome by outcome *)

(** [checkVersion] answers [latest] exactly when both versions are present,
    the latest one is valid, [gtr] does not place it above the current one,
    and the current one is itself a valid exact version. *)
Theorem latest_exactly_when_exact_and_not_exceeded :
  forall (lib : SemverLib), SemverLaws lib ->
  forall (name : string) (cur lat : option string),
    checkVersion name cur lat = Normal latest <->
    exists c l v,
      cur = Some c /\ lat = Some l /\ valid l = Some v
      /\ gtr v c = Normal false /\ valid c <> None.
Proof.
  intros lib laws name cur lat. split.
  - rewrite checkVersion_cases.
    destruct (JS.truthy cur) as [c|] eqn:Ec; [|discriminate].
    destruct (JS.truthy lat) as [l|] eqn:El; [|discriminate].
    destruct (JS.truthy (valid l)) as [v|] eqn:Ev; [|discriminate].
    destruct (gtr v c) as [[|]|] eqn:Eg; try discriminate.
    rewrite falsy_valid. destruct (valid c) eqn:Evc; [|discriminate].
    intros _. exists c, l, v.
    apply truthy_inv in Ec as [-> _]. apply truthy_inv in El as [-> _].
    apply truthy_inv in Ev as [-> _]. repeat split; auto. congruence.
  - intros (c & l & v & -> & -> & Hv & Hg & Hc).
    assert (c <> EmptyString) as Hne.
    { intros ->. now rewrite valid_empty in Hc. }
    rewrite (checkVersion_compared name c l v Hne Hv), Hg.
    destruct (valid c); [reflexivity | contradiction].
Qed.

Lemma latest_exactly_when_exact_and_not_exceeded_witness :
  @checkVersion NodeSemver.lib "left-pad" (Some "1.2.3") (Some "1.2.3")
  = Normal latest <->
  exists c l v,
    Some "1.2.3" = Some c /\ Some "1.2.3" = Some l
    /\ @valid NodeSemver.lib l = Some v
    /\ @gtr NodeSemver.lib v c = Normal false /\ @valid NodeSemver.lib c <> None.
Proof.
  exact (latest_exactly_when_exact_and_not_exceeded NodeSemver.lib NodeSemver_laws
           "left-pad" (Some "1.2.3") (Some "1.2.3")).
Defined.

(** [checkVersion] answers [not_found] exactly when the current version is
    a string that is not empty and the latest version is [null] or the empty
    string; the library is not consulted. *)
Theorem not_found_exactly_when_latest_missing :
  forall (lib : SemverLib) (name : string) (cur lat : option string),
    checkVersion name cur lat = Normal not_found <->
    (exists c, cur = Some c /\ c <> EmptyString)
    /\ (lat = None \/ lat = Some EmptyString).
Proof.
  intros lib name cur lat. rewrite checkVersion_cases. split.
  - destruct (JS.truthy cur) as [c|] eqn:Ec; [|discriminate].
    apply truthy_inv in Ec as [-> Hc].
    destruct (JS.truthy lat) as [l|] eqn:El.
    + destruct (JS.truthy (valid l)); [|discriminate].
      destruct (gtr _ c) as [[|]|]; try discriminate.
      destruct (JS.falsy (valid c)); discriminate.
    + intros _. split; [eauto|]. now apply truthy_None.
  - intros ((c & -> & Hc) & Hl). rewrite (truthy_nonempty c Hc).
    apply truthy_None in Hl. now rewrite Hl.
Qed.

(** ** Requests of a whole scan *)

Lemma forEachPush_requests {A B : Type} (body : A -> M B) (xs : list A) :
  (forall x w r w', body x w = (r, w') ->
                    (length (requests w') <= S (length (requests w)))%nat) ->
  forall (acc : list B) (w : World) (r : Completion (list B)) (w' : World),
    forEachPush body xs acc w = (r, w') ->
    (length (requests w') <= length (requests w) + length xs)%nat.
Proof.
  intros Hb. induction xs as [|x xs IH]; intros acc w r w' E.
  - injection E as _ <-. lia.
  - cbn [forEachPush] in E. unfold mbind, M_bind in E.
    destruct (body x w) as [[item|e] w1] eqn:Eb; apply Hb in Eb.
    + apply IH in E. cbn [length]. lia.
    + injection E as _ <-. cbn [length]. lia.
Qed.

Lemma item_of_pair_world {lib : SemverLib} (name : string)
    (cur lat : option string) (w : World)
    (r : Completion VersionCheckSummaryItem) (w' : World) :
  (checkResult ← liftC (checkVersion name cur lat);
   mret (mkItem name cur lat checkResult)) w = (r, w') -> w' = w.
Proof.
  unfold mbind, M_bind, liftC, mret, M_ret.
  destruct (checkVersion name cur lat); intros E; now injection E.
Qed.

(** The two resolvers of [main.ts] send at most one request per call, and
    with such a resolver no scan sends more requests than it has references:
    keys of the record, keys of the import map, URLs found in the text. This
    holds as well when the scan ends in a throw. *)
Theorem scan_sends_at_most_one_request_per_reference :
  forall (lib : SemverLib) (net : Network) (urls : URLLib),
    atMostOneRequest createNpmResolver
    /\ atMostOneRequest createDenoURLResolver
    /\ forall resolver : Resolver,
         atMostOneRequest resolver ->
         forall (w : World) (r : Completion (list VersionCheckSummaryItem))
                (w' : World),
           (forall packages : JSRecord,
              checkDepsRecord packages resolver w = (r, w') ->
              (length (requests w')
               <= length (requests w) + length (keys packages))%nat)
           /\ (forall packages : ImportMap,
                 checkDepsImportMap packages resolver w = (r, w') ->
                 (length (requests w')
                  <= length (requests w) + length (keys (imports packages)))%nat)
           /\ (forall text : string,
                 checkURLStringsEsInText text resolver w = (r, w') ->
                 (length (requests w')
                  <= length (requests w) + length (extractURLs text))%nat).
Proof.
  intros lib net urls. split; [|split].
  - intros x w r w' E. apply npm_oneLookup in E as ([[->|(q & ->)] _] & _);
      [|rewrite length_app; cbn]; lia.
  - intros x w r w' E. apply dispatch_oneLookup in E as [[->|(q & ->)] _];
      [|rewrite length_app; cbn]; lia.
  - intros resolver Hr w r w'. split; [|split].
    + intros packages. apply forEachPush_requests. clear w r w'.
      intros k w r w'. unfold mbind at 1, M_bind at 1.
      destruct (resolver k w) as [[[c l]|e] w1] eqn:Er; apply Hr in Er; intros E.
      * apply item_of_pair_world in E as ->. exact Er.
      * injection E as _ <-. exact Er.
    + intros packages. apply forEachPush_requests. clear w r w'.
      intros k w r w'. destruct (get k (imports packages)) as [url|].
      * unfold mbind at 1, M_bind at 1.
        destruct (resolver url w) as [[[c l]|e] w1] eqn:Er; apply Hr in Er; intros E.
        -- apply item_of_pair_world in E as ->. exact Er.
        -- injection E as _ <-. exact Er.
      * intros E. injection E as _ <-. lia.
    + intros text. apply forEachPush_requests. clear w r w'.
      intros url w r w'. unfold mbind at 1, M_bind at 1.
      destruct (resolver url w) as [[[c l]|e] w1] eqn:Er; apply Hr in Er; intros E.
      * apply item_of_pair_world in E as ->. exact Er.
      * injection E as _ <-. exact Er.
Qed.

Lemma scan_sends_at_most_one_request_per_reference_witness :
  (length (requests
             (snd (@checkURLStringsEsInText NodeSemver.lib repeatedText
                     (@createDenoURLResolver NodeSemver.lib network404 simpleURL)
                     initialWorld)))
   <= length (requests initialWorld) + length (extractURLs repeatedText))%nat.
Proof.
  pose proof (scan_sends_at_most_one_request_per_reference
                NodeSemver.lib network404 simpleURL) as (_ & Hd & Hscan).
  eapply (proj2 (proj2 (Hscan _ Hd initialWorld _ _))).
  apply surjective_pairing.
Defined.

(** ** Matches of one pattern *)

Lemma matchAllFrom_apart (q : ascii) (s : string) :
  forall skip index : nat,
    Forall (fun p => (index + skip <= fst p)%nat) (matchAllFrom q skip index s)
    /\ StronglySorted
         (fun a b => (fst a + String.length (snd a) <= fst b)%nat)
         (matchAllFrom q skip index s).
Proof.
  induction s as [|c s IH]; intros skip index; [split; constructor|].
  cbn [matchAllFrom]. destruct skip as [|k].
  - destruct (matchHere q (String c s)) as [m0|] eqn:E0.
    + apply matchHere_sound in E0 as [Hm _]. apply quotedURL_length in Hm.
      destruct (IH (String.length m0 - 1)%nat (S index)) as [Hle Hs].
      split; constructor; cbn [fst snd]; try lia; try exact Hs.
      * eapply Forall_impl; [exact Hle|]. intros; cbv beta in *; lia.
      * eapply Forall_impl; [exact Hle|]. intros; cbv beta in *; lia.
    + destruct (IH 0%nat (S index)) as [Hle Hs]. split; [|exact Hs].
      eapply Forall_impl; [exact Hle|]. intros; cbv beta in *; lia.
  - destruct (IH k (S index)) as [Hle Hs]. split; [|exact Hs].
    eapply Forall_impl; [exact Hle|]. intros; cbv beta in *; lia.
Qed.

(** The matches of one pattern never overlap: each one starts at or behind
    the end of every match found before it. *)
Theorem matches_of_a_pattern_never_overlap :
  forall (q : ascii) (text : string),
    StronglySorted (fun a b => (fst a + String.length (snd a) <= fst b)%nat)
      (matchAll q text).
Proof. intros q text. apply (matchAllFrom_apart q text 0 0). Qed.

(** * [util.ts] *)

(** ** [classifyBy] *)

Section JSMapFacts.

Context {K V : Type} `{EqDecision K}.

Lemma mapGet_mapSet (k k' : K) (v : V) (m : JSMap K V) :
  mapGet k' (mapSet k v m) = if decide (k = k') then Some v else mapGet k' m.
Proof.
  induction m as [|[k0 v0] m IH]; cbn.
  - destruct (decide (k = k')); reflexivity.
  - destruct (decide (k0 = k)) as [->|N]; cbn.
    + destruct (decide (k = k')); reflexivity.
    + rewrite IH. destruct (decide (k0 = k')) as [->|N'];
        destruct (decide (k = k')); congruence.
Qed.

Lemma mapGet_None_keys (k : K) (m : JSMap K V) :
  mapGet k m = None <-> k ∉ (fst <$> m).
Proof.
  induction m as [|[k0 v0] m IH]; cbn.
  - split; [intros _; apply not_elem_of_nil | reflexivity].
  - rewrite not_elem_of_cons, <- IH.
    destruct (decide (k0 = k)) as [E|N].
    + split; [discriminate | intros [N _]; congruence].
    + split; [intros Hm; split; [congruence | exact Hm] | tauto].
Qed.

Lemma mapSet_absent (k : K) (v : V) (m : JSMap K V) :
  mapGet k m = None -> mapSet k v m = (m ++ [(k, v)])%list.
Proof.
  induction m as [|[k0 v0] m IH]; cbn; [reflexivity|].
  destruct (decide (k0 = k)); [discriminate|]. intros H. now rewrite (IH H).
Qed.

Lemma mapSet_present_keys (k : K) (v v' : V) (m : JSMap K V) :
  mapGet k m = Some v -> fst <$> mapSet k v' m = fst <$> m.
Proof.
  induction m as [|[k0 v0] m IH]; cbn; [discriminate|].
  destruct (decide (k0 = k)); cbn; [reflexivity|].
  intros H. now rewrite (IH H).
Qed.

Lemma mapGet_of_entry (k : K) (v : V) (m : JSMap K V) :
  NoDup (fst <$> m) -> In (k, v) m -> mapGet k m = Some v.
Proof.
  induction m as [|[k0 v0] m IH]; cbn; [tauto|].
  intros ND [E|Hin].
  - injection E as -> ->. destruct (decide (k = k)); congruence.
  - apply NoDup_cons in ND as [Hnotin ND].
    destruct (decide (k0 = k)) as [->|_].
    + exfalso. apply Hnotin. apply list_elem_of_In.
      change k with (fst (k, v)). apply in_map. exact Hin.
    + now apply IH.
Qed.

End JSMapFacts.

Section ClassifyBy.

Context {T S : Type} `{EqDecision S}.

Variable classifyFunc : T -> S.

Lemma classifyBy_snoc (items : list T) (item : T) :
  classifyBy (items ++ [item])%list classifyFunc
  = let map := classifyBy items classifyFunc in
    match mapGet (classifyFunc item) map with
    | Some arr => mapSet (classifyFunc item) (arr ++ [item])%list map
    | None => mapSet (classifyFunc item) [item] map
    end.
Proof. unfold classifyBy. now rewrite fold_left_app. Qed.

Lemma classifyBy_get (items : list T) (c : S) :
  mapGet c (classifyBy items classifyFunc)
  = match filter (fun x => classifyFunc x = c) items with
    | [] => None
    | arr => Some arr
    end.
Proof.
  induction items as [|item items IH] using rev_ind; [reflexivity|].
  rewrite classifyBy_snoc. cbv zeta. rewrite filter_app.
  destruct (mapGet (classifyFunc item) (classifyBy items classifyFunc))
    as [arr|] eqn:Eg; rewrite mapGet_mapSet;
    (destruct (decide (classifyFunc item = c)) as [Ec|Ec];
     [subst c; rewrite IH in Eg; rewrite filter_cons_True by reflexivity
     | rewrite IH, filter_cons_False by exact Ec; cbn [filter list_filter];
       now rewrite app_nil_r]).
  - destruct (filter _ items) as [|a l]; [discriminate|].
    injection Eg as <-. reflexivity.
  - destruct (filter _ items) as [|a l]; [reflexivity | discriminate].
Qed.

Lemma classifyBy_keys_NoDup (items : list T) :
  NoDup (fst <$> classifyBy items classifyFunc).
Proof.
  induction items as [|item items IH] using rev_ind; [constructor|].
  rewrite classifyBy_snoc. cbv zeta.
  destruct (mapGet (classifyFunc item) (classifyBy items classifyFunc))
    as [arr|] eqn:Eg.
  - now rewrite (mapSet_present_keys _ arr).
  - rewrite (mapSet_absent _ _ _ Eg), fmap_app. cbn.
    apply NoDup_app. repeat split; [exact IH | | apply NoDup_singleton].
    intros k Hk Hk'. apply list_elem_of_singleton in Hk' as ->.
    now apply mapGet_None_keys in Eg.
Qed.

Lemma concat_mapSet_present (k : S) (arr : list T) (x : T) (m : JSMap S (list T)) :
  mapGet k m = Some arr ->
  concat (snd <$> mapSet k (arr ++ [x])%list m) ≡ₚ x :: concat (snd <$> m).
Proof.
  induction m as [|[k0 v0] m IH]; cbn; [discriminate|].
  destruct (decide (k0 = k)); cbn.
  - intros E. injection E as ->.
    rewrite <- app_assoc. cbn. now rewrite <- Permutation_middle.
  - intros E. rewrite (IH E). now rewrite Permutation_middle.
Qed.

Lemma classifyBy_concat (items : list T) :
  concat (snd <$> classifyBy items classifyFunc) ≡ₚ items.
Proof.
  induction items as [|item items IH] using rev_ind; [reflexivity|].
  rewrite classifyBy_snoc. cbv zeta.
  destruct (mapGet (classifyFunc item) (classifyBy items classifyFunc))
    as [arr|] eqn:Eg.
  - rewrite (concat_mapSet_present _ _ _ _ Eg), IH.
    now rewrite Permutation_cons_append.
  - rewrite (mapSet_absent _ _ _ Eg), fmap_app, concat_app. cbn.
    now rewrite IH.
Qed.

End ClassifyBy.

(** Looking a class up in the result of [classifyBy] gives the items of that
    class, in the order in which they came, and nothing (the key is absent)
    when no item has the class. *)
Theorem classifyBy_class_is_ordered_selection :
  forall (T S : Type) (eq_dec : EqDecision S) (classifyFunc : T -> S)
         (items : list T) (c : S),
    mapGet c (classifyBy items classifyFunc)
    = match filter (fun x => classifyFunc x = c) items with
      | [] => None
      | arr => Some arr
      end.
Proof. intros. apply classifyBy_get. Qed.

(** The result of [classifyBy] is a partition of the items: no class is
    listed twice, no class is empty, every class holds exactly the items
    that belong to it, and the classes together hold every item once. *)
Theorem classifyBy_is_a_partition :
  forall (T S : Type) (eq_dec : EqDecision S) (classifyFunc : T -> S)
         (items : list T),
    NoDup (fst <$> classifyBy items classifyFunc)
    /\ concat (snd <$> classifyBy items classifyFunc) ≡ₚ items
    /\ forall (c : S) (arr : list T),
         In (c, arr) (classifyBy items classifyFunc) ->
         arr <> [] /\ arr = filter (fun x => classifyFunc x = c) items.
Proof.
  intros T S eq_dec classifyFunc items. split; [|split].
  - apply classifyBy_keys_NoDup.
  - apply classifyBy_concat.
  - intros c arr Hin.
    apply (mapGet_of_entry c arr _ (classifyBy_keys_NoDup classifyFunc items)) in Hin.
    rewrite classifyBy_get in Hin.
    destruct (filter _ items) as [|a l]; [discriminate|].
    injection Hin as <-. split; [discriminate | reflexivity].
Qed.

Lemma classifyBy_is_a_partition_witness :
  (["b"; "d"] : list string) <> []
  /\ ["b"; "d"]
     = filter (fun x => String.length x = 1%nat) ["aa"; "b"; "ccc"; "d"; "ee"].
Proof.
  apply (proj2 (proj2 (classifyBy_is_a_partition string nat _ String.length
                         ["aa"; "b"; "ccc"; "d"; "ee"])) 1%nat ["b"; "d"]).
  right. left. reflexivity.
Defined.

(** ** [padToLength] *)

Lemma length_spaces (n : nat) : String.length (spaces n) = n.
Proof. induction n as [|n IH]; cbn; [reflexivity | now rewrite IH]. Qed.

Lemma spaces_add (a b : nat) : spaces (a + b) = spaces a +:+ spaces b.
Proof.
  induction a as [|a IH]; [reflexivity|]. cbn [Nat.add spaces].
  now rewrite append_cons, IH.
Qed.

Lemma length_slice_to (n : nat) (s : string) :
  String.length (JS.slice_to n s) = Nat.min n (String.length s).
Proof.
  revert s. induction n as [|n IH]; intros [|c s]; cbn; try reflexivity.
  now rewrite IH.
Qed.

Lemma slice_to_append_le (n : nat) (a b : string) :
  (n <= String.length a)%nat -> JS.slice_to n (a +:+ b) = JS.slice_to n a.
Proof.
  revert a. induction n as [|n IH]; intros [|c a] Hn; cbn in Hn; try lia.
  - now destruct b.
  - reflexivity.
  - rewrite append_cons. cbn. rewrite IH by lia. reflexivity.
Qed.

Lemma slice_to_all (s : string) : JS.slice_to (String.length s) s = s.
Proof. induction s as [|c s IH]; cbn; [reflexivity | now rewrite IH]. Qed.

Lemma padToLength_length (text : string) (n : nat) :
  String.length (padToLength text n) = n.
Proof.
  unfold padToLength. rewrite length_slice_to, length_append, length_spaces. lia.
Qed.

Lemma padToLength_short (text : string) (n : nat) :
  (String.length text <= n)%nat ->
  padToLength text n = text +:+ spaces (n - String.length text).
Proof.
  intros Hn. unfold padToLength.
  replace (spaces n) with (spaces (n - String.length text) +:+ spaces (String.length text)).
  - rewrite <- append_assoc. apply slice_to_prefix.
    rewrite length_append, length_spaces. lia.
  - rewrite <- spaces_add. f_equal. lia.
Qed.

Lemma padToLength_long (text : string) (n : nat) :
  (n <= String.length text)%nat -> padToLength text n = JS.slice_to n text.
Proof. intros Hn. unfold padToLength. now apply slice_to_append_le. Qed.

(** [padToLength] returns a string of exactly the length asked for: the text
    followed by spaces when the text is not longer, and the text cut at
    that length when it is. *)
Theorem padToLength_pads_or_cuts :
  forall (text : string) (n : nat),
    String.length (padToLength text n) = n
    /\ ((String.length text <= n)%nat ->
        padToLength text n = text +:+ spaces (n - String.length text))
    /\ ((n <= String.length text)%nat ->
        padToLength text n = JS.slice_to n text).
Proof.
  intros text n. split; [|split].
  - apply padToLength_length.
  - apply padToLength_short.
  - apply padToLength_long.
Qed.

Lemma padToLength_pads_or_cuts_witness :
  padToLength "left-pad" 10 = "left-pad" +:+ spaces (10 - String.length "left-pad")
  /\ padToLength "left-pad" 4 = JS.slice_to 4 "left-pad".
Proof.
  split.
  - apply (proj1 (proj2 (padToLength_pads_or_cuts "left-pad" 10))). cbn. lia.
  - apply (proj2 (proj2 (padToLength_pads_or_cuts "left-pad" 4))). cbn. lia.
Defined.

(** ** [printableLength] *)

Lemma length_stripAnsiFrom (s : string) :
  forall skip : nat,
    (String.length (stripAnsiFrom skip s) <= String.length s)%nat.
Proof.
  induction s as [|c s IH]; intros skip; cbn [stripAnsiFrom String.length]; [lia|].
  destruct skip as [|k].
  - destruct (matchAnsi (String c s)) as [n|].
    + specialize (IH (n - 1)%nat). lia.
    + cbn [String.length]. specialize (IH 0%nat). lia.
  - specialize (IH k). lia.
Qed.

Lemma matchAnsi_not_esc (c : ascii) (s : string) :
  Ascii.eqb c esc = false -> matchAnsi (String c s) = None.
Proof.
  intros Hc. unfold matchAnsi. cbn [after]. rewrite Ascii.eqb_sym, Hc.
  reflexivity.
Qed.

(** Text without the escape character is kept, up to the first escape. *)
Lemma stripAnsi_prefix (a b : string) :
  occurs esc a = false ->
  stripAnsiFrom 0 (a +:+ b) = a +:+ stripAnsiFrom 0 b.
Proof.
  induction a as [|c a IH]; [reflexivity|].
  cbn [occurs]. intros H. apply orb_false_elim in H as [Hc Ha].
  rewrite !append_cons. cbn [stripAnsiFrom].
  rewrite (matchAnsi_not_esc c _ Hc), (IH Ha). reflexivity.
Qed.

Lemma stripAnsi_plain (text : string) :
  occurs esc text = false -> stripAnsi text = text.
Proof.
  intros H. unfold stripAnsi.
  replace text with (text +:+ EmptyString) at 1.
  - rewrite (stripAnsi_prefix text EmptyString H). cbn.
    clear. induction text as [|c t IH]; [reflexivity|].
    rewrite append_cons. now rewrite IH.
  - clear. induction text as [|c t IH]; [reflexivity|].
    rewrite append_cons. now rewrite IH.
Qed.

Lemma stripAnsiFrom_skip (a t : string) :
  stripAnsiFrom (String.length a) (a +:+ t) = stripAnsiFrom 0 t.
Proof.
  induction a as [|c a IH]; [reflexivity|].
  rewrite append_cons. cbn [String.length stripAnsiFrom]. exact IH.
Qed.

Lemma spanDigits_run (d : string) (c : ascii) (t : string) :
  NodeSemver.all_chars NodeSemver.is_digit d = true ->
  NodeSemver.is_digit c = false ->
  spanDigits (d +:+ String c t) = (d, String c t).
Proof.
  intros Hd Hc. induction d as [|x d IH].
  - rewrite append_nil. cbn. now rewrite Hc.
  - rewrite append_cons. cbn in *. apply andb_prop in Hd as [-> Hd].
    now rewrite (IH Hd).
Qed.

(** A colour sequence at the start of a text is matched whole. *)
Lemma matchAnsi_sgr (params t : string) :
  sgrParams params ->
  matchAnsi (String esc ("[" +:+ params +:+ String "m" t))
  = Some (String.length (String esc ("[" +:+ params +:+ "m"))).
Proof.
  intros (d1 & [Hne1 Hd1] & [-> | (d2 & [Hne2 Hd2] & ->)]);
    unfold matchAnsi; push_append; cbn [after]; rewrite !Ascii.eqb_refl;
    cbn [mbind option_bind].
  - rewrite (spanDigits_run d1 "m" t Hd1 eq_refl).
    destruct d1 as [|x d1]; [contradiction|].
    f_equal. cbn [String.length]. rewrite !length_append. cbn. lia.
  - rewrite (spanDigits_run d1 ";" _ Hd1 eq_refl).
    destruct d1 as [|x d1]; [contradiction|].
    rewrite (spanDigits_run d2 "m" t Hd2 eq_refl).
    destruct d2 as [|y d2]; [contradiction|].
    f_equal. cbn [String.length]. rewrite !length_append. cbn [String.length].
    rewrite !length_append. cbn. lia.
Qed.

Lemma stripAnsi_sgr (params t : string) :
  sgrParams params ->
  stripAnsiFrom 0 (String esc ("[" +:+ params +:+ String "m" t))
  = stripAnsiFrom 0 t.
Proof.
  intros Hp. cbn [stripAnsiFrom]. rewrite (matchAnsi_sgr params t Hp).
  cbn [String.length]. rewrite Nat.sub_succ, Nat.sub_0_r.
  replace ("[" +:+ params +:+ String "m" t) with (("[" +:+ params +:+ "m") +:+ t)
    by now push_append.
  apply stripAnsiFrom_skip.
Qed.

Lemma printableLength_sgr (params text : string) :
  sgrParams params -> occurs esc text = false ->
  printableLength (sgr params text) = String.length text.
Proof.
  intros Hp Ht. unfold printableLength, stripAnsi, sgr.
  replace ("[" +:+ params +:+ "m" +:+ text +:+ String esc "[0m")
    with ("[" +:+ params +:+ String "m" (text +:+ String esc "[0m"))
    by now push_append.
  rewrite (stripAnsi_sgr params _ Hp), (stripAnsi_prefix text _ Ht).
  change (String esc "[0m") with (String esc ("[" +:+ "0" +:+ String "m" EmptyString)).
  rewrite (stripAnsi_sgr "0" EmptyString).
  - cbn [stripAnsiFrom]. rewrite length_append. cbn. lia.
  - exists "0". split; [split; [discriminate | reflexivity] | left; reflexivity].
Qed.

(** The printable length of a text is never more than its length, it is the
    length itself for a text without the escape character, and it is the
    length of the text alone when the text, free of escape characters,
    stands between a colour sequence and the reset sequence. *)
Theorem printableLength_ignores_colour_sequences :
  forall text : string,
    (printableLength text <= String.length text)%nat
    /\ (occurs esc text = false -> printableLength text = String.length text)
    /\ (forall params : string,
          sgrParams params -> occurs esc text = false ->
          printableLength (sgr params text) = String.length text).
Proof.
  intros text. split; [|split].
  - apply length_stripAnsiFrom.
  - intros H. unfold printableLength. now rewrite stripAnsi_plain.
  - intros params. apply printableLength_sgr.
Qed.

Lemma printableLength_ignores_colour_sequences_witness :
  printableLength " Outdated " = String.length " Outdated "
  /\ printableLength (sgr "30;41" " Outdated ") = String.length " Outdated ".
Proof.
  pose proof (printableLength_ignores_colour_sequences " Outdated ") as (_ & Hp & Hs).
  split; [apply Hp; reflexivity | apply Hs; [|reflexivity]].
  exists "30". split; [split; [discriminate | reflexivity]|].
  right. exists "41". split; [split; [discriminate | reflexivity] | reflexivity].
Defined.

(** ** [renderTable] *)

Lemma keepGreater_max (prev cur : nat) : keepGreater prev cur = Nat.max prev cur.
Proof. unfold keepGreater. destruct (Nat.ltb_spec cur prev); lia. Qed.

Lemma fold_keepGreater_bounds {A : Type} (g : A -> nat) (l : list A) :
  forall a : nat,
    (a <= fold_left (fun prev x => keepGreater prev (g x)) l a)%nat
    /\ (forall x, In x l ->
                  (g x <= fold_left (fun prev x => keepGreater prev (g x)) l a)%nat)
    /\ (forall bound,
          (a <= bound)%nat -> (forall x, In x l -> (g x <= bound)%nat) ->
          (fold_left (fun prev x => keepGreater prev (g x)) l a <= bound)%nat).
Proof.
  induction l as [|y l IH]; intros a; cbn [fold_left].
  - split; [lia | split; [intros x [] | auto]].
  - destruct (IH (keepGreater a (g y))) as (Ha & Hin & Hub).
    rewrite keepGreater_max in *. split; [lia | split].
    + intros x [<- | Hx]; [lia | now apply Hin].
    + intros bound Hb Hall. apply Hub.
      * pose proof (Hall y (or_introl eq_refl)). lia.
      * intros x Hx. apply Hall. now right.
Qed.

Section RenderTable.

Variable cells : list (list string).

(** The width of column [i]: the largest printable length in it. *)
Local Abbreviation widthOf i :=
  (fold_left (fun prev (row : list nat) => keepGreater prev (nth i row 0%nat))
     (cellLengthsOf cells) 0%nat).

Lemma columns_ge (row : list string) :
  In row cells -> (length row <= columnsOf cells)%nat.
Proof.
  intros Hin. unfold columnsOf.
  destruct (fold_keepGreater_bounds id (length <$> cells) 0%nat) as (_ & Hall & _).
  apply (Hall (length row)). now apply in_map.
Qed.

Lemma length_tableCells_row (trow : list string) :
  In trow (tableCellsOf cells) -> length trow = columnsOf cells.
Proof.
  unfold tableCellsOf. intros Hin. apply in_map_iff in Hin as (row & <- & _).
  now rewrite length_fmap, length_seq.
Qed.

Lemma length_maxCellWidths : length (maxCellWidthsOf cells) = columnsOf cells.
Proof. unfold maxCellWidthsOf. now rewrite length_fmap, length_seq. Qed.

Lemma maxCellWidths_lookup (i : nat) :
  (i < columnsOf cells)%nat -> nth i (maxCellWidthsOf cells) 0%nat = widthOf i.
Proof.
  intros Hi. apply nth_lookup_Some. unfold maxCellWidthsOf.
  rewrite list_lookup_fmap, lookup_seq_lt by exact Hi. reflexivity.
Qed.

Lemma tableCells_lookup (r : nat) (row : list string) :
  cells !! r = Some row ->
  tableCellsOf cells !! r
  = Some ((fun i => default EmptyString (row !! i)) <$> seq 0 (columnsOf cells)).
Proof. intros Hr. unfold tableCellsOf. now rewrite list_lookup_fmap, Hr. Qed.

(** The width of a column bounds the printable length of its cells, and is
    bounded by whatever bounds them all. *)
Lemma width_bounds (i : nat) :
  (i < columnsOf cells)%nat ->
  (forall row, In row cells ->
               (printableLength (default EmptyString (row !! i)) <= widthOf i)%nat)
  /\ (forall bound,
        (forall row, In row cells ->
                     (printableLength (default EmptyString (row !! i)) <= bound)%nat) ->
        (widthOf i <= bound)%nat).
Proof.
  intros Hi.
  destruct (fold_keepGreater_bounds (fun row : list nat => nth i row 0%nat)
              (cellLengthsOf cells) 0%nat) as (_ & Hall & Hub).
  assert (forall row, In row cells ->
                      nth i (printableLength <$>
                               ((fun i => default EmptyString (row !! i))
                                  <$> seq 0 (columnsOf cells))) 0%nat
                      = printableLength (default EmptyString (row !! i))) as Hnth.
  { intros row _. apply nth_lookup_Some.
    rewrite !list_lookup_fmap, lookup_seq_lt by exact Hi. reflexivity. }
  split.
  - intros row Hrow. rewrite <- (Hnth row Hrow).
    apply (Hall (printableLength <$> _)).
    unfold cellLengthsOf, tableCellsOf.
    apply (in_map (fun row : list string => printableLength <$> row)).
    apply (in_map (fun row : list string =>
                     (fun i => default EmptyString (row !! i))
                       <$> seq 0 (columnsOf cells))).
    exact Hrow.
  - intros bound Hb. apply Hub; [lia|].
    intros lens Hlens. unfold cellLengthsOf, tableCellsOf in Hlens.
    apply in_map_iff in Hlens as (trow & <- & Htrow).
    apply in_map_iff in Htrow as (row & <- & Hrow).
    rewrite (Hnth row Hrow). now apply Hb.
Qed.

(** Where a cell of the input ends up, and what it looks like there. *)
Lemma padded_cell (r i : nat) (row : list string) (cell : string) :
  cells !! r = Some row -> row !! i = Some cell ->
  (i < columnsOf cells)%nat
  /\ exists prow,
       paddedRows cells !! r = Some prow
       /\ prow !! i = Some (padToLength cell (widthOf i)).
Proof.
  intros Hr Hi.
  assert (i < columnsOf cells)%nat as Hlt.
  { apply lookup_lt_Some in Hi.
    pose proof (columns_ge row) as Hc.
    assert (In row cells) as Hin
      by (apply list_elem_of_In; eapply list_elem_of_lookup_2; exact Hr).
    specialize (Hc Hin). lia. }
  split; [exact Hlt|].
  eexists. split.
  - unfold paddedRows. rewrite list_lookup_fmap, (tableCells_lookup r row Hr).
    reflexivity.
  - rewrite list_lookup_imap, list_lookup_fmap, lookup_seq_lt by exact Hlt.
    cbn. rewrite Hi, (maxCellWidths_lookup i Hlt). reflexivity.
Qed.

Lemma padded_row_lengths (prow : list string) :
  In prow (paddedRows cells) ->
  Forall2 (fun p w => String.length p = w) prow (maxCellWidthsOf cells).
Proof.
  unfold paddedRows. intros Hin. apply in_map_iff in Hin as (trow & <- & Htrow).
  apply Forall2_same_length_lookup_2.
  - rewrite length_imap, length_maxCellWidths. now apply length_tableCells_row.
  - intros i p w Hp Hw. rewrite list_lookup_imap in Hp.
    destruct (trow !! i) as [cell|]; [|discriminate]. injection Hp as <-.
    rewrite padToLength_length. now apply nth_lookup_Some.
Qed.

End RenderTable.

Lemma length_join (sep : string) (xs ys : list string) :
  Forall2 (fun a b => String.length a = String.length b) xs ys ->
  String.length (JS.join sep xs) = String.length (JS.join sep ys).
Proof.
  induction 1 as [|x y xs ys Hxy HF IH]; [reflexivity|].
  destruct HF as [|x' y' xs ys Hxy' HF].
  - exact Hxy.
  - cbn [JS.join] in *. rewrite !length_append, Hxy, IH. reflexivity.
Qed.

Lemma occurs_slice_to (c : ascii) (n : nat) (s : string) :
  occurs c s = false -> occurs c (JS.slice_to n s) = false.
Proof.
  revert s. induction n as [|n IH]; intros [|a s]; cbn; try reflexivity.
  intros H. apply orb_false_elim in H as [-> H]. now apply IH.
Qed.

Lemma occurs_spaces (c : ascii) (n : nat) :
  c <> " "%char -> occurs c (spaces n) = false.
Proof.
  intros Hc. induction n as [|n IH]; [reflexivity|].
  cbn [spaces occurs]. rewrite IH, orb_false_r.
  apply Ascii.eqb_neq. congruence.
Qed.

Lemma occurs_join (c : ascii) (sep : string) (xs : list string) :
  occurs c sep = false -> Forall (fun x => occurs c x = false) xs ->
  occurs c (JS.join sep xs) = false.
Proof.
  intros Hsep. induction 1 as [|x xs Hx HF IH]; [reflexivity|].
  destruct xs as [|y xs]; [exact Hx|].
  change (JS.join sep (x :: y :: xs)) with (x +:+ sep +:+ JS.join sep (y :: xs)).
  now rewrite !occurs_append, Hx, Hsep, IH.
Qed.

(** Splitting at the separator undoes joining, for pieces that do not
    contain the separator. *)
Lemma split_join (c : ascii) (xs : list string) :
  xs <> [] -> Forall (fun x => occurs c x = false) xs ->
  JS.split c (JS.join (String c EmptyString) xs) = xs.
Proof.
  intros Hne HF. induction HF as [|x xs Hx HF IH]; [congruence|].
  destruct xs as [|y xs]; [now apply split_no_sep|].
  change (JS.join (String c EmptyString) (x :: y :: xs))
    with (x +:+ String c EmptyString +:+ JS.join (String c EmptyString) (y :: xs)).
  rewrite append_cons, append_nil, (split_segment c x _ Hx), IH; [reflexivity|].
  discriminate.
Qed.

Lemma renderLines_no_line_feed (cells : list (list string)) :
  Forall (Forall (fun cell => occurs "010" cell = false)) cells ->
  Forall (fun line => occurs "010" line = false) (renderLines cells).
Proof.
  intros HF. unfold renderLines, paddedRows, tableCellsOf.
  rewrite !Forall_fmap. eapply Forall_impl; [exact HF|].
  intros row Hrow. cbn. apply occurs_join; [reflexivity|].
  apply Forall_lookup_2. intros i p Hp. rewrite list_lookup_imap in Hp.
  rewrite list_lookup_fmap in Hp.
  destruct (seq 0 (columnsOf cells) !! i) as [j|]; [|discriminate].
  cbn in Hp. injection Hp as <-.
  unfold padToLength. apply occurs_slice_to. rewrite occurs_append.
  rewrite occurs_spaces by discriminate. rewrite orb_false_r.
  destruct (row !! j) as [cell|] eqn:E; [|reflexivity]. cbn.
  exact (Forall_lookup_1 _ _ _ _ Hrow E).
Qed.

(** The text of a table whose cells hold no line feed has one line per row,
    and all its lines have the same length. A cell with a line feed breaks
    both: a table of two rows then has three lines, of different lengths. *)
Theorem renderTable_lines_have_one_length :
  (forall cells : list (list string),
     cells <> [] ->
     Forall (Forall (fun cell => occurs "010" cell = false)) cells ->
     length (JS.split "010" (renderTable cells)) = length cells
     /\ exists width,
          Forall (fun line => String.length line = width)
            (JS.split "010" (renderTable cells)))
  /\ JS.split "010"
       (renderTable [[String "a" (String "010" "b"); "xy"]; ["c"; "z"]])
     = ["a"; "b xy"; "c   z "].
Proof.
  split; [|reflexivity].
  intros cells Hne HF.
  assert (JS.split "010" (renderTable cells) = renderLines cells) as ->.
  { unfold renderTable. apply split_join.
    - unfold renderLines, paddedRows, tableCellsOf.
      destruct cells; [congruence | discriminate].
    - now apply renderLines_no_line_feed. }
  split.
  - unfold renderLines, paddedRows, tableCellsOf. now rewrite !length_fmap.
  - exists (String.length (JS.join " " (spaces <$> maxCellWidthsOf cells))).
    apply Forall_forall. intros line Hline. apply list_elem_of_In in Hline.
    unfold renderLines in Hline. apply in_map_iff in Hline as (prow & <- & Hprow).
    apply length_join. apply Forall2_fmap_r.
    eapply Forall2_impl; [apply (padded_row_lengths cells prow Hprow)|].
    intros p w <-. cbn. now rewrite length_spaces.
Qed.

Lemma renderTable_lines_have_one_length_witness :
  length (JS.split "010" (renderTable [["Package"; "Current"]; ["oak"; "12.6.1"]]))
  = 2%nat
  /\ exists width,
       Forall (fun line => String.length line = width)
         (JS.split "010" (renderTable [["Package"; "Current"]; ["oak"; "12.6.1"]])).
Proof.
  apply (proj1 renderTable_lines_have_one_length
           [["Package"; "Current"]; ["oak"; "12.6.1"]]).
  - discriminate.
  - repeat constructor.
Defined.





(** * [main.ts]: the summary of a run *)

Lemma class_of_summary (summary : list VersionCheckSummaryItem)
    (c : VersionCheckResult) :
  default [] (mapGet c (classifyBy summary checkResult))
  = filter (fun item => checkResult item = c) summary.
Proof.
  rewrite classifyBy_get. now destruct (filter _ summary).
Qed.

Lemma length_filter_all {A : Type} (P : A -> Prop) `{forall x, Decision (P x)}
    (l : list A) :
  length (filter P l) = length l <-> Forall P l.
Proof.
  induction l as [|x l IH]; [split; [constructor | reflexivity]|].
  pose proof (length_filter P l) as Hle.
  destruct (decide (P x)) as [Hx|Hx].
  - rewrite filter_cons_True by exact Hx. cbn [length].
    rewrite Forall_cons. split.
    + intros E. split; [exact Hx | apply IH; lia].
    + intros [_ Hl]. apply IH in Hl. lia.
  - rewrite filter_cons_False by exact Hx. cbn [length].
    rewrite Forall_cons. split; [lia | tauto].
Qed.

Lemma needsFix_false (summary : list VersionCheckSummaryItem) :
  needsFix summary = false <-> Forall (fun item => checkResult item = latest) summary.
Proof.
  unfold needsFix. induction summary as [|item summary IH]; cbn [existsb].
  - split; [constructor | reflexivity].
  - rewrite orb_false_iff, IH, Forall_cons, negb_false_iff, bool_decide_eq_true.
    reflexivity.
Qed.

Lemma counts_add_up (summary : list VersionCheckSummaryItem) :
  length summary
  = (length (filter (fun item => checkResult item = latest) summary)
     + length (filter (fun item => checkResult item = outdated) summary)
     + length (filter (fun item => checkResult item = not_found) summary)
     + length (filter (fun item => checkResult item = invalid_version) summary)
     + length (filter (fun item => checkResult item = not_fixed) summary))%nat.
Proof.
  induction summary as [|item summary IH]; [reflexivity|].
  rewrite !filter_cons.
  destruct (checkResult item); repeat case_decide; try congruence;
    cbn [length]; lia.
Qed.

(** [reportRepo] in terms of the items of each class. *)
Lemma reportRepo_classes (summary : list VersionCheckSummaryItem) :
  reportRepo summary
  = let class c := filter (fun item => checkResult item = c) summary in
    if (length (class latest) =? length summary)%nat then None
    else
      let table :=
        ([sgr "30;41" EmptyString; "Package"; "Current"; "Latest"]
         :: (depRow (sgr "30;41" " Outdated ") <$> class outdated)
         ++ (depRow (sgr "30;41" " Not found ") <$> class not_found)
         ++ (depRow (sgr "30;43" " Invalid Version ") <$> class invalid_version)
         ++ (depRow (sgr "30;43" " Not Fixed ") <$> class not_fixed))%list in
      Some (mkRepoReport (length summary) (length (class latest))
              (length (class outdated)) (length (class not_found))
              (length (class invalid_version)) (length (class not_fixed))
              table (renderTable table) (0 <? length (class not_fixed))%nat).
Proof. unfold reportRepo. cbv zeta. now rewrite !class_of_summary. Qed.

Lemma reportRepo_None (summary : list VersionCheckSummaryItem) :
  reportRepo summary = None <-> needsFix summary = false.
Proof.
  rewrite reportRepo_classes, needsFix_false, <- length_filter_all. cbv zeta.
  destruct (_ =? _)%nat eqn:E.
  - apply Nat.eqb_eq in E. split; [intros _; exact E | reflexivity].
  - apply Nat.eqb_neq in E. split; [discriminate | intros H; contradiction].
Qed.

(** A repository is passed over in the report exactly when none of its
    dependencies needs a fix, so the number of repositories that get a
    report is the number announced as needing a fix. *)
Theorem reported_repositories_are_the_ones_counted :
  (forall summary : list VersionCheckSummaryItem,
     reportRepo summary = None <-> needsFix summary = false)
  /\ forall summaries : list (string * list VersionCheckSummaryItem),
       length (List.filter
                 (fun s => match reportRepo (snd s) with
                           | Some _ => true
                           | None => false
                           end) summaries)
       = repoNumNeedFix summaries.
Proof.
  split; [apply reportRepo_None|].
  intros summaries. unfold repoNumNeedFix. f_equal.
  apply List.filter_ext. intros [repoName summary]. cbn [snd].
  pose proof (reportRepo_None summary) as Hn.
  destruct (reportRepo summary), (needsFix summary); try reflexivity.
  - discriminate (proj2 Hn eq_refl).
  - discriminate (proj1 Hn eq_refl).
Qed.

(** In a report the total is the number of dependencies, the five counts add
    up to it, fewer than all are at the latest version, the table has a
    header and one row of four cells for each dependency that is not at the
    latest version, and the warning is set exactly when a version is not
    fixed. *)
Theorem report_counts_add_up :
  forall (summary : list VersionCheckSummaryItem) (report : RepoReport),
    reportRepo summary = Some report ->
    totalCount report = length summary
    /\ totalCount report
       = (latestCount report + outdatedCount report + notFoundCount report
          + invalidVersionCount report + notFixedCount report)%nat
    /\ (latestCount report < totalCount report)%nat
    /\ length (table report) = S (totalCount report - latestCount report)
    /\ Forall (fun row => length row = 4%nat) (table report)
    /\ (notFixedWarning report = true <->
        exists item, In item summary /\ checkResult item = not_fixed).
Proof.
  intros summary report. rewrite reportRepo_classes. cbv zeta.
  pose proof (counts_add_up summary) as Hsum.
  pose proof (length_filter (fun item => checkResult item = latest) summary) as Hle.
  destruct (_ =? _)%nat eqn:N; [discriminate|]. apply Nat.eqb_neq in N.
  intros E. injection E as <-. cbn [totalCount latestCount outdatedCount notFoundCount
                                      invalidVersionCount notFixedCount table
                                      notFixedWarning].
  split; [reflexivity|]. split; [exact Hsum|]. split; [lia|]. split; [|split].
  - cbn [length]. rewrite !length_app, !length_fmap. lia.
  - constructor; [reflexivity|].
    rewrite !Forall_app. repeat split; apply Forall_fmap, Forall_forall;
      intros; reflexivity.
  - rewrite Nat.ltb_lt. split.
    + intros Hlen.
      destruct (filter (fun item => checkResult item = not_fixed) summary)
        as [|item l] eqn:Ef; [cbn in Hlen; lia|].
      assert (item ∈ filter (fun item => checkResult item = not_fixed) summary)
        as Hin by (rewrite Ef; left).
      apply list_elem_of_filter in Hin as [Hr Hin].
      exists item. split; [now apply list_elem_of_In | exact Hr].
    + intros (item & Hin & Hr).
      assert (item ∈ filter (fun item => checkResult item = not_fixed) summary)
        as Hf by (apply list_elem_of_filter; split; [exact Hr | now apply list_elem_of_In]).
      destruct (filter (fun item => checkResult item = not_fixed) summary);
        [inversion Hf | cbn; lia].
Qed.

Lemma report_counts_add_up_witness :
  exists report,
    reportRepo [mkItem "left-pad" (Some "1.0.0") (Some "1.3.0") outdated;
                mkItem "oak" (Some "2.1.0") (Some "2.1.0") latest]
    = Some report
    /\ totalCount report = 2%nat
    /\ totalCount report
       = (latestCount report + outdatedCount report + notFoundCount report
          + invalidVersionCount report + notFixedCount report)%nat.
Proof.
  eexists. split; [reflexivity|].
  match goal with
  | |- context [totalCount ?rep] =>
      pose proof (report_counts_add_up
                    [mkItem "left-pad" (Some "1.0.0") (Some "1.3.0") outdated;
                     mkItem "oak" (Some "2.1.0") (Some "2.1.0") latest]
                    rep eq_refl) as (Ht & Hs & _)
  end.
  split; [exact Ht | exact Hs].
Defined.

Lemma report_table_rows (summary : list VersionCheckSummaryItem)
    (report : RepoReport) (row : list string) :
  reportRepo summary = Some report -> In row (table report) ->
  row = [sgr "30;41" EmptyString; "Package"; "Current"; "Latest"]
  \/ exists label dep,
       row = depRow label dep
       /\ In label [sgr "30;41" " Outdated "; sgr "30;41" " Not found ";
                    sgr "30;43" " Invalid Version "; sgr "30;43" " Not Fixed "].
Proof.
  rewrite reportRepo_classes. cbv zeta.
  destruct (_ =? _)%nat; [discriminate|]. intros E. injection E as <-.
  cbn [table]. intros [<- | Hin]; [left; reflexivity | right].
  rewrite !in_app_iff in Hin.
  destruct Hin as [H | [H | [H | H]]];
    apply in_map_iff in H as (dep & <- & _); eexists _, dep;
    (split; [reflexivity|]); cbn; auto.
Qed.


